(** * NetworkScanner: a shallow embedding of [src/network-scanner.ts]

    The scanner pings every host of an interface's subnet, reads the
    operating system's neighbour table with [arp -a], keeps the entries
    of the interface's subnet and enriches them with a vendor and a name.

    JavaScript strings are sequences of UTF-16 code units: a string is a
    [list N] here, and [js "..."] writes one down.  Numbers that go
    through [<<], [|], [&] and [~] are 32-bit signed integers, kept in [Z]
    with the wrap-around written out.  Everything the operating system
    answers (interfaces, command outputs, files, HTTP, DNS) is a field of
    a [World] record; what the scanner asks of it is logged as a list of
    [Event]s. *)

From Stdlib Require Import ZArith NArith List Bool Lia String Ascii Decimal.
From stdpp Require Import gmap.
Import ListNotations.

Abbreviation jsstring := (list N) (only parsing).

(** ** Strings *)

Definition js (s : string) : jsstring :=
  List.map N_of_ascii (list_ascii_of_string s).

Definition cu_in (lo hi c : N) : bool := ((lo <=? c) && (c <=? hi))%N.

(** [\d] *)
Definition is_digit (c : N) : bool := cu_in 48 57 c.

(** LineTerminator: LF, CR, LS, PS. *)
Definition is_line_terminator (c : N) : bool :=
  ((c =? 10) || (c =? 13) || (c =? 8232) || (c =? 8233))%N.

(** [\s], which is also what [trim] and [parseInt] strip: WhiteSpace and
    LineTerminator of ECMAScript. *)
Definition is_space (c : N) : bool :=
  (cu_in 9 13 c || (c =? 32) || (c =? 160) || (c =? 5760)
   || cu_in 8192 8202 c || (c =? 8232) || (c =? 8233) || (c =? 8239)
   || (c =? 8287) || (c =? 12288) || (c =? 65279))%N.

(** [toUpperCase] on the ASCII letters.  The scanner applies it to
    hardware addresses and OUI prefixes, which are hexadecimal text; for
    code units outside ASCII JavaScript follows the Unicode tables, which
    are not part of this model. *)
Definition upper_cu (c : N) : N := if cu_in 97 122 c then (c - 32)%N else c.
Definition toUpperCase (s : jsstring) : jsstring := List.map upper_cu s.

(** [s.replace(/a/g, "b")] for a single code unit [a]. *)
Definition replace_cu (a b : N) (s : jsstring) : jsstring :=
  List.map (fun c => if (c =? a)%N then b else c) s.

(** [s.replace(/a/g, e)] for a single code unit [a] and [e] the empty
    string. *)
Definition remove_cu (a : N) (s : jsstring) : jsstring :=
  List.filter (fun c => negb (c =? a)%N) s.

(** [s.slice(0, n)] *)
Definition slice0 (n : nat) (s : jsstring) : jsstring := firstn n s.

(** [s.split(sep)] for a single code unit [sep]; [acc] holds the current
    piece, reversed. *)
Fixpoint split_acc (sep : N) (acc : jsstring) (s : jsstring) : list jsstring :=
  match s with
  | [] => [rev acc]
  | c :: s' =>
      if (c =? sep)%N then rev acc :: split_acc sep [] s'
      else split_acc sep (c :: acc) s'
  end.
Definition split (sep : N) (s : jsstring) : list jsstring := split_acc sep [] s.

(** [parts.join(sep)] *)
Fixpoint join (sep : jsstring) (parts : list jsstring) : jsstring :=
  match parts with
  | [] => []
  | [p] => p
  | p :: ps => p ++ sep ++ join sep ps
  end.

Fixpoint drop_while (p : N -> bool) (s : jsstring) : jsstring :=
  match s with
  | [] => []
  | c :: s' => if p c then drop_while p s' else s
  end.

(** [s.trim()] *)
Definition trim (s : jsstring) : jsstring :=
  rev (drop_while is_space (rev (drop_while is_space s))).

(** [s.replace(/\s+/g, " ")]: every run of white space becomes one space;
    [in_run] tells that the previous code unit was white space. *)
Fixpoint collapse_ws (in_run : bool) (s : jsstring) : jsstring :=
  match s with
  | [] => []
  | c :: s' =>
      if is_space c then
        if in_run then collapse_ws true s' else 32%N :: collapse_ws true s'
      else c :: collapse_ws false s'
  end.

(** [s.replace(/\.$/, e)] with [e] the empty string: a final dot is
    removed. *)
Definition strip_final_dot (s : jsstring) : jsstring :=
  match rev s with
  | 46%N :: r => rev r
  | _ => s
  end.

(** JavaScript's [a || b] on strings: the empty string is the only falsy
    one. *)
Definition truthy (s : jsstring) : bool :=
  match s with [] => false | _ :: _ => true end.

Definition Unknown : jsstring := js "Unknown".

(** ** Numbers *)

Definition ToInt32 (z : Z) : Z := ((z + 2 ^ 31) mod 2 ^ 32 - 2 ^ 31)%Z.
Definition ToUint32 (z : Z) : Z := (z mod 2 ^ 32)%Z.

(** [a << n], [a | b], [a & b], [~a] and [a >>> n] of JavaScript. *)
Definition js_shl (a : Z) (n : Z) : Z := ToInt32 (Z.shiftl (ToInt32 a) n).
Definition js_or (a b : Z) : Z := Z.lor (ToInt32 a) (ToInt32 b).
Definition js_and (a b : Z) : Z := Z.land (ToInt32 a) (ToInt32 b).
Definition js_not (a : Z) : Z := Z.lnot (ToInt32 a).
Definition js_shru (a : Z) (n : Z) : Z := Z.shiftr (ToUint32 a) n.

(** The double nearest to the integer [n], ties to even: integers below
    [2^53] are doubles, larger ones keep 53 significant bits. *)
Definition round_double (n : Z) : Z :=
  let a := Z.abs n in
  if (a <? 2 ^ 53)%Z then n
  else
    let k := (Z.log2 a - 52)%Z in
    let q := Z.shiftr a k in
    let r := (a - Z.shiftl q k)%Z in
    let half := Z.shiftl 1 (k - 1) in
    let q' := if (half <? r)%Z || ((r =? half)%Z && Z.odd q) then (q + 1)%Z else q in
    (Z.sgn n * Z.shiftl q' k)%Z.

(** The value of a code unit as a digit of radix [radix]. *)
Definition digit_value (radix : Z) (c : N) : option Z :=
  let v :=
    if cu_in 48 57 c then Some (Z.of_N c - 48)%Z
    else if cu_in 97 122 c then Some (Z.of_N c - 87)%Z
    else if cu_in 65 90 c then Some (Z.of_N c - 55)%Z
    else None in
  match v with
  | Some d => if (d <? radix)%Z then Some d else None
  | None => None
  end.

(** The leading digits of [s]: their number and their value. *)
Fixpoint digits_value (radix : Z) (acc : Z) (n : nat) (s : jsstring) : nat * Z :=
  match s with
  | [] => (n, acc)
  | c :: s' =>
      match digit_value radix c with
      | Some d => digits_value radix (acc * radix + d)%Z (S n) s'
      | None => (n, acc)
      end
  end.

(** [parseInt(s)] with no radix: leading white space, a sign, a [0x]
    prefix, then digits up to the first code unit that is none; [None]
    is NaN.  A value of [2^1024] or more is Infinity in JavaScript; the
    scanner only takes [ToInt32] of the result, which is 0 for Infinity
    as for every double from [2^84] on. *)
Definition parseInt (s : jsstring) : option Z :=
  let s1 := drop_while is_space s in
  let '(sign, s2) :=
    match s1 with
    | 45%N :: t => ((-1)%Z, t)
    | 43%N :: t => (1%Z, t)
    | _ => (1%Z, s1)
    end in
  let '(radix, s3) :=
    match s2 with
    | 48%N :: 120%N :: t => (16%Z, t)
    | 48%N :: 88%N :: t => (16%Z, t)
    | _ => (10%Z, s2)
    end in
  match digits_value radix 0 0 s3 with
  | (O, _) => None
  | (_, v) => Some (round_double (sign * v))
  end.

(** [ToInt32] of a Number that may be NaN. *)
Definition int32_of_number (x : option Z) : Z :=
  match x with Some z => ToInt32 z | None => 0%Z end.

(** [ip.split(".").reduce((acc, octet) => (acc << 8) | parseInt(octet), 0)] *)
Definition ipToNumber (ip : jsstring) : Z :=
  fold_left (fun acc octet => Z.lor (js_shl acc 8) (int32_of_number (parseInt octet)))
            (split 46 ip) 0%Z.

(** [String(n)] for an integer [n] that JavaScript prints in full (below
    [10^21] in absolute value); the scanner prints octets. *)
Fixpoint uint_digits (d : Decimal.uint) : jsstring :=
  match d with
  | Decimal.Nil => []
  | Decimal.D0 d => 48%N :: uint_digits d
  | Decimal.D1 d => 49%N :: uint_digits d
  | Decimal.D2 d => 50%N :: uint_digits d
  | Decimal.D3 d => 51%N :: uint_digits d
  | Decimal.D4 d => 52%N :: uint_digits d
  | Decimal.D5 d => 53%N :: uint_digits d
  | Decimal.D6 d => 54%N :: uint_digits d
  | Decimal.D7 d => 55%N :: uint_digits d
  | Decimal.D8 d => 56%N :: uint_digits d
  | Decimal.D9 d => 57%N :: uint_digits d
  end.

Definition number_toString (z : Z) : jsstring :=
  match Z.to_int z with
  | Decimal.Pos d => uint_digits d
  | Decimal.Neg d => 45%N :: uint_digits d
  end.

(** ** The address range generator *)

(** The string yielded for [current]:
    [[(current >>> 24) & 0xff, (current >>> 16) & 0xff,
      (current >>> 8) & 0xff, current & 0xff].join(".")] *)
Definition dotted_quad (current : Z) : jsstring :=
  join (js ".")
    [ number_toString (js_and (js_shru current 24) 255);
      number_toString (js_and (js_shru current 16) 255);
      number_toString (js_and (js_shru current 8) 255);
      number_toString (js_and current 255) ].

(** [for (let current = ...; current < broadcast; current++) yield ...];
    [fuel] bounds the number of rounds. *)
Fixpoint subnet_loop (fuel : nat) (current broadcast : Z) : list jsstring :=
  match fuel with
  | O => []
  | S fuel' =>
      if (current <? broadcast)%Z
      then dotted_quad current :: subnet_loop fuel' (current + 1)%Z broadcast
      else []
  end.

(** [calculateSubnet(ip, netmask)]: the generator's values, in order.  The
    loop makes [broadcast - (network + 1)] rounds when that is positive,
    which is the fuel it gets. *)
Definition calculateSubnet (ip netmask : jsstring) : list jsstring :=
  let ipNum := ipToNumber ip in
  let maskNum := ipToNumber netmask in
  let network := js_and ipNum maskNum in
  let broadcast := js_or network (ToUint32 (js_not maskNum)) in
  subnet_loop (Z.to_nat (broadcast - (network + 1))) (network + 1)%Z broadcast.

(** ** Regular expressions

    The patterns of the scanner are sequences of character classes with
    greedy counted repetition, capture groups and the anchor [^] under
    the [m] flag.  The matcher backtracks as JavaScript's does: it lists
    every way to match, the preferred one first. *)

Inductive item :=
| Bol                                            (* ^ under the m flag *)
| Rep (p : N -> bool) (lo : nat) (hi : option nat)  (* class{lo,hi}, greedy *)
| Open (k : nat)                                 (* ( of group k *)
| Close (k : nat).                               (* ) of group k *)

Abbreviation regex := (list item) (only parsing).

(** What a match has seen so far: the code unit before the current
    position, the groups that are open with what they hold (reversed) and
    the groups that are closed. *)
Record mstate := {
  ms_prev : option N;
  ms_open : list (nat * jsstring);
  ms_caps : list (nat * jsstring)
}.

Definition ms_init (prev : option N) : mstate :=
  {| ms_prev := prev; ms_open := []; ms_caps := [] |}.

Definition feed (c : N) (st : mstate) : mstate :=
  {| ms_prev := Some c;
     ms_open := List.map (fun g => (fst g, c :: snd g)) (ms_open st);
     ms_caps := ms_caps st |}.

Definition open_group (k : nat) (st : mstate) : mstate :=
  {| ms_prev := ms_prev st;
     ms_open := (k, []) :: ms_open st;
     ms_caps := ms_caps st |}.

Definition close_group (k : nat) (st : mstate) : mstate :=
  match ms_open st with
  | (k', acc) :: rest =>
      {| ms_prev := ms_prev st; ms_open := rest;
         ms_caps := (k', rev acc) :: ms_caps st |}
  | [] => st
  end.

Definition can_take (hi : option nat) : bool :=
  match hi with Some O => false | _ => true end.

Definition at_bol (st : mstate) : bool :=
  match ms_prev st with
  | None => true
  | Some c => is_line_terminator c
  end.

(** Greedy repetition: longer runs come first. *)
Fixpoint m_rep (p : N -> bool) (lo : nat) (hi : option nat)
         (st : mstate) (s : jsstring) : list (mstate * jsstring) :=
  let here := match lo with O => [(st, s)] | S _ => [] end in
  match s with
  | c :: s' =>
      if p c && can_take hi
      then m_rep p (Nat.pred lo) (option_map Nat.pred hi) (feed c st) s' ++ here
      else here
  | [] => here
  end.

Definition m_item (i : item) (st : mstate) (s : jsstring) : list (mstate * jsstring) :=
  match i with
  | Bol => if at_bol st then [(st, s)] else []
  | Rep p lo hi => m_rep p lo hi st s
  | Open k => [(open_group k st, s)]
  | Close k => [(close_group k st, s)]
  end.

Fixpoint m_items (re : regex) (st : mstate) (s : jsstring) : list (mstate * jsstring) :=
  match re with
  | [] => [(st, s)]
  | i :: re' => flat_map (fun r => m_items re' (fst r) (snd r)) (m_item i st s)
  end.

(** A position of the text: the code unit before it and the text from it
    on.  This is what [lastIndex] stands for. *)
Definition position : Type := option N * jsstring.

Definition start_of (text : jsstring) : position := (None, text).

(** The first position from [pos] on where [re] matches: the captures and
    the position after the match. *)
Fixpoint search (re : regex) (prev : option N) (s : jsstring)
  : option (list (nat * jsstring) * position) :=
  match m_items re (ms_init prev) s with
  | (st, rest) :: _ => Some (ms_caps st, (ms_prev st, rest))
  | [] =>
      match s with
      | [] => None
      | c :: s' => search re (Some c) s'
      end
  end.

(** [re.exec(text)] with [re.lastIndex] at [pos]. *)
Definition exec (re : regex) (pos : position) : option (list (nat * jsstring) * position) :=
  search re (fst pos) (snd pos).

(** [match[k]]; a group that took no part reads as the empty string. *)
Fixpoint group (k : nat) (caps : list (nat * jsstring)) : jsstring :=
  match caps with
  | [] => []
  | (k', v) :: caps' => if Nat.eqb k k' then v else group k caps'
  end.

(** The captures of the successive matches of a pattern with the [g]
    flag, each search starting where the match before it ended. *)
Fixpoint exec_all (fuel : nat) (re : regex) (pos : position)
  : list (list (nat * jsstring)) :=
  match fuel with
  | O => []
  | S fuel' =>
      match exec re pos with
      | None => []
      | Some (caps, pos') => caps :: exec_all fuel' re pos'
      end
  end.

(** Single code units and literal text as items. *)
Definition chr (c : N) : item := Rep (fun x => (x =? c)%N) 1 (Some 1).
Definition lit (s : string) : regex := List.map chr (js s).
Definition plus (p : N -> bool) : item := Rep p 1 None.
Definition star (p : N -> bool) : item := Rep p 0 None.

(** [[0-9a-fA-F:-]] and [[0-9a-fA-F:]] *)
Definition is_hex (c : N) : bool := is_digit c || cu_in 97 102 c || cu_in 65 70 c.
Definition is_mac_win (c : N) : bool := is_hex c || (c =? 58)%N || (c =? 45)%N.
Definition is_mac_unix (c : N) : bool := is_hex c || (c =? 58)%N.

(** [\d+\.\d+\.\d+\.\d+] *)
Definition re_ipv4 : regex :=
  [plus is_digit; chr 46; plus is_digit; chr 46; plus is_digit; chr 46; plus is_digit].

(** [/^\s*(\d+\.\d+\.\d+\.\d+)\s+([0-9a-fA-F:-]{17})/gm] *)
Definition winRegex : regex :=
  [Bol; star is_space; Open 1] ++ re_ipv4 ++
  [Close 1; plus is_space; Open 2; Rep is_mac_win 17 (Some 17); Close 2].

(** [/^(\d+\.\d+\.\d+\.\d+)\s+ether\s+([0-9a-fA-F:]{17})/gm] *)
Definition unixRegex : regex :=
  [Bol; Open 1] ++ re_ipv4 ++
  [Close 1; plus is_space] ++ lit "ether" ++
  [plus is_space; Open 2; Rep is_mac_unix 17 (Some 17); Close 2].

(** ** The neighbour-cache parser *)

(** A [Map<string, string>]: the entries in insertion order; [set] on a
    key that is present replaces its value where it stands. *)
Abbreviation arpmap := (list (jsstring * jsstring)) (only parsing).

Fixpoint map_set (k v : jsstring) (m : arpmap) : arpmap :=
  match m with
  | [] => [(k, v)]
  | (k', v') :: m' =>
      if decide (k = k') then (k, v) :: m' else (k', v') :: map_set k v m'
  end.

Fixpoint map_get (k : jsstring) (m : arpmap) : option jsstring :=
  match m with
  | [] => None
  | (k', v') :: m' => if decide (k = k') then Some v' else map_get k m'
  end.

Definition zero_mac : jsstring := js "00:00:00:00:00:00".

(** [while ((match = re.exec(output)) !== null) { ... arpMap.set(ip, mac) }]
    where [norm] is what the loop does to [match[2]]; [pos] is the
    pattern's [lastIndex].  Every match is at least one code unit long, so
    the loop makes at most as many rounds as the text is long. *)
Fixpoint arp_loop (fuel : nat) (re : regex) (norm : jsstring -> jsstring)
         (pos : position) (arpMap : arpmap) : arpmap :=
  match fuel with
  | O => arpMap
  | S fuel' =>
      match exec re pos with
      | None => arpMap
      | Some (caps, pos') =>
          let ip := group 1 caps in
          let mac := norm (group 2 caps) in
          if decide (mac = zero_mac)
          then arp_loop fuel' re norm pos' arpMap
          else arp_loop fuel' re norm pos' (map_set ip mac arpMap)
      end
  end.

Definition norm_win (m : jsstring) : jsstring := toUpperCase (replace_cu 45 58 m).
Definition norm_unix (m : jsstring) : jsstring := toUpperCase m.

Definition parseArpOutput_fuel (fuel : nat) (output : jsstring) : arpmap :=
  let arpMap := arp_loop fuel winRegex norm_win (start_of output) [] in
  arp_loop fuel unixRegex norm_unix (start_of output) arpMap.

(** [parseArpOutput(output)] *)
Definition parseArpOutput (output : jsstring) : arpmap :=
  parseArpOutput_fuel (S (length output)) output.

(** ** The subnet membership filter *)

(** [filterSubnetDevices(arpCache, networkIp, netmask)] *)
Definition in_subnet (network mask : Z) (ip : jsstring) : bool :=
  let ipNum := ipToNumber ip in
  (js_and ipNum mask =? js_and network mask)%Z.

Definition filterSubnetDevices (arpCache : arpmap) (networkIp netmask : jsstring)
  : list (jsstring * jsstring) :=
  let network := ipToNumber networkIp in
  let mask := ipToNumber netmask in
  List.map (fun e => (fst e, snd e))
           (List.filter (fun e => in_subnet network mask (fst e)) arpCache).

(** ** What the scanner asks of the world *)

Inductive promise := Fulfilled | Rejected.

(** What [new Deno.Command(...).output()] settles to: the command could
    not be started, or it ran and left an exit code and its standard
    output (as [TextDecoder] reads it). *)
Inductive CommandOutput :=
| SpawnError
| Exited (code : Z) (stdout : jsstring).

(** What [fetch] settles to: a rejection, or a response with its [ok]
    flag and its body ([None] when reading the body fails). *)
Inductive FetchResult :=
| FetchError
| Response (ok : bool) (text : option jsstring).

Inductive Family := IPv4 | IPv6.

Record NetworkInterface := {
  if_name : jsstring;
  if_address : jsstring;
  if_netmask : jsstring;
  if_family : Family
}.

Record OuiEntry := {
  prefix : jsstring;
  organization_name : jsstring
}.

(** The answers of the world while the scanner works on one interface. *)
Record Pass := {
  ping : jsstring -> CommandOutput;
  arp : CommandOutput;
  dhclient_leases : option jsstring;            (* None: the read fails *)
  fetch_description : jsstring -> FetchResult;
  avahi : jsstring -> CommandOutput;
  nbtstat : jsstring -> CommandOutput;
  resolveDns : jsstring -> option (list jsstring)  (* None: the lookup fails *)
}.

Record World := {
  networkInterfaces : option (list NetworkInterface);  (* None: it throws *)
  ouis_json : option (list OuiEntry);        (* None: unreadable or malformed *)
  pass : nat -> Pass                         (* by position of the interface *)
}.

Inductive Event :=
| ReadOuis
| Ping (target : jsstring)
| AwaitAll (n : nat)
| ArpRead
| ReadLeases (ip : jsstring)
| Fetch (ip : jsstring)
| Avahi (ip : jsstring)
| Nbtstat (ip : jsstring)
| ResolveDns (ip : jsstring).

(** A computation logs what it asks and returns or throws. *)
Inductive completion (A : Type) :=
| Return (a : A)
| Throw.
Arguments Return {A} a.
Arguments Throw {A}.

Definition M (A : Type) : Type := list Event * completion A.

Definition ret {A} (a : A) : M A := ([], Return a).
Definition throw {A} : M A := ([], Throw).
Definition emit (e : Event) : M unit := ([e], Return tt).

Definition bind {A B} (m : M A) (f : A -> M B) : M B :=
  match m with
  | (t, Return a) => let r := f a in (t ++ fst r, snd r)
  | (t, Throw) => (t, Throw)
  end.

(** [try { m } catch { h }] *)
Definition try_catch {A} (m : M A) (h : M A) : M A :=
  match m with
  | (t, Return a) => (t, Return a)
  | (t, Throw) => (t ++ fst h, snd h)
  end.

Notation "x <- a ;; b" := (bind a (fun x => b))
  (at level 100, a at next level, right associativity).
Notation "a ;;; b" := (bind a (fun _ => b))
  (at level 100, right associativity).

(** [await new Deno.Command(...).output()]: a command that cannot be
    started rejects; the exit code is not looked at. *)
Definition await_output (e : Event) (o : CommandOutput) : M jsstring :=
  emit e ;;;
  match o with
  | SpawnError => throw
  | Exited _ stdout => ret stdout
  end.

(** [a || b] on strings, and with [b] a computation run only if needed. *)
Definition str_or (a b : jsstring) : jsstring := if truthy a then a else b.

Definition or_else (a b : M jsstring) : M jsstring :=
  x <- a ;; if truthy x then ret x else b.

(** ** Name resolution *)

(** [resolveDnsName(ip)]; the name it asks for, the address reversed under
    [in-addr.arpa], is a function of [ip], which stands for it here. *)
Definition resolveDnsName (P : Pass) (ip : jsstring) : M jsstring :=
  try_catch
    (emit (ResolveDns ip) ;;;
     records <- match resolveDns P ip with Some r => ret r | None => throw end ;;
     ret (match records with
          | [] => Unknown
          | r :: _ => str_or (strip_final_dot r) Unknown
          end))
    (ret Unknown).

(** [resolveMdnsName(ip)] *)
Definition resolveMdnsName (P : Pass) (ip : jsstring) : M jsstring :=
  try_catch
    (stdout <- await_output (Avahi ip) (avahi P ip) ;;
     ret (match nth_error (split 9 stdout) 1 with
          | None => Unknown
          | Some x => str_or (trim x) Unknown
          end))
    (ret Unknown).

(** [/<00>\s+UNIQUE\s+([^\s]+)/] *)
Definition netbiosRegex : regex :=
  lit "<00>" ++ [plus is_space] ++ lit "UNIQUE" ++
  [plus is_space; Open 1; plus (fun c => negb (is_space c)); Close 1].

(** [resolveNetbiosName(ip)] *)
Definition resolveNetbiosName (P : Pass) (ip : jsstring) : M jsstring :=
  try_catch
    (output <- await_output (Nbtstat ip) (nbtstat P ip) ;;
     ret (match exec netbiosRegex (start_of output) with
          | None => Unknown
          | Some (caps, _) => str_or (group 1 caps) Unknown
          end))
    (ret Unknown).

(** The pattern text [ip] inside [new RegExp(..., "s")]: a dot matches
    any code unit; the digits stand for themselves (the scanner passes
    addresses made of digits and dots; other code units are taken as
    themselves here). *)
Definition ip_pattern (ip : jsstring) : regex :=
  List.map (fun c => if (c =? 46)%N then Rep (fun _ => true) 1 (Some 1) else chr c) ip.

(** The lease pattern, built with the [s] flag: [lease ], the address,
    [ {], any run without a closing brace, [client-hostname ], and between
    two double quotes (code unit 34) group 1, a run without a double
    quote. *)
Definition leaseRegex (ip : jsstring) : regex :=
  lit "lease " ++ ip_pattern ip ++ lit " {" ++
  [star (fun c => negb (c =? 125)%N)] ++ lit "client-hostname " ++
  [chr 34; Open 1; plus (fun c => negb (c =? 34)%N); Close 1; chr 34].

(** A code unit of a pattern under the [i] flag. *)
Definition chr_i (c : N) : item := Rep (fun x => (upper_cu x =? upper_cu c)%N) 1 (Some 1).

(** [/<friendlyName>([^<]+)<\/friendlyName>/i] *)
Definition friendlyNameRegex : regex :=
  List.map chr_i (js "<friendlyName>") ++
  [Open 1; plus (fun c => negb (c =? 60)%N); Close 1] ++
  List.map chr_i (js "</friendlyName>").

(** [match?.[1]] when it is truthy. *)
Definition first_group (re : regex) (text : jsstring) : option jsstring :=
  match exec re (start_of text) with
  | Some (caps, _) => if truthy (group 1 caps) then Some (group 1 caps) else None
  | None => None
  end.

(** [getDeviceName(ip)]: the lease file, then the UPnP description. *)
Definition getDeviceName (P : Pass) (ip : jsstring) : M jsstring :=
  fromLeases <-
    try_catch
      (emit (ReadLeases ip) ;;;
       dhcpLeases <- match dhclient_leases P with Some t => ret t | None => throw end ;;
       ret (first_group (leaseRegex ip) dhcpLeases))
      (ret None) ;;
  match fromLeases with
  | Some n => ret n
  | None =>
      fromUpnp <-
        try_catch
          (emit (Fetch ip) ;;;
           match fetch_description P ip with
           | FetchError => throw
           | Response false _ => ret None
           | Response true None => throw
           | Response true (Some text) => ret (first_group friendlyNameRegex text)
           end)
          (ret None) ;;
      match fromUpnp with
      | Some n => ret n
      | None => ret Unknown
      end
  end.

(** ** Enrichment *)

Record NetworkDevice := {
  ip : jsstring;
  mac : jsstring;
  interface : jsstring;
  vendor : jsstring;
  name : jsstring
}.

(** [text.match(re)] for a pattern with the [g] flag: group 0 of the
    successive matches. *)
Definition match_all (fuel : nat) (re : regex) (pos : position) : list jsstring :=
  List.map (group 0) (exec_all fuel re pos).

(** [formatMac(mac)]: [mac.match(/.{1,2}/g)?.join(":") || mac] *)
Definition pairsRegex : regex :=
  [Open 0; Rep (fun c => negb (is_line_terminator c)) 1 (Some 2); Close 0].

Definition formatMac (mac : jsstring) : jsstring :=
  match match_all (length mac) pairsRegex (start_of mac) with
  | [] => mac
  | parts => str_or (join (js ":") parts) mac
  end.

(** [this.ouiDatabase?.[oui] || "Unknown"].  The table is a plain object
    used as a map; [oui] is at most 6 code units of upper-case text, and
    no property that objects inherit has such a name, so the lookup is a
    lookup in the table. *)
Definition vendor_of (ouiDatabase : option (gmap (list N) (list N))) (oui : jsstring) : jsstring :=
  match ouiDatabase with
  | None => Unknown
  | Some db => match db !! oui with
               | Some v => str_or v Unknown
               | None => Unknown
               end
  end.

(** One round of the loop of [enrichDevices]. *)
Definition enrichDevice (ouiDatabase : option (gmap (list N) (list N))) (P : Pass)
           (interfaceName : jsstring) (d : jsstring * jsstring) : M NetworkDevice :=
  let '(ip, mac) := d in
  name <- or_else (getDeviceName P ip)
            (or_else (resolveMdnsName P ip)
               (or_else (resolveNetbiosName P ip) (resolveDnsName P ip))) ;;
  let cleanMac := toUpperCase (remove_cu 58 mac) in
  let oui := slice0 6 cleanMac in
  let vendor := vendor_of ouiDatabase oui in
  ret {| ip := ip;
         mac := formatMac cleanMac;
         interface := interfaceName;
         vendor := vendor;
         name := trim (collapse_ws false name) |}.

(** [enrichDevices(devices, interfaceName)] *)
Fixpoint enrichDevices (ouiDatabase : option (gmap (list N) (list N))) (P : Pass)
         (devices : list (jsstring * jsstring)) (interfaceName : jsstring)
  : M (list NetworkDevice) :=
  match devices with
  | [] => ret []
  | d :: devices' =>
      r <- enrichDevice ouiDatabase P interfaceName d ;;
      rs <- enrichDevices ouiDatabase P devices' interfaceName ;;
      ret (r :: rs)
  end.

(** ** The prober *)

Definition BATCH_SIZE : nat := 50.

(** [p.then(() => {})] and [p.catch(() => {})] *)
Definition then_ignore (p : promise) : promise := p.
Definition catch_ignore (p : promise) : promise := Fulfilled.

Definition is_fulfilled (p : promise) : bool :=
  match p with Fulfilled => true | Rejected => false end.

(** [await Promise.all(batch)]: returns once every promise of the batch
    is fulfilled, throws if one is rejected. *)
Definition await_all (batch : list promise) : M unit :=
  emit (AwaitAll (length batch)) ;;;
  if forallb is_fulfilled batch then ret tt else throw.

(** [new Deno.Command(...).output()] as an expression whose value is not
    awaited on the spot: the command is started at the call, and the call
    throws when the command cannot be started; its value is the promise
    of the output, which is fulfilled once the command has ended, whatever
    its exit code. *)
Definition command_output (e : Event) (o : CommandOutput) : M promise :=
  emit e ;;;
  match o with
  | SpawnError => throw
  | Exited _ _ => ret Fulfilled
  end.

(** The loop of [pingSubnet] over the addresses that are left, with the
    current [batch]; it returns the batch that is left at the end.  The
    call of [output] stands in no [try], and [then] and [catch] are only
    attached to its value: when [ping] cannot be started the call throws
    out of the loop. *)
Fixpoint ping_loop (P : Pass) (ips : list jsstring) (batch : list promise)
  : M (list promise) :=
  match ips with
  | [] => ret batch
  | targetIp :: ips' =>
      output <- command_output (Ping targetIp) (ping P targetIp) ;;
      let batch := batch ++ [catch_ignore (then_ignore output)] in
      if (BATCH_SIZE <=? length batch)%nat
      then await_all batch ;;; ping_loop P ips' []
      else ping_loop P ips' batch
  end.

(** [pingSubnet(ip, netmask, timeout)]; the timeout only goes into the
    command line of [ping].  It rejects when the loop throws. *)
Definition pingSubnet (P : Pass) (ip netmask : jsstring) : M unit :=
  let ips := calculateSubnet ip netmask in
  batch <- ping_loop P ips [] ;;
  if (0 <? length batch)%nat then await_all batch else ret tt.

(** ** The neighbour-cache reader *)

(** [getArpCache()] *)
Definition getArpCache (P : Pass) : M arpmap :=
  try_catch
    (stdout <- await_output ArpRead (arp P) ;;
     ret (parseArpOutput stdout))
    (ret []).

(** ** The vendor table *)

(** [loadOuiDatabase()]: later entries replace earlier ones with the same
    prefix; a file that cannot be read or parsed gives the empty table. *)
Definition loadOuiDatabase (W : World) : M (gmap (list N) (list N)) :=
  try_catch
    (emit ReadOuis ;;;
     ouiEntries <- match ouis_json W with Some l => ret l | None => throw end ;;
     ret (fold_left (fun acc entry => <[toUpperCase (prefix entry) := organization_name entry]> acc)
                    ouiEntries ∅))
    (ret ∅).

(** ** The orchestrator *)

Record ScanOptions := {
  interfaceFilter : option jsstring;
  pingTimeout : option Z
}.

(** [options.interfaceFilter && iface.name !== options.interfaceFilter] *)
Definition skipped_by_filter (options : ScanOptions) (iface : NetworkInterface) : bool :=
  match interfaceFilter options with
  | None => false
  | Some f => truthy f && negb (bool_decide (if_name iface = f))
  end.

Definition is_IPv4 (iface : NetworkInterface) : bool :=
  match if_family iface with IPv4 => true | IPv6 => false end.

(** The body of the loop of [scan] for the interface at position [n]:
    what it pushes on [results]. *)
Definition scan_interface (W : World) (options : ScanOptions)
           (ouiDatabase : option (gmap (list N) (list N)))
           (n : nat) (iface : NetworkInterface) : M (list NetworkDevice) :=
  if skipped_by_filter options iface then ret []
  else if negb (is_IPv4 iface) then ret []
  else
    pingSubnet (pass W n) (if_address iface) (if_netmask iface) ;;;
    arpCache <- getArpCache (pass W n) ;;
    if (length arpCache =? 0)%nat then ret []
    else
      let subnetDevices :=
        filterSubnetDevices arpCache (if_address iface) (if_netmask iface) in
      if (length subnetDevices =? 0)%nat then ret []
      else enrichDevices ouiDatabase (pass W n) subnetDevices (if_name iface).

(** [for (const iface of interfaces) { ...; results.push(...enriched) }] *)
Fixpoint scan_loop (W : World) (options : ScanOptions)
         (ouiDatabase : option (gmap (list N) (list N)))
         (n : nat) (interfaces : list NetworkInterface)
         (results : list NetworkDevice) : M (list NetworkDevice) :=
  match interfaces with
  | [] => ret results
  | iface :: interfaces' =>
      enriched <- scan_interface W options ouiDatabase n iface ;;
      scan_loop W options ouiDatabase (S n) interfaces' (results ++ enriched)
  end.

(** [scan(options)].  The static [ouiDatabase] is state: [scan] takes its
    value before the call ([None] is [null]) and returns its value after
    the call next to the computation.  The table is loaded when the static
    is [null]; an empty table is an object and is kept. *)
Definition scan (W : World) (options : ScanOptions)
           (ouiDatabase : option (gmap (list N) (list N)))
  : option (gmap (list N) (list N)) * M (list NetworkDevice) :=
  let load :=
    match ouiDatabase with
    | Some db => ret db
    | None => loadOuiDatabase W
    end in
  (match snd load with Return db => Some db | Throw => ouiDatabase end,
   db <- load ;;
   interfaces <- match networkInterfaces W with Some l => ret l | None => throw end ;;
   scan_loop W options (Some db) 0 interfaces []).

(** ** [main.ts] *)

(** [s.padEnd(targetLength)]: spaces are added at the end of a string
    that is shorter; a longer one is left as it is. *)
Definition padEnd (targetLength : nat) (s : jsstring) : jsstring :=
  s ++ repeat 32%N (targetLength - length s).

(** The line printed for a device. *)
Definition device_line (device : NetworkDevice) : jsstring :=
  js "[" ++ padEnd 9 (interface device) ++ js "] "
  ++ padEnd 15 (ip device) ++ js " - "
  ++ padEnd 17 (mac device) ++ js " "
  ++ js "(" ++ padEnd 30 (str_or (vendor device) Unknown) ++ js ") "
  ++ js "[" ++ padEnd 25 (str_or (name device) Unknown) ++ js "]".

Definition main_options : ScanOptions :=
  {| interfaceFilter := Some (js "Ethernet"); pingTimeout := Some 100%Z |}.

(** What is printed once the scan has returned [devices]. *)
Definition report (devices : list NetworkDevice) : list jsstring :=
  if (length devices =? 0)%nat
  then [js "No devices found. Try running as administrator and ensure your firewall allows ICMP/ARP."]
  else (js "Found " ++ number_toString (Z.of_nat (length devices)) ++ js " devices:")
       :: List.map device_line devices.

(** The module: the lines it writes to the console and how it ends.  It
    runs in a fresh process, where the static vendor table is [null]. *)
Definition main (W : World) : list jsstring * completion unit :=
  let starting := js "Starting ARP-based network scan..." in
  match snd (snd (scan W main_options None)) with
  | Return devices => (starting :: report devices, Return tt)
  | Throw => ([starting], Throw)
  end.

(** * Vocabulary of the statements

    What the theorems below speak about: dotted quads and their numbers,
    what the parser writes into its map, what one interface contributes
    to a scan, and how a log of the prober is read. *)

(** ** Dotted quads *)

Definition octet (a : Z) : Prop := (0 <= a <= 255)%Z.

(** The address [a.b.c.d] as text and as a 32-bit number. *)
Definition ipv4 (a b c d : Z) : jsstring :=
  join (js ".") [number_toString a; number_toString b; number_toString c; number_toString d].

Definition u32 (a b c d : Z) : Z := (a * 2 ^ 24 + b * 2 ^ 16 + c * 2 ^ 8 + d)%Z.

(** The dotted quad of a number below [2^32]. *)
Definition quad (n : Z) : jsstring :=
  ipv4 (n / 2 ^ 24) (n / 2 ^ 16 mod 256) (n / 2 ^ 8 mod 256) (n mod 256).

Fixpoint zseq (start : Z) (len : nat) : list Z :=
  match len with
  | O => []
  | S len' => start :: zseq (start + 1)%Z len'
  end.

(** [~m] on 32 bits, and the network and broadcast numbers of an address
    and a mask, all unsigned. *)
Definition complement32 (m : Z) : Z := (2 ^ 32 - 1 - m)%Z.
Definition network_of (address mask : Z) : Z := Z.land address mask.
Definition broadcast_of (address mask : Z) : Z :=
  Z.lor (network_of address mask) (complement32 mask).

(** The text of an octet has no dot and reads back as the octet. *)
Definition octet_ok (a : Z) : bool :=
  forallb (fun c => negb (c =? 46)%N) (number_toString a)
  && match parseInt (number_toString a) with
     | Some v => (v =? a)%Z
     | None => false
     end.

(** ** Matches and map writes *)

(** A state after the code units [pre] were taken. *)
Definition feeds (pre : jsstring) (st : mstate) : mstate :=
  fold_left (fun st c => feed c st) pre st.

(** The least number of code units a match of [re] takes. *)
Definition min_len (re : regex) : nat :=
  fold_right (fun i n => match i with Rep _ lo _ => lo + n | _ => n end) 0 re.

(** The code units of a normalized hardware address. *)
Definition is_mac_upper (c : N) : bool := is_digit c || cu_in 65 70 c || (c =? 58)%N.
Definition is_hex_upper (c : N) : bool := is_digit c || cu_in 65 70 c.

Definition mac_text (m : jsstring) : Prop :=
  length m = 17 /\ forallb is_mac_upper m = true.

(** Six pairs of uppercase hexadecimal digits with a colon between them. *)
Definition canonical_mac (m : jsstring) : bool :=
  match m with
  | [a1; a2; s1; a3; a4; s2; a5; a6; s3; a7; a8; s4; a9; a10; s5; a11; a12] =>
      forallb is_hex_upper [a1; a2; a3; a4; a5; a6; a7; a8; a9; a10; a11; a12]
      && forallb (fun s => (s =? 58)%N) [s1; s2; s3; s4; s5]
  | _ => false
  end.

(** The pair a match stands for, and the pairs that the two loops of the
    parser write into the map, in the order they write them. *)
Definition write_entry (norm : jsstring -> jsstring) (caps : list (nat * jsstring))
  : jsstring * jsstring := (group 1 caps, norm (group 2 caps)).

Definition entries_of (re : regex) (norm : jsstring -> jsstring) (output : jsstring)
  : list (jsstring * jsstring) :=
  List.filter (fun e => negb (bool_decide (snd e = zero_mac)))
    (List.map (write_entry norm) (exec_all (S (length output)) re (start_of output))).

Definition arp_writes (output : jsstring) : list (jsstring * jsstring) :=
  entries_of winRegex norm_win output ++ entries_of unixRegex norm_unix output.

Definition put (m : arpmap) (e : jsstring * jsstring) : arpmap :=
  map_set (fst e) (snd e) m.

(** The value of the last write to key [k]. *)
Fixpoint last_write (k : jsstring) (l : list (jsstring * jsstring)) : option jsstring :=
  match l with
  | [] => None
  | (k', v) :: l' =>
      match last_write k l' with
      | Some v' => Some v'
      | None => if decide (k = k') then Some v else None
      end
  end.

(** ** Computations *)

Definition returns {A} (m : M A) (a : A) : Prop := exists t, m = (t, Return a).

Definition value_of {A} (dflt : A) (m : M A) : A :=
  match snd m with Return a => a | Throw => dflt end.

(** ** What an interface contributes *)

Definition device_name (P : Pass) (ip : jsstring) : jsstring :=
  value_of [] (getDeviceName P ip).

Definition arp_entries (P : Pass) : arpmap :=
  match arp P with
  | SpawnError => []
  | Exited _ stdout => parseArpOutput stdout
  end.

Definition device_of (db : option (gmap (list N) (list N))) (P : Pass)
           (interfaceName : jsstring) (d : jsstring * jsstring) : NetworkDevice :=
  let cleanMac := toUpperCase (remove_cu 58 (snd d)) in
  {| ip := fst d;
     mac := formatMac cleanMac;
     interface := interfaceName;
     vendor := vendor_of db (slice0 6 cleanMac);
     name := trim (collapse_ws false (device_name P (fst d))) |}.

Definition interface_devices (W : World) (options : ScanOptions)
           (db : option (gmap (list N) (list N))) (n : nat) (iface : NetworkInterface)
  : list NetworkDevice :=
  if skipped_by_filter options iface || negb (is_IPv4 iface) then []
  else List.map (device_of db (pass W n) (if_name iface))
         (filterSubnetDevices (arp_entries (pass W n)) (if_address iface) (if_netmask iface)).

(** The contributions of the interfaces [ifs], the first of which is at
    position [n], in the order of enumeration. *)
Fixpoint devices_from (W : World) (options : ScanOptions)
         (db : option (gmap (list N) (list N))) (n : nat) (ifs : list NetworkInterface)
  : list NetworkDevice :=
  match ifs with
  | [] => []
  | iface :: ifs' =>
      interface_devices W options db n iface ++ devices_from W options db (S n) ifs'
  end.

(** The vendor table a scan works with. *)
Definition table_of (W : World) (ouiDatabase : option (gmap (list N) (list N)))
  : gmap (list N) (list N) :=
  match ouiDatabase with
  | Some db => db
  | None => value_of ∅ (loadOuiDatabase W)
  end.

(** What holds of every device of a scan over the interfaces [ifs]: it
    comes from an entry [(ip, m)] of the neighbour map read for one of
    them. *)
Definition device_invariant (W : World) (ifs : list NetworkInterface) (d : NetworkDevice)
  : Prop :=
  exists n iface m,
    nth_error ifs n = Some iface
    /\ interface d = if_name iface
    /\ Z.land (ipToNumber (ip d)) (ipToNumber (if_netmask iface))
       = Z.land (ipToNumber (if_address iface)) (ipToNumber (if_netmask iface))
    /\ In (ip d, m) (arp_entries (pass W n))
    /\ length m = 17
    /\ forallb is_mac_upper m = true
    /\ m <> zero_mac
    /\ mac d = formatMac (toUpperCase (remove_cu 58 m))
    /\ (canonical_mac m = true -> mac d = m).

(** ** Probes that start *)

(** The command could be started. *)
Definition started (o : CommandOutput) : bool :=
  match o with SpawnError => false | Exited _ _ => true end.

(** [ping] can be started for every address of [ips]. *)
Definition probes_start (P : Pass) (ips : list jsstring) : bool :=
  forallb (fun target => started (ping P target)) ips.

(** The addresses of [ips] that the prober gets to: all of them up to the
    first for which [ping] cannot be started, that one included. *)
Fixpoint probed (P : Pass) (ips : list jsstring) : list jsstring :=
  match ips with
  | [] => []
  | target :: ips' => target :: (if started (ping P target) then probed P ips' else [])
  end.

(** The round of [scan] for the interface at position [n] gets past its
    probes: the interface is skipped, or every probe of its subnet
    starts. *)
Definition round_completes (W : World) (options : ScanOptions)
           (n : nat) (iface : NetworkInterface) : bool :=
  skipped_by_filter options iface || negb (is_IPv4 iface)
  || probes_start (pass W n) (calculateSubnet (if_address iface) (if_netmask iface)).

(** So do the rounds for the interfaces [ifs], the first of which is at
    position [n]. *)
Fixpoint scan_completes (W : World) (options : ScanOptions)
         (n : nat) (ifs : list NetworkInterface) : bool :=
  match ifs with
  | [] => true
  | iface :: ifs' => round_completes W options n iface && scan_completes W options (S n) ifs'
  end.

(** ** Logs of the prober *)

Definition is_nil {A} (l : list A) : bool := match l with [] => true | _ => false end.

(** Reads a log with [outstanding] probes started and not yet awaited,
    and gives the number outstanding at its end.  A probe may start only
    while fewer than [bound] are outstanding; an [AwaitAll n] must await
    exactly the outstanding probes, at least one, and comes when [bound]
    of them are outstanding or at the very end; after it none is
    outstanding.  [None] if the log breaks one of these rules. *)
Fixpoint windows (bound : nat) (outstanding : nat) (log : list Event) : option nat :=
  match log with
  | [] => Some outstanding
  | Ping _ :: log' =>
      if S outstanding <=? bound then windows bound (S outstanding) log' else None
  | AwaitAll n :: log' =>
      if (n =? outstanding) && (0 <? n) && ((n =? bound) || is_nil log')
      then windows bound 0 log'
      else None
  | _ :: _ => None
  end.

(** The addresses probed, in order. *)
Definition targets (log : list Event) : list jsstring :=
  flat_map (fun e => match e with Ping t => [t] | _ => [] end) log.

(** ** Worlds of the examples *)

(** A world where only the reverse DNS answers, [ping] cannot be started,
    and [arp -a] ends as [o]. *)
Definition pass_with_arp (o : CommandOutput) : Pass := {|
  ping := fun _ => SpawnError;
  arp := o;
  dhclient_leases := None;
  fetch_description := fun _ => FetchError;
  avahi := fun _ => SpawnError;
  nbtstat := fun _ => SpawnError;
  resolveDns := fun _ => Some [js "host.example.com."]
|}.

Definition eth0 : NetworkInterface := {|
  if_name := js "eth0";
  if_address := js "192.168.1.1";
  if_netmask := js "255.255.255.252";
  if_family := IPv4
|}.

Definition world_with_arp (o : CommandOutput) : World := {|
  networkInterfaces := Some [eth0];
  ouis_json := Some [ {| prefix := js "aabbcc"; organization_name := js "Acme Corp" |} ];
  pass := fun _ => pass_with_arp o
|}.

(** The same world with a [ping] that starts and ends with exit code 1
    (no answer). *)
Definition pass_pinging (o : CommandOutput) : Pass := {|
  ping := fun _ => Exited 1 [];
  arp := o;
  dhclient_leases := None;
  fetch_description := fun _ => FetchError;
  avahi := fun _ => SpawnError;
  nbtstat := fun _ => SpawnError;
  resolveDns := fun _ => Some [js "host.example.com."]
|}.

Definition world_pinging (o : CommandOutput) : World := {|
  networkInterfaces := Some [eth0];
  ouis_json := Some [ {| prefix := js "aabbcc"; organization_name := js "Acme Corp" |} ];
  pass := fun _ => pass_pinging o
|}.

(** [eth0] on a /24, a neighbour table with one entry of the subnet and
    one zero address, and a lease file that knows the neighbour. *)
Definition eth0_slash24 : NetworkInterface := {|
  if_name := js "eth0";
  if_address := js "192.168.1.1";
  if_netmask := js "255.255.255.0";
  if_family := IPv4
|}.

Definition lease_file_example : jsstring :=
  js "lease 192.168.1.10 { renew 2 2025/01/07; option client-hostname "
  ++ [34%N] ++ js "printer" ++ [34%N] ++ js "; }".

Definition pass_slash24 : Pass := {|
  ping := fun _ => Exited 1 [];
  arp := Exited 0 (join [10%N] [ js "  192.168.1.10          aa-bb-cc-dd-ee-ff     dynamic";
                                 js "  192.168.1.11          00-00-00-00-00-00     dynamic" ]);
  dhclient_leases := Some lease_file_example;
  fetch_description := fun _ => FetchError;
  avahi := fun _ => SpawnError;
  nbtstat := fun _ => SpawnError;
  resolveDns := fun _ => None
|}.

Definition world_slash24 : World := {|
  networkInterfaces := Some [eth0_slash24];
  ouis_json := None;
  pass := fun _ => pass_slash24
|}.

Definition no_options : ScanOptions := {| interfaceFilter := None; pingTimeout := None |}.
Definition filter_empty : ScanOptions := {| interfaceFilter := Some []; pingTimeout := None |}.
Definition filter_eth0 : ScanOptions :=
  {| interfaceFilter := Some (js "eth0"); pingTimeout := None |}.

(** Lines of text, joined by line feeds. *)
Definition lines (l : list jsstring) : jsstring := join [10%N] l.

Definition arp_table_example : jsstring :=
  lines [ js "Interface: 192.168.1.1 --- 0x5";
          js "  Internet Address      Physical Address      Type";
          js "192.168.1.10   aa-bb-cc-dd-ee-ff";
          js "  192.168.1.11          00-00-00-00-00-00     dynamic";
          js "192.168.1.20 ether a1:b2:c3:d4:e5:f6";
          js "  224.0.0.22            01-00-5e-00-00-16     static" ].

Definition both_patterns_example : jsstring :=
  lines [ js "1.2.3.4 ether 11:22:33:44:55:66";
          js "1.2.3.4 aa-bb-cc-dd-ee-ff" ].

(** ** Prefixes, pieces of a match, names, the vendor file, logs *)

(** The netmask number of a prefix of [p] bits. *)
Definition prefix_mask (p : Z) : Z := (2 ^ 32 - 2 ^ (32 - p))%Z.

(** What one item does to the state of a match when it takes [chunk]. *)
Definition act (i : item) (chunk : jsstring) (st : mstate) : mstate :=
  match i with
  | Bol => st
  | Rep _ _ _ => feeds chunk st
  | Open k => open_group k st
  | Close k => close_group k st
  end.

(** The state after the items of [re] took the pieces [chunks] in turn. *)
Fixpoint replay (re : regex) (chunks : list jsstring) (st : mstate) : mstate :=
  match re, chunks with
  | i :: re', chunk :: chunks' => replay re' chunks' (act i chunk st)
  | _, _ => st
  end.

(** What an item may take. *)
Definition takes (i : item) (chunk : jsstring) : Prop :=
  match i with
  | Rep p lo hi =>
      forallb p chunk = true /\ lo <= length chunk
      /\ (forall h, hi = Some h -> length chunk <= h)
  | _ => chunk = []
  end.

(** Four non-empty runs of decimal digits with a dot between them. *)
Definition is_dotted_decimal (s : jsstring) : bool :=
  match split 46 s with
  | [a; b; c; d] => forallb (fun x => truthy x && forallb is_digit x) [a; b; c; d]
  | _ => false
  end.

(** Words with one space (U+0020) between them: no other white space, none
    at the end, and none at the start when [after_space] is set. *)
Fixpoint words (after_space : bool) (s : jsstring) : bool :=
  match s with
  | [] => negb after_space
  | c :: s' =>
      if is_space c then (c =? 32)%N && negb after_space && words true s'
      else words false s'
  end.

(** A display name in normal form: empty, or words with single spaces. *)
Definition name_normal (s : jsstring) : bool := is_nil s || words true s.

(** [s] without the code units at its end that satisfy [p]. *)
Fixpoint drop_end (p : N -> bool) (s : jsstring) : jsstring :=
  match s with
  | [] => []
  | c :: s' =>
      match drop_end p s' with
      | [] => if p c then [] else [c]
      | r => c :: r
      end
  end.

(** The organization of the last entry of the vendor file whose prefix,
    in upper case, is [k]. *)
Fixpoint last_organization (k : jsstring) (entries : list OuiEntry) : option jsstring :=
  match entries with
  | [] => None
  | e :: entries' =>
      match last_organization k entries' with
      | Some v => Some v
      | None => if decide (toUpperCase (prefix e) = k) then Some (organization_name e) else None
      end
  end.

(** What a scan may ask while it works on an interface. *)
Definition asks_of_pass (e : Event) : bool :=
  match e with
  | Ping _ | AwaitAll _ | ArpRead | ReadLeases _ | Fetch _ => true
  | ReadOuis | Avahi _ | Nbtstat _ | ResolveDns _ => false
  end.

(** [s], two code units at a time. *)
Fixpoint pairs (s : jsstring) : list jsstring :=
  match s with
  | a :: b :: t => [a; b] :: pairs t
  | [a] => [[a]]
  | [] => []
  end.

Definition no_line_terminator (s : jsstring) : bool :=
  forallb (fun c => negb (is_line_terminator c)) s.

(** The sizes of the batches awaited, in order. *)
Definition awaits (log : list Event) : list nat :=
  flat_map (fun e => match e with AwaitAll n => [n] | _ => [] end) log.

(** The world of [world_slash24] with the interface named as [main.ts]
    expects it. *)
Definition ethernet_slash24 : NetworkInterface := {|
  if_name := js "Ethernet";
  if_address := js "192.168.1.1";
  if_netmask := js "255.255.255.0";
  if_family := IPv4
|}.

Definition world_ethernet : World := {|
  networkInterfaces := Some [ethernet_slash24];
  ouis_json := None;
  pass := fun _ => pass_slash24
|}.

(** ** Lines *)

(** The two lines of the claim on the parser. *)
Definition win_line : jsstring := js "192.168.1.10   aa-bb-cc-dd-ee-ff".
Definition unix_line : jsstring := js "192.168.1.20 ether a1:b2:c3:d4:e5:f6".

(** The position reached by the code units [q] from a position that
    follows [prev] is the start of a line. *)
Definition line_start (prev : option N) (q : jsstring) : bool :=
  at_bol (feeds q (ms_init prev)).

(** * Lemmas and theorems *)

(** ** The model at work *)

Example ex_ipToNumber : ipToNumber (js "192.168.1.1") = (-1062731519)%Z.
Proof. vm_compute. reflexivity. Qed.

Example ex_parseInt_hex : parseInt (js " 0x1f.") = Some 31%Z.
Proof. vm_compute. reflexivity. Qed.

Example ex_parseInt_nan : parseInt (js "eth0") = None.
Proof. vm_compute. reflexivity. Qed.

(** [2^53 + 1] is no double; [parseInt] gives [2^53]. *)
Example ex_parseInt_rounds : parseInt (js "9007199254740993") = Some 9007199254740992%Z.
Proof. vm_compute. reflexivity. Qed.

Example ex_calculateSubnet_29 :
  calculateSubnet (js "10.0.0.9") (js "255.255.255.248")
  = [js "10.0.0.9"; js "10.0.0.10"; js "10.0.0.11"; js "10.0.0.12"; js "10.0.0.13";
     js "10.0.0.14"].
Proof. vm_compute. reflexivity. Qed.

(** With the mask 0.0.0.0 the broadcast number is [-1] as a signed 32-bit
    integer and the loop does not run. *)
Example ex_calculateSubnet_mask0 : calculateSubnet (js "10.0.0.1") (js "0.0.0.0") = [].
Proof. vm_compute. reflexivity. Qed.

Example ex_formatMac : formatMac (js "AABBCCDDEEFF") = js "AA:BB:CC:DD:EE:FF".
Proof. vm_compute. reflexivity. Qed.

Example ex_formatMac_odd : formatMac (js "ABC") = js "AB:C".
Proof. vm_compute. reflexivity. Qed.

Example ex_name_normalized : trim (collapse_ws false (js "  Living   Room TV ")) = js "Living Room TV".
Proof. vm_compute. reflexivity. Qed.

Example ex_lease_name :
  getDeviceName pass_slash24 (js "192.168.1.10")
  = ([ReadLeases (js "192.168.1.10")], Return (js "printer")).
Proof. vm_compute. reflexivity. Qed.

Example ex_upnp_name :
  first_group friendlyNameRegex (js "<device><FriendlyName>My TV</FriendlyName></device>")
  = Some (js "My TV").
Proof. vm_compute. reflexivity. Qed.

Example ex_mdns_name :
  resolveMdnsName
    {| ping := fun _ => SpawnError; arp := SpawnError; dhclient_leases := None;
       fetch_description := fun _ => FetchError;
       avahi := fun _ => Exited 0 (js "192.168.1.10" ++ [9%N] ++ js "printer.local" ++ [10%N]);
       nbtstat := fun _ => SpawnError; resolveDns := fun _ => None |}
    (js "192.168.1.10")
  = ([Avahi (js "192.168.1.10")], Return (js "printer.local")).
Proof. vm_compute. reflexivity. Qed.

(** The pattern takes what follows [<00>  UNIQUE]. *)
Example ex_netbios_name :
  first_group netbiosRegex (js "    PRINTER        <00>  UNIQUE      Registered")
  = Some (js "Registered").
Proof. vm_compute. reflexivity. Qed.

(** One entry of the subnet and one zero address give one device. *)
Example ex_scan_slash24 :
  snd (snd (scan world_slash24 no_options None))
  = Return [ {| ip := js "192.168.1.10";
                mac := js "AA:BB:CC:DD:EE:FF";
                interface := js "eth0";
                vendor := js "Unknown";
                name := js "printer" |} ].
Proof. vm_compute. reflexivity. Qed.

(** ** 32-bit arithmetic *)

Section Int32.
Local Open Scope Z_scope.

Lemma ToInt32_range z : - 2 ^ 31 <= ToInt32 z < 2 ^ 31.
Proof. unfold ToInt32. pose proof (Z.mod_pos_bound (z + 2 ^ 31) (2 ^ 32)). lia. Qed.

Lemma ToInt32_small z : - 2 ^ 31 <= z < 2 ^ 31 -> ToInt32 z = z.
Proof. intros H. unfold ToInt32. rewrite Z.mod_small; lia. Qed.

Lemma ToInt32_mod z : ToInt32 (z mod 2 ^ 32) = ToInt32 z.
Proof.
  unfold ToInt32. f_equal.
  rewrite Zplus_mod_idemp_l. reflexivity.
Qed.

Lemma ToInt32_unsigned u :
  0 <= u < 2 ^ 32 -> ToInt32 u = if u <? 2 ^ 31 then u else u - 2 ^ 32.
Proof.
  intros H. unfold ToInt32. destruct (Z.ltb_spec u (2 ^ 31)).
  - rewrite Z.mod_small; lia.
  - replace (u + 2 ^ 31) with (u - 2 ^ 31 + 1 * 2 ^ 32) by lia.
    rewrite Z_mod_plus_full, Z.mod_small; lia.
Qed.

Lemma testbit_31_unsigned u : 0 <= u < 2 ^ 32 -> Z.testbit u 31 = negb (u <? 2 ^ 31).
Proof.
  intros H. destruct (Z.ltb_spec u (2 ^ 31)); cbn [negb].
  - destruct (Z.eq_dec u 0) as [->|]; [reflexivity|].
    apply Z.bits_above_log2; [lia|]. apply Z.log2_lt_pow2; lia.
  - rewrite Z.testbit_true by lia.
    assert (u / 2 ^ 31 = 1) as -> by (Z.div_mod_to_equations; lia). reflexivity.
Qed.

Lemma ToInt32_testbit z i :
  0 <= i -> Z.testbit (ToInt32 z) i = Z.testbit z (Z.min i 31).
Proof.
  intros Hi. rewrite <- ToInt32_mod.
  pose proof (Z.mod_pos_bound z (2 ^ 32) ltac:(lia)) as Hu.
  assert (Hlow : forall j, 0 <= j < 32 -> Z.testbit (z mod 2 ^ 32) j = Z.testbit z j).
  { intros j Hj. apply Z.mod_pow2_bits_low. lia. }
  rewrite <- (Hlow (Z.min i 31)) by lia.
  set (u := z mod 2 ^ 32) in *. clearbody u.
  rewrite ToInt32_unsigned by lia.
  pose proof (testbit_31_unsigned u Hu) as H31.
  destruct (Z.ltb_spec u (2 ^ 31)) as [Hlt|Hge]; cbn [negb] in H31.
  - destruct (Z.le_gt_cases i 31) as [Hle|Hgt].
    + rewrite Z.min_l by lia. reflexivity.
    + rewrite Z.min_r by lia. rewrite H31.
      destruct (Z.eq_dec u 0) as [->|]; [apply Z.bits_0|].
      apply Z.bits_above_log2; [lia|].
      apply Z.lt_trans with 31; [|lia]. apply Z.log2_lt_pow2; lia.
  - destruct (Z.lt_ge_cases i 32) as [Hlt|Hge'].
    + assert (Hm : (u - 2 ^ 32) mod 2 ^ 32 = u).
      { replace (u - 2 ^ 32) with (u + (-1) * 2 ^ 32) by lia.
        rewrite Z_mod_plus_full. apply Z.mod_small. lia. }
      rewrite <- (Z.mod_pow2_bits_low (u - 2 ^ 32) 32 i) by lia.
      rewrite Hm.
      destruct (Z.eq_dec i 31) as [->|]; [reflexivity|].
      rewrite Z.min_l by lia. reflexivity.
    + rewrite Z.min_r by lia. rewrite H31.
      apply Z.bits_above_log2_neg; [lia|].
      destruct (Z.eq_dec (Z.pred (- (u - 2 ^ 32))) 0) as [->|]; [cbn; lia|].
      apply Z.lt_trans with 31; [|lia]. apply Z.log2_lt_pow2; lia.
Qed.

Lemma ToInt32_eq_bits x y :
  (forall j, 0 <= j < 32 -> Z.testbit x j = Z.testbit y j) -> ToInt32 x = ToInt32 y.
Proof.
  intros H. apply Z.bits_inj'. intros i Hi.
  rewrite !ToInt32_testbit by lia. apply H. lia.
Qed.

Lemma ToInt32_idem z : ToInt32 (ToInt32 z) = ToInt32 z.
Proof. apply ToInt32_small, ToInt32_range. Qed.

(** Two numbers are equal when their bits are; [ToInt32] is read through
    [ToInt32_testbit]. *)
Ltac int32_bits :=
  apply Z.bits_inj'; intros ?i ?Hi;
  repeat first
    [ rewrite Z.land_spec | rewrite Z.lor_spec | rewrite Z.lnot_spec by lia
    | rewrite ToInt32_testbit by lia ];
  reflexivity.

Lemma js_and_spec a b : js_and a b = ToInt32 (Z.land a b).
Proof. unfold js_and. int32_bits. Qed.

Lemma js_or_spec a b : js_or a b = ToInt32 (Z.lor a b).
Proof. unfold js_or. int32_bits. Qed.

Lemma js_not_spec a : js_not a = ToInt32 (Z.lnot a).
Proof. unfold js_not. int32_bits. Qed.

Lemma js_shl_spec a n : 0 <= n -> js_shl a n = ToInt32 (Z.shiftl a n).
Proof.
  intros Hn. unfold js_shl. apply ToInt32_eq_bits. intros j Hj.
  destruct (Z.lt_ge_cases j n).
  - rewrite !Z.shiftl_spec_low by lia. reflexivity.
  - rewrite !Z.shiftl_spec by lia. rewrite ToInt32_testbit by lia.
    f_equal. lia.
Qed.

Lemma ToUint32_ToInt32 z : ToUint32 (ToInt32 z) = ToUint32 z.
Proof.
  unfold ToUint32, ToInt32.
  rewrite Zminus_mod_idemp_l.
  replace (z + 2 ^ 31 - 2 ^ 31) with z by lia. reflexivity.
Qed.

End Int32.

(** ** Dotted quads *)

Section DottedQuads.
Local Open Scope Z_scope.

Lemma octet_ok_all a : octet a -> octet_ok a = true.
Proof.
  intros H.
  assert (Hall : forallb octet_ok (List.map Z.of_nat (seq 0 256)) = true)
    by (vm_compute; reflexivity).
  rewrite forallb_forall in Hall. apply Hall.
  apply in_map_iff. exists (Z.to_nat a). split; [unfold octet in H; lia|].
  apply in_seq. unfold octet in H. lia.
Qed.

Lemma parseInt_octet a : octet a -> parseInt (number_toString a) = Some a.
Proof.
  intros H. pose proof (octet_ok_all a H) as Hok. unfold octet_ok in Hok.
  apply andb_true_iff in Hok as [_ Hok].
  destruct (parseInt (number_toString a)); [|discriminate].
  apply Z.eqb_eq in Hok. congruence.
Qed.

Lemma octet_no_dot a :
  octet a -> forallb (fun c => negb (c =? 46)%N) (number_toString a) = true.
Proof.
  intros H. pose proof (octet_ok_all a H) as Hok. unfold octet_ok in Hok.
  apply andb_true_iff in Hok as [Hok _]. exact Hok.
Qed.

Lemma split_acc_nosep sep acc s :
  forallb (fun c => negb (c =? sep)%N) s = true ->
  split_acc sep acc s = [rev acc ++ s].
Proof.
  revert acc. induction s as [|c s IH]; intros acc H; simpl.
  - rewrite app_nil_r. reflexivity.
  - simpl in H. apply andb_true_iff in H as [Hc Hs].
    apply negb_true_iff in Hc. rewrite Hc, IH by assumption.
    simpl. rewrite <- app_assoc. reflexivity.
Qed.

Lemma split_acc_sep sep acc s t :
  forallb (fun c => negb (c =? sep)%N) s = true ->
  split_acc sep acc (s ++ sep :: t) = (rev acc ++ s) :: split_acc sep [] t.
Proof.
  revert acc. induction s as [|c s IH]; intros acc H; simpl.
  - rewrite N.eqb_refl, app_nil_r. reflexivity.
  - simpl in H. apply andb_true_iff in H as [Hc Hs].
    apply negb_true_iff in Hc. rewrite Hc, IH by assumption.
    simpl. rewrite <- app_assoc. reflexivity.
Qed.

Lemma split_ipv4 a b c d :
  octet a -> octet b -> octet c -> octet d ->
  split 46 (ipv4 a b c d)
  = [number_toString a; number_toString b; number_toString c; number_toString d].
Proof.
  intros Ha Hb Hc Hd. unfold split, ipv4, join.
  change (js ".") with [46%N]. cbn [app].
  rewrite split_acc_sep by (apply octet_no_dot; assumption).
  rewrite split_acc_sep by (apply octet_no_dot; assumption).
  rewrite split_acc_sep by (apply octet_no_dot; assumption).
  rewrite split_acc_nosep by (apply octet_no_dot; assumption).
  reflexivity.
Qed.

Lemma lor_shiftl_8 y x : 0 <= x < 256 -> Z.lor (Z.shiftl y 8) x = y * 256 + x.
Proof.
  intros Hx. rewrite Z.shiftl_mul_pow2 by lia. change (2 ^ 8) with 256.
  rewrite <- Z.lxor_lor, <- Z.add_nocarry_lxor; try reflexivity.
  all: apply Z.bits_inj'; intros i Hi; rewrite Z.land_spec, Z.bits_0.
  all: destruct (Z.lt_ge_cases i 8).
  all: try (replace (y * 256) with (y * 2 ^ 8) by reflexivity;
            rewrite Z.mul_pow2_bits_low by lia; reflexivity).
  all: rewrite (Z.bits_above_log2 x i), andb_false_r; try reflexivity; try lia.
  all: destruct (Z.eq_dec x 0) as [->|]; [cbn; lia|].
  all: apply Z.lt_le_trans with 8; [|lia]; apply Z.log2_lt_pow2; lia.
Qed.

Lemma step_octet acc x :
  0 <= x < 256 ->
  Z.lor (js_shl (ToInt32 acc) 8) (int32_of_number (Some x)) = ToInt32 (acc * 256 + x).
Proof.
  intros Hx. cbn [int32_of_number].
  rewrite <- (lor_shiftl_8 acc x Hx).
  rewrite js_shl_spec by lia.
  change (Z.lor (ToInt32 (Z.shiftl (ToInt32 acc) 8)) (ToInt32 x))
    with (js_or (Z.shiftl (ToInt32 acc) 8) x).
  rewrite js_or_spec. apply ToInt32_eq_bits. intros j Hj.
  rewrite !Z.lor_spec. f_equal.
  destruct (Z.lt_ge_cases j 8).
  - rewrite !Z.shiftl_spec_low by lia. reflexivity.
  - rewrite !Z.shiftl_spec by lia. rewrite ToInt32_testbit by lia. f_equal. lia.
Qed.

Lemma ipToNumber_ipv4 a b c d :
  octet a -> octet b -> octet c -> octet d ->
  ipToNumber (ipv4 a b c d) = ToInt32 (u32 a b c d).
Proof.
  intros Ha Hb Hc Hd. unfold ipToNumber.
  rewrite split_ipv4 by assumption. cbn [fold_left].
  rewrite !parseInt_octet by assumption.
  unfold octet in *.
  change 0 with (ToInt32 0) at 1.
  rewrite !step_octet by lia. f_equal. unfold u32. lia.
Qed.

End DottedQuads.

(** ** The address range generator *)

Section Generator.
Local Open Scope Z_scope.

Lemma u32_range a b c d :
  octet a -> octet b -> octet c -> octet d -> 0 <= u32 a b c d < 2 ^ 32.
Proof. unfold octet, u32. lia. Qed.

Lemma land_byte x : Z.land x 255 = x mod 256.
Proof. change 255 with (Z.ones 8). rewrite Z.land_ones by lia. reflexivity. Qed.

Lemma field_shru x k :
  0 <= k -> js_and (js_shru x k) 255 = (x mod 2 ^ 32) / 2 ^ k mod 256.
Proof.
  intros Hk. rewrite js_and_spec. unfold js_shru, ToUint32.
  rewrite Z.shiftr_div_pow2 by lia. rewrite land_byte.
  apply ToInt32_small. pose proof (Z.mod_pos_bound ((x mod 2 ^ 32) / 2 ^ k) 256). lia.
Qed.

Lemma field_low x : js_and x 255 = x mod 256.
Proof.
  rewrite js_and_spec, land_byte. apply ToInt32_small.
  pose proof (Z.mod_pos_bound x 256). lia.
Qed.

Lemma dotted_quad_quad x n :
  0 <= n < 2 ^ 32 -> x mod 2 ^ 32 = n -> dotted_quad x = quad n.
Proof.
  intros Hn Hx. unfold dotted_quad, quad, ipv4.
  rewrite !field_shru by lia. rewrite field_low, Hx.
  assert (x mod 256 = n mod 256) as ->.
  { rewrite <- Hx. change (2 ^ 32) with (256 * 16777216).
    rewrite Z.rem_mul_r by lia. rewrite Z.mul_comm, Z_mod_plus_full.
    rewrite Z.mod_mod by lia. reflexivity. }
  assert (n / 2 ^ 24 mod 256 = n / 2 ^ 24) as ->.
  { apply Z.mod_small. Z.div_mod_to_equations. lia. }
  reflexivity.
Qed.

Lemma length_zseq start len : length (zseq start len) = len.
Proof. revert start. induction len; intros; simpl; auto. Qed.

Lemma in_zseq x start len : In x (zseq start len) <-> start <= x < start + Z.of_nat len.
Proof.
  revert start. induction len as [|len IH]; intros start; simpl.
  - lia.
  - rewrite IH. lia.
Qed.

Lemma subnet_loop_zseq fuel current broadcast :
  fuel = Z.to_nat (broadcast - current) ->
  subnet_loop fuel current broadcast = List.map dotted_quad (zseq current fuel).
Proof.
  revert current. induction fuel as [|fuel IH]; intros current Hf; simpl.
  - reflexivity.
  - destruct (Z.ltb_spec current broadcast); [|lia].
    f_equal. apply IH. lia.
Qed.

(** More fuel changes nothing: the loop of the generator ends on its own
    test. *)
Lemma subnet_loop_fuel fuel current broadcast :
  (Z.to_nat (broadcast - current) <= fuel)%nat ->
  subnet_loop fuel current broadcast
  = subnet_loop (Z.to_nat (broadcast - current)) current broadcast.
Proof.
  revert current. induction fuel as [|fuel IH]; intros current Hf.
  - replace (Z.to_nat (broadcast - current)) with O by lia. reflexivity.
  - simpl. destruct (Z.ltb_spec current broadcast).
    + replace (Z.to_nat (broadcast - current))
        with (S (Z.to_nat (broadcast - (current + 1)))) by lia.
      simpl. destruct (Z.ltb_spec current broadcast); [|lia].
      f_equal. apply IH. lia.
    + replace (Z.to_nat (broadcast - current)) with O by lia. reflexivity.
Qed.

Lemma map_zseq_shift {A} (f g : Z -> A) start start' len :
  (forall k, 0 <= k < Z.of_nat len -> f (start + k) = g (start' + k)) ->
  List.map f (zseq start len) = List.map g (zseq start' len).
Proof.
  revert start start'. induction len as [|len IH]; intros start start' H; simpl.
  - reflexivity.
  - f_equal.
    + specialize (H 0). rewrite !Z.add_0_r in H. apply H. lia.
    + apply IH. intros k Hk. specialize (H (k + 1)).
      replace (start + 1 + k) with (start + (k + 1)) by lia.
      replace (start' + 1 + k) with (start' + (k + 1)) by lia.
      apply H. lia.
Qed.

Lemma lnot_mod32 m : 0 <= m < 2 ^ 32 -> ToUint32 (js_not (ToInt32 m)) = complement32 m.
Proof.
  intros Hm. rewrite js_not_spec, ToUint32_ToInt32.
  unfold ToUint32.
  assert (Z.lnot (ToInt32 m) mod 2 ^ 32 = Z.lnot m mod 2 ^ 32) as ->.
  { apply Z.bits_inj'. intros i Hi.
    destruct (Z.lt_ge_cases i 32).
    - rewrite !Z.mod_pow2_bits_low, !Z.lnot_spec, ToInt32_testbit by lia.
      rewrite Z.min_l by lia. reflexivity.
    - rewrite !Z.mod_pow2_bits_high by lia. reflexivity. }
  unfold Z.lnot, complement32. rewrite <- Z.sub_1_r.
  replace (- m - 1) with (2 ^ 32 - 1 - m + (-1) * 2 ^ 32) by lia.
  rewrite Z_mod_plus_full. apply Z.mod_small. lia.
Qed.

Lemma land_range x y : 0 <= x < 2 ^ 32 -> 0 <= y -> 0 <= Z.land x y < 2 ^ 32.
Proof.
  intros Hx Hy. split; [apply Z.land_nonneg; lia|].
  destruct (Z.eq_dec (Z.land x y) 0) as [->|Hne]; [lia|].
  apply Z.log2_lt_pow2; [pose proof (Z.land_nonneg x y); lia|].
  apply Z.le_lt_trans with (Z.min (Z.log2 x) (Z.log2 y)); [apply Z.log2_land; lia|].
  destruct (Z.eq_dec x 0) as [->|]; [rewrite Z.land_0_l in Hne; lia|].
  apply Z.le_lt_trans with (Z.log2 x); [lia|]. apply Z.log2_lt_pow2; lia.
Qed.

Lemma lor_range x y : 0 <= x < 2 ^ 32 -> 0 <= y < 2 ^ 32 -> 0 <= Z.lor x y < 2 ^ 32.
Proof.
  intros Hx Hy. split; [apply Z.lor_nonneg; lia|].
  destruct (Z.eq_dec (Z.lor x y) 0) as [->|Hne]; [lia|].
  apply Z.log2_lt_pow2; [pose proof (Z.lor_nonneg x y); lia|].
  rewrite Z.log2_lor by lia.
  destruct (Z.eq_dec x 0) as [->|]; destruct (Z.eq_dec y 0) as [->|];
    try (rewrite Z.lor_0_l in Hne); try (rewrite Z.lor_0_r in Hne); try lia.
  - rewrite Z.max_r by (apply Z.log2_nonneg). apply Z.log2_lt_pow2; lia.
  - rewrite Z.max_l by (apply Z.log2_nonneg). apply Z.log2_lt_pow2; lia.
  - apply Z.max_lub_lt; apply Z.log2_lt_pow2; lia.
Qed.

Lemma lor_le_add x y : 0 <= x -> 0 <= y -> Z.lor x y <= x + y.
Proof.
  intros Hx Hy. pose proof (Z.add_lor_land x y).
  pose proof (Z.land_nonneg x y). lia.
Qed.

Lemma ToInt32_inj x y :
  0 <= x < 2 ^ 32 -> 0 <= y < 2 ^ 32 -> ToInt32 x = ToInt32 y -> x = y.
Proof.
  intros Hx Hy H. apply (f_equal ToUint32) in H.
  rewrite !ToUint32_ToInt32 in H. unfold ToUint32 in H.
  rewrite !Z.mod_small in H by lia. exact H.
Qed.

Lemma ipToNumber_quad n : 0 <= n < 2 ^ 32 -> ipToNumber (quad n) = ToInt32 n.
Proof.
  intros Hn. unfold quad.
  rewrite ipToNumber_ipv4; unfold octet; try (Z.div_mod_to_equations; lia).
  f_equal. unfold u32. Z.div_mod_to_equations. lia.
Qed.

Lemma quad_inj x y : 0 <= x < 2 ^ 32 -> 0 <= y < 2 ^ 32 -> quad x = quad y -> x = y.
Proof.
  intros Hx Hy H. apply ToInt32_inj; try assumption.
  rewrite <- !ipToNumber_quad by assumption. congruence.
Qed.

Lemma same_sign nw c :
  0 <= nw < 2 ^ 32 -> 0 <= c < 2 ^ 31 ->
  ToInt32 (Z.lor nw c) - ToInt32 nw = Z.lor nw c - nw.
Proof.
  intros Hn Hc.
  pose proof (lor_range nw c Hn ltac:(lia)) as Hb.
  rewrite !ToInt32_unsigned by lia.
  pose proof (testbit_31_unsigned nw Hn) as H1.
  pose proof (testbit_31_unsigned (Z.lor nw c) Hb) as H2.
  rewrite Z.lor_spec, H1 in H2.
  rewrite (testbit_31_unsigned c) in H2 by lia.
  destruct (Z.ltb_spec c (2 ^ 31)); [|lia]. cbn [negb] in H2.
  rewrite orb_false_r in H2. apply (f_equal negb) in H2. rewrite !negb_involutive in H2.
  rewrite H2. destruct (Z.lor nw c <? 2 ^ 31); lia.
Qed.

Section Hosts.
Variables a b c d m1 m2 m3 m4 : Z.
Hypotheses (Ha : octet a) (Hb : octet b) (Hc : octet c) (Hd : octet d).
Hypotheses (Hm1 : octet m1) (Hm2 : octet m2) (Hm3 : octet m3) (Hm4 : octet m4).

Lemma code_network :
  js_and (ipToNumber (ipv4 a b c d)) (ipToNumber (ipv4 m1 m2 m3 m4))
  = ToInt32 (network_of (u32 a b c d) (u32 m1 m2 m3 m4)).
Proof.
  rewrite !ipToNumber_ipv4 by assumption.
  unfold js_and. rewrite !ToInt32_idem. apply js_and_spec.
Qed.

Lemma network_range : 0 <= network_of (u32 a b c d) (u32 m1 m2 m3 m4) < 2 ^ 32.
Proof.
  apply land_range; [apply u32_range; assumption|].
  pose proof (u32_range m1 m2 m3 m4 Hm1 Hm2 Hm3 Hm4). lia.
Qed.

Lemma code_broadcast :
  js_or (ToInt32 (network_of (u32 a b c d) (u32 m1 m2 m3 m4)))
        (ToUint32 (js_not (ipToNumber (ipv4 m1 m2 m3 m4))))
  = ToInt32 (broadcast_of (u32 a b c d) (u32 m1 m2 m3 m4)).
Proof.
  rewrite ipToNumber_ipv4 by assumption.
  rewrite lnot_mod32 by (apply u32_range; assumption).
  unfold js_or. rewrite ToInt32_idem. apply js_or_spec.
Qed.

Lemma calculateSubnet_unsigned :
  128 <= m1 ->
  calculateSubnet (ipv4 a b c d) (ipv4 m1 m2 m3 m4)
  = List.map quad
      (zseq (network_of (u32 a b c d) (u32 m1 m2 m3 m4) + 1)
            (Z.to_nat (broadcast_of (u32 a b c d) (u32 m1 m2 m3 m4)
                       - network_of (u32 a b c d) (u32 m1 m2 m3 m4) - 1))).
Proof.
  intros Htop. unfold calculateSubnet.
  rewrite code_network, code_broadcast.
  pose proof network_range as Hn.
  pose proof (u32_range m1 m2 m3 m4 Hm1 Hm2 Hm3 Hm4) as Hmk.
  set (mask := u32 m1 m2 m3 m4) in *.
  set (network := network_of (u32 a b c d) mask) in *.
  assert (Hc32 : 0 <= complement32 mask < 2 ^ 31).
  { unfold complement32, mask, u32, octet in *. lia. }
  pose proof (same_sign network (complement32 mask) Hn Hc32) as Hs.
  pose proof (lor_range network (complement32 mask) Hn ltac:(lia)) as Hbr.
  change (Z.lor network (complement32 mask)) with (broadcast_of (u32 a b c d) mask) in Hs, Hbr.
  set (broadcast := broadcast_of (u32 a b c d) mask) in *.
  rewrite subnet_loop_zseq by reflexivity.
  replace (ToInt32 broadcast - (ToInt32 network + 1)) with (broadcast - network - 1) by lia.
  apply map_zseq_shift. intros k Hk.
  apply dotted_quad_quad; [lia|].
  replace (ToInt32 network + 1 + k)
    with (network + 1 + k + (ToInt32 network - network)) by lia.
  rewrite (ToInt32_unsigned network Hn).
  destruct (network <? 2 ^ 31).
  - rewrite Z.sub_diag, Z.add_0_r. apply Z.mod_small. lia.
  - replace (network - 2 ^ 32 - network) with ((-1) * 2 ^ 32) by lia.
    rewrite Z_mod_plus_full. apply Z.mod_small. lia.
Qed.

End Hosts.

Lemma land_mask24 x : 0 <= x < 2 ^ 32 -> Z.land x (u32 255 255 255 0) = x - x mod 256.
Proof.
  intros Hx.
  assert (x - x mod 256 = Z.shiftl (Z.shiftr x 8) 8) as ->.
  { rewrite Z.shiftl_mul_pow2, Z.shiftr_div_pow2 by lia.
    change (2 ^ 8) with 256. Z.div_mod_to_equations. lia. }
  change (u32 255 255 255 0) with (Z.shiftl (Z.ones 24) 8).
  apply Z.bits_inj'. intros i Hi. rewrite Z.land_spec.
  destruct (Z.lt_ge_cases i 8).
  - rewrite !Z.shiftl_spec_low by lia. apply andb_false_r.
  - rewrite !Z.shiftl_spec by lia. rewrite Z.shiftr_spec by lia.
    replace (i - 8 + 8) with i by lia.
    destruct (Z.lt_ge_cases i 32).
    + rewrite Z.ones_spec_low by lia. apply andb_true_r.
    + rewrite Z.ones_spec_high by lia. rewrite andb_false_r.
      symmetry. destruct (Z.eq_dec x 0) as [->|]; [apply Z.bits_0|].
      apply Z.bits_above_log2; [lia|].
      apply Z.lt_le_trans with 32; [|lia]. apply Z.log2_lt_pow2; lia.
Qed.

Lemma hosts_24 a b c d :
  octet a -> octet b -> octet c -> octet d ->
  calculateSubnet (ipv4 a b c d) (ipv4 255 255 255 0)
  = List.map (ipv4 a b c) (zseq 1 254).
Proof.
  intros Ha Hb Hc Hd.
  rewrite calculateSubnet_unsigned by (unfold octet in *; lia).
  unfold broadcast_of, network_of.
  pose proof (u32_range a b c d Ha Hb Hc Hd) as Hx.
  rewrite land_mask24 by assumption.
  assert (Hn : u32 a b c d - u32 a b c d mod 256 = u32 a b c 0).
  { unfold u32, octet in *. Z.div_mod_to_equations. lia. }
  rewrite Hn.
  change (complement32 (u32 255 255 255 0)) with 255.
  assert (Hb' : Z.lor (u32 a b c 0) 255 = u32 a b c 0 + 255).
  { replace (u32 a b c 0) with (Z.shiftl (a * 65536 + b * 256 + c) 8)
      by (rewrite Z.shiftl_mul_pow2 by lia; unfold u32; lia).
    rewrite lor_shiftl_8 by lia. rewrite Z.shiftl_mul_pow2 by lia. lia. }
  rewrite Hb'.
  replace (Z.to_nat (u32 a b c 0 + 255 - u32 a b c 0 - 1)) with 254%nat by lia.
  apply map_zseq_shift. intros k Hk.
  unfold quad. unfold octet, u32 in *.
  f_equal; Z.div_mod_to_equations; lia.
Qed.

Lemma hosts_31_32 a b c d m4 :
  octet a -> octet b -> octet c -> octet d -> 254 <= m4 <= 255 ->
  calculateSubnet (ipv4 a b c d) (ipv4 255 255 255 m4) = [].
Proof.
  intros Ha Hb Hc Hd Hm.
  rewrite calculateSubnet_unsigned by (unfold octet in *; lia).
  unfold broadcast_of, network_of.
  pose proof (u32_range a b c d Ha Hb Hc Hd) as Hx.
  set (mask := u32 255 255 255 m4).
  assert (Hmk : 0 <= mask < 2 ^ 32) by (unfold mask, u32; lia).
  pose proof (land_range (u32 a b c d) mask Hx ltac:(lia)) as Hn.
  assert (Hc1 : 0 <= complement32 mask <= 1) by (unfold complement32, mask, u32; lia).
  pose proof (lor_le_add (Z.land (u32 a b c d) mask) (complement32 mask)
                ltac:(lia) ltac:(lia)) as Hle.
  replace (Z.to_nat _) with O by lia. reflexivity.
Qed.

Lemma hd_error_map_zseq {A} (f : Z -> A) start len :
  hd_error (List.map f (zseq start (S len))) = Some (f start).
Proof. reflexivity. Qed.

Lemma last_map_zseq {A} (f : Z -> A) start len dflt :
  List.last (List.map f (zseq start (S len))) dflt = f (start + Z.of_nat len).
Proof.
  revert start. induction len as [|len IH]; intros start.
  - simpl. f_equal. lia.
  - change (zseq start (S (S len))) with (start :: zseq (start + 1) (S len)).
    rewrite map_cons.
    replace (start + Z.of_nat (S len)) with (start + 1 + Z.of_nat len) by lia.
    rewrite <- (IH (start + 1)). reflexivity.
Qed.

(** C3, as amended.  For an interface address [a.b.c.d] and a netmask
    [m1.m2.m3.m4] whose first octet is at least 128, [calculateSubnet]
    yields exactly the dotted quads of the numbers strictly between the
    network [ip & mask] and the broadcast [network | ~mask], in increasing
    order, and never the network or the broadcast address.  For the mask
    255.255.255.0 these are the 254 addresses from [a.b.c.1] to
    [a.b.c.254]; for the masks 255.255.255.254 and 255.255.255.255, and
    whenever nothing lies between network and broadcast, there is no
    address, which is an empty result and no error. *)
Theorem calculateSubnet_hosts a b c d m1 m2 m3 m4 :
  octet a -> octet b -> octet c -> octet d ->
  octet m1 -> octet m2 -> octet m3 -> octet m4 ->
  128 <= m1 ->
  let network := network_of (u32 a b c d) (u32 m1 m2 m3 m4) in
  let broadcast := broadcast_of (u32 a b c d) (u32 m1 m2 m3 m4) in
  let hosts := calculateSubnet (ipv4 a b c d) (ipv4 m1 m2 m3 m4) in
  hosts = List.map quad (zseq (network + 1) (Z.to_nat (broadcast - network - 1)))
  /\ (forall h, In h hosts -> h <> quad network /\ h <> quad broadcast)
  /\ ((m1, m2, m3, m4) = (255, 255, 255, 0) ->
      hosts = List.map (ipv4 a b c) (zseq 1 254)
      /\ length hosts = 254%nat
      /\ hd_error hosts = Some (ipv4 a b c 1)
      /\ List.last hosts [] = ipv4 a b c 254)
  /\ ((m1, m2, m3) = (255, 255, 255) -> 254 <= m4 -> hosts = [])
  /\ (broadcast <= network + 1 -> hosts = []).
Proof.
  intros Ha Hb Hc Hd Hm1 Hm2 Hm3 Hm4 Htop network broadcast hosts.
  assert (Hgen : hosts = List.map quad (zseq (network + 1) (Z.to_nat (broadcast - network - 1))))
    by (apply calculateSubnet_unsigned; assumption).
  pose proof (network_range a b c d m1 m2 m3 m4 Ha Hb Hc Hd Hm1 Hm2 Hm3 Hm4) as Hn.
  fold network in Hn.
  assert (Hbr : 0 <= broadcast < 2 ^ 32).
  { apply lor_range; [assumption|].
    pose proof (u32_range m1 m2 m3 m4 Hm1 Hm2 Hm3 Hm4). unfold complement32. lia. }
  split; [exact Hgen|]. split; [|split; [|split]].
  - intros h Hin. rewrite Hgen in Hin. apply in_map_iff in Hin as (n & <- & Hin).
    apply in_zseq in Hin.
    split; intros Heq; apply quad_inj in Heq; lia.
  - intros Heq. injection Heq as -> -> -> ->.
    assert (H24 : hosts = List.map (ipv4 a b c) (zseq 1 254))
      by (apply hosts_24; assumption).
    split; [exact H24|]. rewrite H24. split; [|split].
    + rewrite length_map. apply length_zseq.
    + apply hd_error_map_zseq.
    + rewrite last_map_zseq. reflexivity.
  - intros Heq Hm. injection Heq as -> -> ->.
    apply hosts_31_32; try assumption. unfold octet in Hm4. lia.
  - intros Hle. rewrite Hgen.
    replace (Z.to_nat (broadcast - network - 1)) with O by lia. reflexivity.
Qed.

(** The interface 192.168.1.1 with the mask 255.255.255.0. *)
Lemma calculateSubnet_hosts_witness :
  calculateSubnet (ipv4 192 168 1 1) (ipv4 255 255 255 0)
  = List.map (ipv4 192 168 1) (zseq 1 254).
Proof.
  apply (calculateSubnet_hosts 192 168 1 1 255 255 255 0);
    unfold octet; try lia; reflexivity.
Defined.

End Generator.

(** ** Regular expressions *)

Lemma m_rep_in p lo hi st s st' s' :
  In (st', s') (m_rep p lo hi st s) ->
  exists pre,
    s = pre ++ s' /\ forallb p pre = true /\ lo <= length pre
    /\ (forall h, hi = Some h -> length pre <= h) /\ st' = feeds pre st.
Proof.
  revert lo hi st. induction s as [|c s IH]; intros lo hi st Hin.
  - simpl in Hin. destruct lo; [|destruct Hin].
    destruct Hin as [Heq|[]]. injection Heq as <- <-.
    exists []. repeat split; simpl; auto; lia.
  - simpl in Hin.
    assert (Hhere : In (st', s') (match lo with O => [(st, c :: s)] | S _ => [] end) ->
                    exists pre, c :: s = pre ++ s' /\ forallb p pre = true /\ lo <= length pre
                                /\ (forall h, hi = Some h -> length pre <= h) /\ st' = feeds pre st).
    { intros H. destruct lo; [|destruct H]. destruct H as [Heq|[]]. injection Heq as <- <-.
      exists []. repeat split; simpl; auto; lia. }
    destruct (p c && can_take hi) eqn:Hpc; [|auto].
    apply in_app_or in Hin as [Hin|Hin]; [|auto].
    apply andb_true_iff in Hpc as [Hp Hcan].
    apply IH in Hin as (pre & -> & Hall & Hlo & Hhi & ->).
    exists (c :: pre). repeat split.
    + simpl. rewrite Hp. exact Hall.
    + simpl. lia.
    + intros h ->. destruct h; [discriminate|]. simpl.
      specialize (Hhi h eq_refl). lia.
Qed.

Lemma feeds_open pre st :
  ms_open (feeds pre st) = List.map (fun g => (fst g, rev pre ++ snd g)) (ms_open st).
Proof.
  revert st. induction pre as [|c pre IH]; intros st; simpl.
  - rewrite <- (map_id (ms_open st)) at 1. apply map_ext. intros [k v]. reflexivity.
  - unfold feeds in IH. rewrite IH. simpl. rewrite map_map. apply map_ext.
    intros [k v]. simpl. rewrite <- app_assoc. reflexivity.
Qed.

Lemma m_items_app re1 re2 st s :
  m_items (re1 ++ re2) st s
  = flat_map (fun r => m_items re2 (fst r) (snd r)) (m_items re1 st s).
Proof.
  revert st s. induction re1 as [|i re1 IH]; intros st s; simpl.
  - rewrite app_nil_r. reflexivity.
  - induction (m_item i st s) as [|[st1 s1] l IHl]; simpl; [reflexivity|].
    rewrite IH, IHl, flat_map_app. reflexivity.
Qed.

(** A pattern that ends in [(class{lo,hi})] as group [k]: what the group
    holds after a match. *)
Lemma last_group_in re k p lo hi st s st' s' :
  In (st', s') (m_items (re ++ [Open k; Rep p lo hi; Close k]) st s) ->
  forallb p (group k (ms_caps st')) = true
  /\ lo <= length (group k (ms_caps st'))
  /\ (forall h, hi = Some h -> length (group k (ms_caps st')) <= h).
Proof.
  rewrite m_items_app. intros Hin.
  apply in_flat_map in Hin as ([st1 s1] & _ & Hin). simpl in Hin.
  rewrite app_nil_r in Hin.
  apply in_flat_map in Hin as ([st2 s2] & Hin2 & Hin). simpl in Hin.
  destruct Hin as [Heq|[]]. injection Heq as <- <-.
  apply m_rep_in in Hin2 as (pre & _ & Hall & Hlo & Hhi & ->).
  unfold close_group. rewrite feeds_open. simpl.
  rewrite app_nil_r, rev_involutive, Nat.eqb_refl. auto.
Qed.

Lemma m_item_len i st s st' s' :
  In (st', s') (m_item i st s) ->
  length s' + match i with Rep _ lo _ => lo | _ => 0 end <= length s.
Proof.
  destruct i; simpl; intros Hin.
  - destruct (at_bol st); [|destruct Hin]. destruct Hin as [Heq|[]]. injection Heq as <- <-. lia.
  - apply m_rep_in in Hin as (pre & -> & _ & Hlo & _). rewrite length_app. lia.
  - destruct Hin as [Heq|[]]. injection Heq as <- <-. lia.
  - destruct Hin as [Heq|[]]. injection Heq as <- <-. lia.
Qed.

Lemma m_items_len re st s st' s' :
  In (st', s') (m_items re st s) -> length s' + min_len re <= length s.
Proof.
  revert st s. induction re as [|i re IH]; intros st s Hin; simpl in *.
  - destruct Hin as [Heq|[]]. injection Heq as <- <-. lia.
  - apply in_flat_map in Hin as ([st1 s1] & Hin1 & Hin). simpl in Hin.
    apply IH in Hin. apply m_item_len in Hin1. destruct i; lia.
Qed.

Lemma search_some re prev s caps pos' :
  search re prev s = Some (caps, pos') ->
  exists prev0 s0 st,
    In (st, snd pos') (m_items re (ms_init prev0) s0)
    /\ caps = ms_caps st /\ length s0 <= length s.
Proof.
  revert prev. induction s as [|c s IH]; intros prev H; simpl in H.
  - destruct (m_items re (ms_init prev) []) as [|[st rest] l] eqn:E; [discriminate|].
    injection H as <- <-. exists prev, [], st. rewrite E. simpl. auto.
  - destruct (m_items re (ms_init prev) (c :: s)) as [|[st rest] l] eqn:E.
    + apply IH in H as (prev0 & s0 & st & Hin & Hc & Hl).
      exists prev0, s0, st. simpl. auto.
    + injection H as <- <-. exists prev, (c :: s), st. rewrite E. simpl. auto.
Qed.

Lemma exec_len re pos caps pos' :
  exec re pos = Some (caps, pos') -> length (snd pos') + min_len re <= length (snd pos).
Proof.
  unfold exec. intros H. apply search_some in H as (prev0 & s0 & st & Hin & _ & Hl).
  apply m_items_len in Hin. lia.
Qed.

Lemma exec_last_group re k p lo hi pos caps pos' :
  exec (re ++ [Open k; Rep p lo hi; Close k]) pos = Some (caps, pos') ->
  forallb p (group k caps) = true /\ lo <= length (group k caps)
  /\ (forall h, hi = Some h -> length (group k caps) <= h).
Proof.
  unfold exec. intros H. apply search_some in H as (prev0 & s0 & st & Hin & -> & _).
  eapply last_group_in. exact Hin.
Qed.

(** More fuel changes nothing once there is more of it than text left. *)
Lemma exec_all_fuel re fuel fuel' pos :
  0 < min_len re -> length (snd pos) < fuel -> length (snd pos) < fuel' ->
  exec_all fuel re pos = exec_all fuel' re pos.
Proof.
  intros Hmin. revert fuel' pos. induction fuel as [|fuel IH]; intros fuel' pos H1 H2; [lia|].
  destruct fuel' as [|fuel']; [lia|]. simpl.
  destruct (exec re pos) as [[caps pos']|] eqn:E; [|reflexivity].
  apply exec_len in E. f_equal. apply IH; lia.
Qed.

Lemma min_len_win : min_len winRegex = 25.
Proof. reflexivity. Qed.
Lemma min_len_unix : min_len unixRegex = 31.
Proof. reflexivity. Qed.

(** ** The neighbour map *)

Lemma map_get_set_eq k v m : map_get k (map_set k v m) = Some v.
Proof.
  induction m as [|[k' v'] m IH]; simpl.
  - destruct (decide (k = k)); congruence.
  - destruct (decide (k = k')) as [->|Hne]; simpl.
    + destruct (decide (k' = k')); congruence.
    + destruct (decide (k = k')); [contradiction|]. exact IH.
Qed.

Lemma map_get_set_ne k k0 v m : k <> k0 -> map_get k (map_set k0 v m) = map_get k m.
Proof.
  intros Hne. induction m as [|[k' v'] m IH]; simpl.
  - destruct (decide (k = k0)); [contradiction|reflexivity].
  - destruct (decide (k0 = k')) as [->|Hne']; simpl.
    + destruct (decide (k = k')); [contradiction|reflexivity].
    + destruct (decide (k = k')); [reflexivity|exact IH].
Qed.

Lemma map_set_in k v m e : In e (map_set k v m) -> e = (k, v) \/ In e m.
Proof.
  induction m as [|[k' v'] m IH]; simpl.
  - intros [<-|[]]. auto.
  - destruct (decide (k = k')) as [->|Hne]; simpl.
    + intros [<-|H]; auto.
    + intros [<-|H]; auto. apply IH in H as [H|H]; auto.
Qed.

Lemma map_set_keys_in k v m x :
  In x (List.map fst (map_set k v m)) -> x = k \/ In x (List.map fst m).
Proof.
  intros H. apply in_map_iff in H as ([k1 v1] & <- & H).
  apply map_set_in in H as [H|H].
  - injection H as -> ->. auto.
  - right. apply in_map_iff. exists (k1, v1). auto.
Qed.

Lemma map_set_nodup k v m :
  List.NoDup (List.map fst m) -> List.NoDup (List.map fst (map_set k v m)).
Proof.
  induction m as [|[k' v'] m IH]; simpl; intros H.
  - constructor; [intros []|constructor].
  - inversion H as [|? ? Hnin Hnd]; subst.
    destruct (decide (k = k')) as [->|Hne]; simpl.
    + constructor; assumption.
    + constructor; [|auto].
      intros Hin. apply map_set_keys_in in Hin as [Hin|Hin]; congruence.
Qed.

(** *** The loops of the parser *)

Lemma arp_loop_fold fuel re norm pos m :
  arp_loop fuel re norm pos m
  = fold_left put
      (List.filter (fun e => negb (bool_decide (snd e = zero_mac)))
         (List.map (write_entry norm) (exec_all fuel re pos))) m.
Proof.
  revert pos m. induction fuel as [|fuel IH]; intros pos m; simpl; [reflexivity|].
  destruct (exec re pos) as [[caps pos']|]; [|reflexivity]. simpl.
  destruct (decide (norm (group 2 caps) = zero_mac)) as [Hz|Hz].
  - rewrite bool_decide_eq_true_2 by assumption. simpl. apply IH.
  - rewrite bool_decide_eq_false_2 by assumption. simpl. apply IH.
Qed.

Lemma parseArpOutput_fold output :
  parseArpOutput output = fold_left put (arp_writes output) [].
Proof.
  unfold parseArpOutput, parseArpOutput_fuel, arp_writes, entries_of.
  rewrite !arp_loop_fold, fold_left_app. reflexivity.
Qed.

Lemma fold_put_get k l m :
  map_get k (fold_left put l m)
  = match last_write k l with Some v => Some v | None => map_get k m end.
Proof.
  revert m. induction l as [|[k' v] l IH]; intros m; simpl; [reflexivity|].
  rewrite IH. destruct (last_write k l); [reflexivity|].
  unfold put. simpl. destruct (decide (k = k')) as [->|Hne].
  - apply map_get_set_eq.
  - apply map_get_set_ne. assumption.
Qed.

Lemma fold_put_nodup l m :
  List.NoDup (List.map fst m) -> List.NoDup (List.map fst (fold_left put l m)).
Proof.
  revert m. induction l as [|e l IH]; intros m H; simpl; [assumption|].
  apply IH. apply map_set_nodup. assumption.
Qed.

Lemma fold_put_in l m e : In e (fold_left put l m) -> In e l \/ In e m.
Proof.
  revert m. induction l as [|e' l IH]; intros m H; simpl in *; [auto|].
  apply IH in H as [H|H]; [auto|].
  apply map_set_in in H as [->|H]; [|auto]. destruct e'. auto.
Qed.

Lemma parseArpOutput_in output e :
  In e (parseArpOutput output) -> In e (arp_writes output).
Proof.
  rewrite parseArpOutput_fold. intros H. apply fold_put_in in H as [H|[]]. exact H.
Qed.

Lemma parseArpOutput_fuel_enough fuel output :
  length output < fuel -> parseArpOutput_fuel fuel output = parseArpOutput output.
Proof.
  intros H. unfold parseArpOutput, parseArpOutput_fuel.
  rewrite !arp_loop_fold.
  rewrite (exec_all_fuel winRegex fuel (S (length output)))
    by (rewrite ?min_len_win; simpl; lia).
  rewrite (exec_all_fuel unixRegex fuel (S (length output)))
    by (rewrite ?min_len_unix; simpl; lia).
  reflexivity.
Qed.

(** *** Hardware addresses in the map *)

Lemma ascii_cases (P : N -> bool) :
  forallb P (List.map N.of_nat (seq 0 128)) = true ->
  forall c, (c < 128)%N -> P c = true.
Proof.
  intros H c Hc. rewrite forallb_forall in H. apply H.
  apply in_map_iff. exists (N.to_nat c). split; [lia|]. apply in_seq. lia.
Qed.

(** A class given by ranges and single code units, read as arithmetic. *)
Ltac class_bounds :=
  unfold is_mac_win, is_mac_unix, is_mac_upper, is_hex_upper, is_hex, is_digit, cu_in;
  rewrite ?orb_true_iff, ?andb_true_iff, ?N.leb_le, ?N.eqb_eq; lia.

(** A fact [H : A c = true] about an ASCII code unit gives [B c = true]
    when [A] implies [B] on each of the 128 of them. *)
Ltac by_ascii_cases H Hc A B :=
  apply (ascii_cases (fun c => implb (A c) (B c))) in Hc;
  [ cbv beta in Hc; rewrite H in Hc; exact Hc | vm_compute; reflexivity ].

Lemma is_mac_win_ascii c : is_mac_win c = true -> (c < 128)%N.
Proof. class_bounds. Qed.

Lemma is_mac_unix_win c : is_mac_unix c = true -> is_mac_win c = true.
Proof. unfold is_mac_win, is_mac_unix. intros ->. reflexivity. Qed.

Lemma norm_win_cu c :
  is_mac_win c = true -> is_mac_upper (upper_cu (if (c =? 45)%N then 58%N else c)) = true.
Proof.
  intros H. pose proof (is_mac_win_ascii c H) as Hc.
  by_ascii_cases H Hc is_mac_win
    (fun c => is_mac_upper (upper_cu (if (c =? 45)%N then 58%N else c))).
Qed.

Lemma norm_unix_cu c : is_mac_unix c = true -> is_mac_upper (upper_cu c) = true.
Proof.
  intros H. pose proof (is_mac_win_ascii c (is_mac_unix_win c H)) as Hc.
  by_ascii_cases H Hc is_mac_unix (fun c => is_mac_upper (upper_cu c)).
Qed.

Lemma norm_win_text m :
  length m = 17 -> forallb is_mac_win m = true -> mac_text (norm_win m).
Proof.
  intros Hl Hall. split.
  - unfold norm_win, toUpperCase, replace_cu. rewrite !length_map. exact Hl.
  - unfold norm_win, toUpperCase, replace_cu. rewrite map_map.
    rewrite forallb_forall in *. intros x Hx.
    apply in_map_iff in Hx as (c & <- & Hc). apply norm_win_cu. auto.
Qed.

Lemma norm_unix_text m :
  length m = 17 -> forallb is_mac_unix m = true -> mac_text (norm_unix m).
Proof.
  intros Hl Hall. split.
  - unfold norm_unix, toUpperCase. rewrite length_map. exact Hl.
  - unfold norm_unix, toUpperCase.
    rewrite forallb_forall in *. intros x Hx.
    apply in_map_iff in Hx as (c & <- & Hc). apply norm_unix_cu. auto.
Qed.

Lemma exec_all_in fuel re pos caps :
  In caps (exec_all fuel re pos) -> exists pos1 pos2, exec re pos1 = Some (caps, pos2).
Proof.
  revert pos. induction fuel as [|fuel IH]; intros pos H; simpl in H; [destruct H|].
  destruct (exec re pos) as [[caps' pos']|] eqn:E; [|destruct H].
  destruct H as [->|H]; eauto.
Qed.

Lemma win_group2 pos caps pos' :
  exec winRegex pos = Some (caps, pos') ->
  length (group 2 caps) = 17 /\ forallb is_mac_win (group 2 caps) = true.
Proof.
  intros H.
  change winRegex with
    (([Bol; star is_space; Open 1] ++ re_ipv4 ++ [Close 1; plus is_space])
       ++ [Open 2; Rep is_mac_win 17 (Some 17); Close 2]) in H.
  apply exec_last_group in H as (Hall & Hlo & Hhi).
  specialize (Hhi 17 eq_refl). split; [lia|assumption].
Qed.

Lemma unix_group2 pos caps pos' :
  exec unixRegex pos = Some (caps, pos') ->
  length (group 2 caps) = 17 /\ forallb is_mac_unix (group 2 caps) = true.
Proof.
  intros H.
  change unixRegex with
    (([Bol; Open 1] ++ re_ipv4 ++ [Close 1; plus is_space] ++ lit "ether" ++ [plus is_space])
       ++ [Open 2; Rep is_mac_unix 17 (Some 17); Close 2]) in H.
  apply exec_last_group in H as (Hall & Hlo & Hhi).
  specialize (Hhi 17 eq_refl). split; [lia|assumption].
Qed.

Lemma arp_writes_in output k v :
  In (k, v) (arp_writes output) -> mac_text v /\ v <> zero_mac.
Proof.
  unfold arp_writes, entries_of. intros H.
  apply in_app_or in H as [H|H]; apply filter_In in H as [H Hnz];
    apply negb_true_iff, bool_decide_eq_false_1 in Hnz; simpl in Hnz;
    (split; [|exact Hnz]);
    apply in_map_iff in H as (caps & Heq & H); injection Heq as <- <-;
    apply exec_all_in in H as (pos1 & pos2 & H).
  - apply win_group2 in H as [Hl Ha]. apply norm_win_text; assumption.
  - apply unix_group2 in H as [Hl Ha]. apply norm_unix_text; assumption.
Qed.

(** ** Name resolution and enrichment *)

Lemma bind_returns {A B} (m : M A) (f : A -> M B) a b :
  returns m a -> returns (f a) b -> returns (bind m f) b.
Proof.
  intros [t ->] [t' H]. exists (t ++ t'). unfold bind. rewrite H. reflexivity.
Qed.

Lemma ret_returns {A} (a : A) : returns (ret a) a.
Proof. exists []. reflexivity. Qed.

Create HintDb scanner.
#[local] Hint Resolve ret_returns : scanner.

Lemma first_group_truthy re text n : first_group re text = Some n -> truthy n = true.
Proof.
  unfold first_group. destruct (exec re (start_of text)) as [[caps pos]|]; [|discriminate].
  destruct (truthy (group 1 caps)) eqn:E; [|discriminate]. intros H. injection H as <-. exact E.
Qed.

(** [getDeviceName] returns a string that is never empty, and only asks
    for the lease file and the UPnP description. *)
Lemma getDeviceName_truthy P ip :
  exists t n, getDeviceName P ip = (t, Return n) /\ truthy n = true
              /\ incl t [ReadLeases ip; Fetch ip].
Proof.
  unfold getDeviceName.
  pose proof (first_group_truthy (leaseRegex ip)) as H1.
  pose proof (first_group_truthy friendlyNameRegex) as H2.
  revert H1 H2.
  generalize (first_group (leaseRegex ip)) as f1.
  generalize (first_group friendlyNameRegex) as f2.
  intros f2 f1 H1 H2.
  assert (Hincl : forall t : list Event,
             (t = [ReadLeases ip] \/ t = [ReadLeases ip; Fetch ip]) ->
             incl t [ReadLeases ip; Fetch ip]).
  { intros t [->| ->] e He; simpl in *; tauto. }
  (* the name is on the table: it is truthy and the log is one of the two *)
  assert (Hdone : forall (t : list Event) (n : jsstring),
             truthy n = true ->
             (t = [ReadLeases ip] \/ t = [ReadLeases ip; Fetch ip]) ->
             exists t' n', (t, Return n) = (t', Return n') /\ truthy n' = true
                           /\ incl t' [ReadLeases ip; Fetch ip]).
  { intros t n Hn Ht. exists t, n. auto. }
  destruct (dhclient_leases P) as [leases|]; cbn.
  - specialize (H1 leases). destruct (f1 leases) as [n|]; cbn.
    + apply Hdone; eauto.
    + destruct (fetch_description P ip) as [|[] [text|]]; cbn;
        try (apply Hdone; auto).
      specialize (H2 text). destruct (f2 text) as [n|]; cbn; apply Hdone; eauto.
  - destruct (fetch_description P ip) as [|[] [text|]]; cbn;
      try (apply Hdone; auto).
    specialize (H2 text). destruct (f2 text) as [n|]; cbn; apply Hdone; eauto.
Qed.

Lemma or_else_truthy (a b : M (list N)) t n :
  a = (t, Return n) -> truthy n = true -> or_else a b = (t, Return n).
Proof.
  intros -> H. unfold or_else, bind. rewrite H. cbn. rewrite app_nil_r. reflexivity.
Qed.

(** The later resolvers are never reached. *)
Lemma name_chain P ip :
  or_else (getDeviceName P ip)
    (or_else (resolveMdnsName P ip)
       (or_else (resolveNetbiosName P ip) (resolveDnsName P ip)))
  = getDeviceName P ip.
Proof.
  destruct (getDeviceName_truthy P ip) as (t & n & E & Hn & _).
  rewrite E. apply or_else_truthy; [reflexivity|assumption].
Qed.

Lemma enrichDevice_eq db P ifn d :
  enrichDevice db P ifn d = (fst (getDeviceName P (fst d)), Return (device_of db P ifn d)).
Proof.
  destruct d as [ip mac]. unfold enrichDevice. rewrite name_chain.
  unfold device_of, device_name, value_of.
  destruct (getDeviceName_truthy P ip) as (t & n & E & _ & _).
  simpl fst. rewrite E. cbn. rewrite app_nil_r. reflexivity.
Qed.

Lemma enrichDevices_eq db P devices ifn :
  enrichDevices db P devices ifn
  = (flat_map (fun d => fst (getDeviceName P (fst d))) devices,
     Return (List.map (device_of db P ifn) devices)).
Proof.
  induction devices as [|d devices IH]; [reflexivity|].
  cbn [enrichDevices]. rewrite enrichDevice_eq, IH. cbn.
  rewrite app_nil_r. reflexivity.
Qed.

(** ** The prober and the orchestrator *)

Lemma await_all_fulfilled batch :
  forallb is_fulfilled batch = true ->
  await_all batch = ([AwaitAll (length batch)], Return tt).
Proof. intros H. unfold await_all. rewrite H. reflexivity. Qed.

Lemma probed_all P ips : probes_start P ips = true -> probed P ips = ips.
Proof.
  induction ips as [|target ips IH]; [reflexivity|]. cbn [probes_start forallb probed].
  intros H. apply andb_true_iff in H as [H1 H2]. rewrite H1. f_equal. apply IH. exact H2.
Qed.

(** The loop of the prober, whether it returns or throws: its log reads
    as windows of [BATCH_SIZE], from the [length batch] probes outstanding
    at its start to the [k] outstanding at its end. *)
Lemma ping_loop_spec P ips batch :
  forallb is_fulfilled batch = true -> length batch < BATCH_SIZE ->
  exists log k,
    targets log = probed P ips
    /\ k <= BATCH_SIZE
    /\ (forall tail, windows BATCH_SIZE (length batch) (log ++ tail)
                     = windows BATCH_SIZE k tail)
    /\ if probes_start P ips
       then exists rest, ping_loop P ips batch = (log, Return rest)
                         /\ forallb is_fulfilled rest = true
                         /\ length rest = k /\ k < BATCH_SIZE
       else ping_loop P ips batch = (log, Throw).
Proof.
  revert batch. induction ips as [|targetIp ips IH]; intros batch Hall Hlen.
  - exists [], (length batch). repeat split; auto; [lia|]. exists batch. auto.
  - cbn [ping_loop probes_start forallb probed]. unfold command_output.
    destruct (ping P targetIp) as [|code stdout]; cbn [started andb].
    + exists [Ping targetIp], (S (length batch)). repeat split; auto.
      intros tail. cbn [app windows].
      destruct (Nat.leb_spec (S (length batch)) BATCH_SIZE); [reflexivity|lia].
    + cbn [bind emit ret fst snd app]. unfold then_ignore, catch_ignore.
      set (batch' := batch ++ [Fulfilled]).
      assert (Hall' : forallb is_fulfilled batch' = true).
      { unfold batch'. rewrite forallb_app, Hall. reflexivity. }
      assert (Hlen' : length batch' = S (length batch)).
      { unfold batch'. rewrite length_app. simpl. lia. }
      destruct (Nat.leb_spec BATCH_SIZE (length batch')) as [Hfull|Hroom].
      * destruct (IH [] eq_refl ltac:(unfold BATCH_SIZE; simpl; lia))
          as (log & k & Ht & Hk & Hw & Hout).
        rewrite await_all_fulfilled by assumption. cbn [bind fst snd app].
        exists (Ping targetIp :: AwaitAll (length batch') :: log), k.
        split; [simpl; rewrite Ht; reflexivity|]. split; [exact Hk|]. split.
        -- intros tail. cbn [app windows].
           assert (Hb : length batch' = BATCH_SIZE) by lia.
           rewrite Hb, <- Hlen', Hb.
           rewrite Nat.leb_refl, Nat.eqb_refl. cbn [andb orb].
           change (0 <? BATCH_SIZE) with true. cbn [andb]. apply Hw.
        -- fold (probes_start P ips). destruct (probes_start P ips).
           ++ destruct Hout as (rest & E & Hr & Hl & Hlt). rewrite E.
              exists rest. auto.
           ++ rewrite Hout. reflexivity.
      * destruct (IH batch' Hall' Hroom) as (log & k & Ht & Hk & Hw & Hout).
        exists (Ping targetIp :: log), k.
        split; [simpl; rewrite Ht; reflexivity|]. split; [exact Hk|]. split.
        -- intros tail. cbn [app windows].
           destruct (Nat.leb_spec (S (length batch)) BATCH_SIZE); [|lia].
           rewrite <- Hlen'. apply Hw.
        -- fold (probes_start P ips). destruct (probes_start P ips).
           ++ destruct Hout as (rest & E & Hr & Hl & Hlt). rewrite E.
              exists rest. auto.
           ++ rewrite Hout. reflexivity.
Qed.

(** [pingSubnet] returns when every probe starts and throws otherwise; in
    both cases its log reads as windows. *)
Lemma pingSubnet_spec P ip netmask :
  exists log k,
    pingSubnet P ip netmask
    = (log, if probes_start P (calculateSubnet ip netmask) then Return tt else Throw)
    /\ targets log = probed P (calculateSubnet ip netmask)
    /\ windows BATCH_SIZE 0 log = Some k
    /\ (probes_start P (calculateSubnet ip netmask) = true -> k = 0).
Proof.
  unfold pingSubnet.
  destruct (ping_loop_spec P (calculateSubnet ip netmask) [] eq_refl
              ltac:(unfold BATCH_SIZE; simpl; lia))
    as (log & k & Ht & Hk & Hw & Hout).
  destruct (probes_start P (calculateSubnet ip netmask)).
  - destruct Hout as (rest & E & Hr & Hl & Hlt). rewrite E. cbn [bind].
    destruct (Nat.ltb_spec 0 (length rest)) as [Hpos|Hzero].
    + rewrite await_all_fulfilled by assumption. cbn [fst snd].
      exists (log ++ [AwaitAll (length rest)]), 0. split; [reflexivity|]. split; [|split].
      * unfold targets in *. rewrite flat_map_app, Ht. simpl. apply app_nil_r.
      * change 0 with (length (@nil promise)) at 1.
        rewrite (Hw [AwaitAll (length rest)]). rewrite <- Hl. cbn [windows].
        rewrite Nat.eqb_refl. destruct (Nat.ltb_spec 0 (length rest)); [|lia].
        cbn. rewrite orb_true_r. reflexivity.
      * reflexivity.
    + exists log, 0. cbn. rewrite app_nil_r. split; [reflexivity|]. split; [assumption|].
      split; [|reflexivity].
      specialize (Hw []). rewrite app_nil_r in Hw.
      change (windows BATCH_SIZE 0 log) with (windows BATCH_SIZE (length (@nil promise)) log).
      rewrite Hw. cbn [windows]. f_equal. lia.
  - rewrite Hout. cbn [bind]. exists log, k. split; [reflexivity|]. split; [assumption|].
    split; [|discriminate].
    specialize (Hw []). rewrite app_nil_r in Hw.
    change (windows BATCH_SIZE 0 log) with (windows BATCH_SIZE (length (@nil promise)) log).
    rewrite Hw. reflexivity.
Qed.

Lemma getArpCache_eq P : getArpCache P = ([ArpRead], Return (arp_entries P)).
Proof. unfold getArpCache, arp_entries. destruct (arp P); reflexivity. Qed.

Lemma filterSubnetDevices_eq arpCache networkIp netmask :
  filterSubnetDevices arpCache networkIp netmask
  = List.filter (fun e => in_subnet (ipToNumber networkIp) (ipToNumber netmask) (fst e)) arpCache.
Proof.
  unfold filterSubnetDevices. rewrite <- (map_id (List.filter _ arpCache)) at 2.
  apply map_ext. intros [k v]. reflexivity.
Qed.

(** One round of the loop of [scan]: its log and its outcome. *)
Lemma scan_interface_log W options db n iface :
  scan_interface W options db n iface
  = if skipped_by_filter options iface || negb (is_IPv4 iface) then ([], Return [])
    else
      let devices := filterSubnetDevices (arp_entries (pass W n))
                       (if_address iface) (if_netmask iface) in
      let probes := fst (pingSubnet (pass W n) (if_address iface) (if_netmask iface)) in
      if probes_start (pass W n) (calculateSubnet (if_address iface) (if_netmask iface))
      then (probes ++ ArpRead
              :: flat_map (fun d => fst (getDeviceName (pass W n) (fst d))) devices,
            Return (List.map (device_of db (pass W n) (if_name iface)) devices))
      else (probes, Throw).
Proof.
  unfold scan_interface.
  destruct (skipped_by_filter options iface); [reflexivity|].
  destruct (is_IPv4 iface); cbn [negb orb]; [|reflexivity].
  destruct (pingSubnet_spec (pass W n) (if_address iface) (if_netmask iface))
    as (log & k & E & _).
  rewrite E. cbv zeta. cbn [fst].
  destruct (probes_start (pass W n) (calculateSubnet (if_address iface) (if_netmask iface)));
    [|reflexivity].
  rewrite getArpCache_eq. cbn [bind fst snd app].
  destruct (Nat.eqb_spec (length (arp_entries (pass W n))) 0) as [Hz|Hnz].
  - destruct (arp_entries (pass W n)); [|discriminate]. reflexivity.
  - set (devs := filterSubnetDevices _ _ _).
    destruct (Nat.eqb_spec (length devs) 0) as [Hz'|Hnz'].
    + destruct devs; [|discriminate]. reflexivity.
    + rewrite enrichDevices_eq. reflexivity.
Qed.

Lemma scan_interface_outcome W options db n iface :
  snd (scan_interface W options db n iface)
  = if round_completes W options n iface
    then Return (interface_devices W options db n iface)
    else Throw.
Proof.
  rewrite scan_interface_log. unfold round_completes, interface_devices.
  destruct (skipped_by_filter options iface || negb (is_IPv4 iface)); [reflexivity|].
  cbv zeta. cbn [orb].
  destruct (probes_start (pass W n) (calculateSubnet (if_address iface) (if_netmask iface)));
    reflexivity.
Qed.

Lemma scan_loop_outcome W options db n ifs results :
  snd (scan_loop W options db n ifs results)
  = if scan_completes W options n ifs
    then Return (results ++ devices_from W options db n ifs)
    else Throw.
Proof.
  revert n results. induction ifs as [|iface ifs IH]; intros n results.
  - cbn. rewrite app_nil_r. reflexivity.
  - cbn [scan_loop devices_from scan_completes].
    pose proof (scan_interface_outcome W options db n iface) as H.
    destruct (scan_interface W options db n iface) as [t [enriched|]]; cbn [snd] in H;
      destruct (round_completes W options n iface); try discriminate; cbn [bind snd andb].
    + injection H as ->. rewrite IH, app_assoc. reflexivity.
    + reflexivity.
Qed.

Lemma loadOuiDatabase_eq W :
  loadOuiDatabase W = ([ReadOuis], Return (table_of W None)).
Proof. unfold table_of, value_of, loadOuiDatabase. destruct (ouis_json W); reflexivity. Qed.

(** What a scan leaves in the static and how it ends. *)
Lemma scan_outcome W options ouiDatabase :
  fst (scan W options ouiDatabase) = Some (table_of W ouiDatabase)
  /\ snd (snd (scan W options ouiDatabase))
     = match networkInterfaces W with
       | None => Throw
       | Some ifs =>
           if scan_completes W options 0 ifs
           then Return (devices_from W options (Some (table_of W ouiDatabase)) 0 ifs)
           else Throw
       end.
Proof.
  unfold scan. cbn [fst snd].
  destruct ouiDatabase as [db|]; [|rewrite loadOuiDatabase_eq];
    cbn [table_of ret bind fst snd]; (split; [reflexivity|]);
    (destruct (networkInterfaces W) as [ifs|]; cbn [bind ret throw fst snd]; [|reflexivity]);
    rewrite scan_loop_outcome; reflexivity.
Qed.

Lemma scan_returns W options ouiDatabase ifs :
  networkInterfaces W = Some ifs -> scan_completes W options 0 ifs = true ->
  returns (snd (scan W options ouiDatabase))
          (devices_from W options (Some (table_of W ouiDatabase)) 0 ifs).
Proof.
  intros Hifs Hc. destruct (scan_outcome W options ouiDatabase) as [_ H].
  rewrite Hifs, Hc in H. destruct (snd (scan W options ouiDatabase)) as [t c].
  cbn [snd] in H. subst c. exists t. reflexivity.
Qed.

(** A scan that returns has got past every round, and returns what the
    interfaces contribute. *)
Lemma scan_result W options ouiDatabase ifs t devices :
  networkInterfaces W = Some ifs ->
  snd (scan W options ouiDatabase) = (t, Return devices) ->
  scan_completes W options 0 ifs = true
  /\ devices = devices_from W options (Some (table_of W ouiDatabase)) 0 ifs.
Proof.
  intros Hifs Hs. destruct (scan_outcome W options ouiDatabase) as [_ H].
  rewrite Hifs, Hs in H. cbn [snd] in H.
  destruct (scan_completes W options 0 ifs); [|discriminate].
  injection H as ->. auto.
Qed.

Lemma scan_throws W options ouiDatabase :
  networkInterfaces W = None -> snd (snd (scan W options ouiDatabase)) = Throw.
Proof.
  intros Hifs. destruct (scan_outcome W options ouiDatabase) as [_ H].
  rewrite Hifs in H. exact H.
Qed.

(** ** Formatting hardware addresses *)

Lemma is_hex_upper_ascii c : is_hex_upper c = true -> (c < 128)%N.
Proof. class_bounds. Qed.

Lemma hex_upper_facts c :
  is_hex_upper c = true ->
  is_line_terminator c = false /\ (c =? 58)%N = false /\ upper_cu c = c.
Proof.
  intros H. pose proof (is_hex_upper_ascii c H) as Hc.
  assert (Hall : negb (is_line_terminator c) && negb (c =? 58)%N && (upper_cu c =? c)%N = true)
    by (by_ascii_cases H Hc is_hex_upper
          (fun c => negb (is_line_terminator c) && negb (c =? 58)%N && (upper_cu c =? c)%N)).
  clear Hc. rename Hall into Hc.
  apply andb_true_iff in Hc as [Hc H3]. apply andb_true_iff in Hc as [H1 H2].
  apply negb_true_iff in H1, H2. apply N.eqb_eq in H3. auto.
Qed.

Lemma m_rep_zero p st s : m_rep p 0 (Some 0) st s = [(st, s)].
Proof. destruct s; simpl; [reflexivity|]. rewrite andb_false_r. reflexivity. Qed.

Lemma exec_pair prev a b rest :
  is_line_terminator a = false -> is_line_terminator b = false ->
  exec pairsRegex (prev, a :: b :: rest) = Some ([(0, [a; b])], (Some b, rest)).
Proof.
  intros Ha Hb. unfold exec, pairsRegex. cbn [fst snd search m_items m_item flat_map].
  cbn [m_rep]. rewrite Ha, Hb. cbn [negb andb can_take option_map Nat.pred].
  rewrite m_rep_zero. reflexivity.
Qed.

Lemma exec_pairs_end prev : exec pairsRegex (prev, []) = None.
Proof. reflexivity. Qed.

Lemma formatMac_canonical m :
  canonical_mac m = true -> formatMac (toUpperCase (remove_cu 58 m)) = m.
Proof.
  intros H. unfold canonical_mac in H.
  do 17 (destruct m as [|? m]; [discriminate|]). destruct m; [|discriminate].
  apply andb_true_iff in H as [Hh Hs].
  cbn [forallb] in Hh, Hs.
  repeat match goal with
         | H : _ && _ = true |- _ => apply andb_true_iff in H as [? ?]
         | H : (_ =? 58)%N = true |- _ => apply N.eqb_eq in H; subst
         | H : is_hex_upper _ = true |- _ => apply hex_upper_facts in H as (? & ? & ?)
         end.
  unfold remove_cu. cbn [List.filter].
  repeat match goal with H : (_ =? 58)%N = false |- _ => rewrite H; clear H end.
  cbn [negb N.eqb Pos.eqb List.filter].
  unfold toUpperCase. cbn [List.map].
  repeat match goal with H : upper_cu _ = _ |- _ => rewrite H; clear H end.
  unfold formatMac, match_all, start_of. cbn [length exec_all].
  repeat (rewrite exec_pair by assumption; cbn [exec_all]).
  rewrite exec_pairs_end. reflexivity.
Qed.

(** ** The pipeline *)

Section Membership.
Local Open Scope Z_scope.

Lemma lor_int32 a b : ToInt32 a = a -> ToInt32 b = b -> ToInt32 (Z.lor a b) = Z.lor a b.
Proof.
  intros Ha Hb. rewrite <- js_or_spec. unfold js_or. rewrite Ha, Hb. reflexivity.
Qed.

Lemma int32_of_number_int32 x : ToInt32 (int32_of_number x) = int32_of_number x.
Proof. destruct x; simpl; [apply ToInt32_idem|reflexivity]. Qed.

Lemma ipToNumber_int32 s : ToInt32 (ipToNumber s) = ipToNumber s.
Proof.
  unfold ipToNumber. generalize (split 46 s) as l.
  assert (H0 : ToInt32 0 = 0) by reflexivity. revert H0. generalize 0 as acc.
  intros acc Hacc l. revert acc Hacc.
  induction l as [|o l IH]; intros acc Hacc; simpl; [exact Hacc|].
  apply IH. apply lor_int32; [apply ToInt32_idem|apply int32_of_number_int32].
Qed.

Lemma js_and_ip a b : js_and (ipToNumber a) (ipToNumber b) = Z.land (ipToNumber a) (ipToNumber b).
Proof. unfold js_and. rewrite !ipToNumber_int32. reflexivity. Qed.

Lemma in_subnet_spec network mask s :
  in_subnet (ipToNumber network) (ipToNumber mask) s = true
  <-> Z.land (ipToNumber s) (ipToNumber mask) = Z.land (ipToNumber network) (ipToNumber mask).
Proof. unfold in_subnet. rewrite !js_and_ip. apply Z.eqb_eq. Qed.

End Membership.

Lemma devices_from_in W options db n ifs d :
  In d (devices_from W options db n ifs) ->
  exists k iface, nth_error ifs k = Some iface
                  /\ In d (interface_devices W options db (n + k) iface).
Proof.
  revert n. induction ifs as [|iface ifs IH]; intros n H; simpl in H; [destruct H|].
  apply in_app_or in H as [H|H].
  - exists 0, iface. rewrite Nat.add_0_r. auto.
  - apply IH in H as (k & iface' & Hk & Hin). exists (S k), iface'.
    rewrite Nat.add_succ_r. auto.
Qed.

Lemma interface_devices_in W options db n iface d :
  In d (interface_devices W options db n iface) ->
  skipped_by_filter options iface = false /\ if_family iface = IPv4
  /\ exists e, In e (arp_entries (pass W n))
               /\ in_subnet (ipToNumber (if_address iface)) (ipToNumber (if_netmask iface)) (fst e) = true
               /\ d = device_of db (pass W n) (if_name iface) e.
Proof.
  unfold interface_devices.
  destruct (skipped_by_filter options iface); [intros []|].
  unfold is_IPv4. destruct (if_family iface); cbn [negb orb]; [|intros []].
  intros H. split; [reflexivity|]. split; [reflexivity|].
  apply in_map_iff in H as (e & <- & H).
  rewrite filterSubnetDevices_eq in H. apply filter_In in H as [H1 H2]. eauto.
Qed.

Lemma arp_entries_in P k v :
  In (k, v) (arp_entries P) -> mac_text v /\ v <> zero_mac.
Proof.
  unfold arp_entries. destruct (arp P); [intros []|].
  intros H. apply parseArpOutput_in in H. eapply arp_writes_in. exact H.
Qed.

(** C2, as amended.  Every device that a scan returns comes from an entry
    [(ip, m)] of the neighbour map read for one of the interfaces: its
    [interface] is that interface's name; its [ip] lies in the interface's
    subnet, [ip & mask = address & mask] on the numbers that [ipToNumber]
    reads; the address [m] has 17 code units among [0-9A-F:] and is not
    [00:00:00:00:00:00]; the device's [mac] is [formatMac] of [m] without
    its colons.  When [m] is six pairs of hexadecimal digits separated by
    colons, the device's [mac] is [m] itself: well formed, uppercase and
    not the zero address. *)
Theorem scan_devices_invariant W options ouiDatabase ifs t devices d :
  networkInterfaces W = Some ifs ->
  snd (scan W options ouiDatabase) = (t, Return devices) ->
  In d devices ->
  device_invariant W ifs d.
Proof.
  intros Hifs Hscan Hin.
  destruct (scan_result W options ouiDatabase ifs t devices Hifs Hscan) as [_ ->].
  apply devices_from_in in Hin as (k & iface & Hk & Hin). simpl in Hin.
  apply interface_devices_in in Hin as (_ & _ & [ipa m] & He & Hsub & ->).
  pose proof (arp_entries_in _ _ _ He) as [[Hl Ha] Hnz].
  exists k, iface, m. simpl.
  repeat split; auto.
  - apply in_subnet_spec. exact Hsub.
  - intros Hc. apply formatMac_canonical. exact Hc.
Qed.

(** ** The claims on examples and in general *)

(** C1 (the code departs from the claim).  In a world where the lease
    file cannot be read, the UPnP fetch fails, and the PTR lookup answers
    [host.example.com.], the claim expects the name [host.example.com].
    The code gives [Unknown]: [getDeviceName] returns the text [Unknown]
    after its two failures, that text is truthy, so the chain of [||] in
    [enrichDevices] ends there and asks neither mDNS, NetBIOS nor the
    reverse DNS (the log holds the lease read and the fetch only), although
    [resolveDnsName] alone would return [host.example.com]. *)
Theorem name_chain_stops_after_getDeviceName db ifn ipa hw o :
  enrichDevice db (pass_with_arp o) ifn (ipa, hw)
  = ([ReadLeases ipa; Fetch ipa],
     Return {| ip := ipa;
               mac := formatMac (toUpperCase (remove_cu 58 hw));
               interface := ifn;
               vendor := vendor_of db (slice0 6 (toUpperCase (remove_cu 58 hw)));
               name := js "Unknown" |})
  /\ resolveDnsName (pass_with_arp o) ipa = ([ResolveDns ipa], Return (js "host.example.com")).
Proof.
  split; [|reflexivity].
  rewrite enrichDevice_eq. reflexivity.
Qed.

(** C2 fails as stated.  In a world where every [ping] starts, the
    neighbour-table line [192.168.1.2 000000000000:::::] has 17 code units
    of the class of [winRegex] and is not the zero address as text, so it
    enters the map; without its colons and regrouped in pairs it is the
    all-zero address, which the scan returns after its two probes. *)
Lemma zero_address_in_scan_output :
  snd (scan (world_pinging (Exited 0 (js "192.168.1.2 000000000000:::::"))) no_options None)
  = ([ReadOuis; Ping (js "192.168.1.1"); Ping (js "192.168.1.2"); AwaitAll 2; ArpRead;
      ReadLeases (js "192.168.1.2"); Fetch (js "192.168.1.2")],
     Return [ {| ip := js "192.168.1.2";
                 mac := js "00:00:00:00:00:00";
                 interface := js "eth0";
                 vendor := js "Unknown";
                 name := js "Unknown" |} ]).
Proof. vm_compute. reflexivity. Qed.

(** A scan of [eth0] with one neighbour, in a world where every [ping]
    starts. *)
Lemma scan_devices_invariant_witness :
  snd (scan (world_pinging (Exited 0 (js "192.168.1.2 aa-bb-cc-dd-ee-ff"))) no_options None)
  = ([ReadOuis; Ping (js "192.168.1.1"); Ping (js "192.168.1.2"); AwaitAll 2; ArpRead;
      ReadLeases (js "192.168.1.2"); Fetch (js "192.168.1.2")],
     Return [ {| ip := js "192.168.1.2";
                 mac := js "AA:BB:CC:DD:EE:FF";
                 interface := js "eth0";
                 vendor := js "Acme Corp";
                 name := js "Unknown" |} ])
  /\ device_invariant (world_pinging (Exited 0 (js "192.168.1.2 aa-bb-cc-dd-ee-ff"))) [eth0]
       {| ip := js "192.168.1.2";
          mac := js "AA:BB:CC:DD:EE:FF";
          interface := js "eth0";
          vendor := js "Acme Corp";
          name := js "Unknown" |}.
Proof.
  split; [vm_compute; reflexivity|].
  apply (scan_devices_invariant
           (world_pinging (Exited 0 (js "192.168.1.2 aa-bb-cc-dd-ee-ff"))) no_options None
           [eth0]
           [ReadOuis; Ping (js "192.168.1.1"); Ping (js "192.168.1.2"); AwaitAll 2; ArpRead;
            ReadLeases (js "192.168.1.2"); Fetch (js "192.168.1.2")]
           [ {| ip := js "192.168.1.2";
                mac := js "AA:BB:CC:DD:EE:FF";
                interface := js "eth0";
                vendor := js "Acme Corp";
                name := js "Unknown" |} ]).
  - reflexivity.
  - vm_compute. reflexivity.
  - left. reflexivity.
Defined.

(** C3 fails as stated: for a /24 the generator yields 254 addresses, from
    host .1 to host .254, not 253. *)
Lemma slash24_has_254_hosts :
  length (calculateSubnet (js "192.168.1.1") (js "255.255.255.0")) = 254
  /\ length (calculateSubnet (js "192.168.1.1") (js "255.255.255.0")) <> 253
  /\ hd_error (calculateSubnet (js "192.168.1.1") (js "255.255.255.0")) = Some (js "192.168.1.1")
  /\ List.last (calculateSubnet (js "192.168.1.1") (js "255.255.255.0")) [] = js "192.168.1.254".
Proof. vm_compute. repeat split; try reflexivity. discriminate. Qed.

(** C5.  For an interface address [a.b.c.d] and a netmask [m1.m2.m3.m4]
    (octets) and every neighbour map, [filterSubnetDevices] keeps an
    entry whose key is a dotted quad [x.y.z.w] exactly when
    [(ip & mask) = (address & mask)] on the 32-bit numbers of the three
    dotted quads, [x * 2^24 + y * 2^16 + z * 2^8 + w] and the like; the
    result is the map's entries that pass the test of the code, in their
    order and unchanged, for keys of any form.  With the interface
    10.0.0.1 and the mask 255.255.255.0 the entry 10.0.0.5 is kept and
    the entries 10.0.1.5, 11.0.0.5 and 200.0.0.5 are dropped. *)
Theorem filterSubnetDevices_spec arpCache a b c d m1 m2 m3 m4 :
  octet a -> octet b -> octet c -> octet d ->
  octet m1 -> octet m2 -> octet m3 -> octet m4 ->
  let address := ipv4 a b c d in
  let netmask := ipv4 m1 m2 m3 m4 in
  (forall x y z w hw,
      octet x -> octet y -> octet z -> octet w ->
      (In (ipv4 x y z w, hw) (filterSubnetDevices arpCache address netmask)
       <-> In (ipv4 x y z w, hw) arpCache
           /\ Z.land (u32 x y z w) (u32 m1 m2 m3 m4)
              = Z.land (u32 a b c d) (u32 m1 m2 m3 m4)))
  /\ filterSubnetDevices arpCache address netmask
     = List.filter (fun e => (Z.land (ipToNumber (fst e)) (ipToNumber netmask)
                              =? Z.land (ipToNumber address) (ipToNumber netmask))%Z) arpCache
  /\ (forall hw1 hw2 hw3 hw4,
        filterSubnetDevices
          [(js "10.0.0.5", hw1); (js "10.0.1.5", hw2); (js "11.0.0.5", hw3); (js "200.0.0.5", hw4)]
          (js "10.0.0.1") (js "255.255.255.0")
        = [(js "10.0.0.5", hw1)]).
Proof.
  intros Ha Hb Hc Hd Hm1 Hm2 Hm3 Hm4 address netmask. split; [|split].
  - intros x y z w hw Hx Hy Hz Hw.
    rewrite filterSubnetDevices_eq, filter_In. cbn [fst].
    unfold address, netmask. rewrite in_subnet_spec.
    rewrite !ipToNumber_ipv4 by assumption.
    pose proof (u32_range x y z w Hx Hy Hz Hw) as Rx.
    pose proof (u32_range a b c d Ha Hb Hc Hd) as Ra.
    pose proof (u32_range m1 m2 m3 m4 Hm1 Hm2 Hm3 Hm4) as Rm.
    change (Z.land (ToInt32 ?u) (ToInt32 ?v)) with (js_and u v).
    rewrite !js_and_spec.
    split; intros [Hin Heq]; (split; [exact Hin|]).
    + apply ToInt32_inj; [apply land_range; lia|apply land_range; lia|exact Heq].
    + rewrite Heq. reflexivity.
  - rewrite filterSubnetDevices_eq. apply filter_ext. intros e.
    unfold in_subnet. rewrite !js_and_ip. reflexivity.
  - intros hw1 hw2 hw3 hw4. rewrite filterSubnetDevices_eq.
    cbn [List.filter fst].
    replace (in_subnet (ipToNumber (js "10.0.0.1")) (ipToNumber (js "255.255.255.0")) (js "10.0.0.5"))
      with true by (vm_compute; reflexivity).
    replace (in_subnet (ipToNumber (js "10.0.0.1")) (ipToNumber (js "255.255.255.0")) (js "10.0.1.5"))
      with false by (vm_compute; reflexivity).
    replace (in_subnet (ipToNumber (js "10.0.0.1")) (ipToNumber (js "255.255.255.0")) (js "11.0.0.5"))
      with false by (vm_compute; reflexivity).
    replace (in_subnet (ipToNumber (js "10.0.0.1")) (ipToNumber (js "255.255.255.0")) (js "200.0.0.5"))
      with false by (vm_compute; reflexivity).
    reflexivity.
Qed.

(** The filter of 10.0.0.1 with the mask 255.255.255.0 on a map with the
    keys 10.0.0.5 and 11.0.0.5: the first is kept, and the second is not,
    since the numbers differ under the mask. *)
Lemma filterSubnetDevices_spec_witness :
  (In (ipv4 10 0 0 5, js "AA:BB:CC:DD:EE:FF")
      (filterSubnetDevices [(ipv4 10 0 0 5, js "AA:BB:CC:DD:EE:FF");
                            (ipv4 11 0 0 5, js "11:22:33:44:55:66")]
         (ipv4 10 0 0 1) (ipv4 255 255 255 0))
   <-> In (ipv4 10 0 0 5, js "AA:BB:CC:DD:EE:FF")
          [(ipv4 10 0 0 5, js "AA:BB:CC:DD:EE:FF"); (ipv4 11 0 0 5, js "11:22:33:44:55:66")]
       /\ Z.land (u32 10 0 0 5) (u32 255 255 255 0) = Z.land (u32 10 0 0 1) (u32 255 255 255 0))
  /\ (In (ipv4 11 0 0 5, js "11:22:33:44:55:66")
         (filterSubnetDevices [(ipv4 10 0 0 5, js "AA:BB:CC:DD:EE:FF");
                               (ipv4 11 0 0 5, js "11:22:33:44:55:66")]
            (ipv4 10 0 0 1) (ipv4 255 255 255 0))
      <-> In (ipv4 11 0 0 5, js "11:22:33:44:55:66")
             [(ipv4 10 0 0 5, js "AA:BB:CC:DD:EE:FF"); (ipv4 11 0 0 5, js "11:22:33:44:55:66")]
          /\ Z.land (u32 11 0 0 5) (u32 255 255 255 0) = Z.land (u32 10 0 0 1) (u32 255 255 255 0)).
Proof.
  pose proof (filterSubnetDevices_spec
                [(ipv4 10 0 0 5, js "AA:BB:CC:DD:EE:FF"); (ipv4 11 0 0 5, js "11:22:33:44:55:66")]
                10 0 0 1 255 255 255 0) as H.
  cbv zeta in H.
  destruct H as [H _]; try (unfold octet; lia).
  split; apply H; unfold octet; lia.
Defined.

(** C6 fails as stated: a table entry whose organization name is the empty
    string is a hit, and the vendor is [Unknown], not that name. *)
Lemma empty_name_hit_yields_unknown :
  (<[js "AABBCC" := []]> (∅ : gmap (list N) (list N))) !! js "AABBCC" = Some []
  /\ snd (enrichDevice (Some (<[js "AABBCC" := []]> ∅)) (pass_with_arp SpawnError) (js "eth0")
            (js "192.168.1.2", js "AA:BB:CC:11:22:33"))
     = Return {| ip := js "192.168.1.2";
                 mac := js "AA:BB:CC:11:22:33";
                 interface := js "eth0";
                 vendor := js "Unknown";
                 name := js "Unknown" |}.
Proof. split; vm_compute; reflexivity. Qed.

(** C6, as amended.  For every hardware address and every table, the
    enrichment of a device returns, and the vendor is found under the first
    6 code units of the address without its colons and in upper case: a
    hit with a name that is not empty yields that name, a hit with the
    empty name or a miss yields [Unknown].  With [AABBCC] mapped to
    [Acme Corp] the address [AA:BB:CC:11:22:33] resolves to [Acme Corp];
    with no entry for [FFFFFF] an address with that prefix resolves to
    [Unknown]. *)
Theorem vendor_resolution (db : gmap (list N) (list N)) P ifn ipa hw :
  (exists t d,
      enrichDevice (Some db) P ifn (ipa, hw) = (t, Return d)
      /\ vendor d = match db !! slice0 6 (toUpperCase (remove_cu 58 hw)) with
                    | Some v => if truthy v then v else js "Unknown"
                    | None => js "Unknown"
                    end)
  /\ vendor_of (Some (<[js "AABBCC" := js "Acme Corp"]> ∅))
       (slice0 6 (toUpperCase (remove_cu 58 (js "AA:BB:CC:11:22:33")))) = js "Acme Corp"
  /\ (db !! js "FFFFFF" = None ->
      vendor_of (Some db) (slice0 6 (toUpperCase (remove_cu 58 (js "FF:FF:FF:11:22:33"))))
      = js "Unknown").
Proof.
  split; [|split].
  - rewrite enrichDevice_eq. do 2 eexists. split; [reflexivity|]. reflexivity.
  - vm_compute. reflexivity.
  - intros H. change (slice0 6 (toUpperCase (remove_cu 58 (js "FF:FF:FF:11:22:33"))))
      with (js "FFFFFF"). unfold vendor_of. rewrite H. reflexivity.
Qed.

(** When [arp -a] exits abnormally (here with code 1) after printing an
    entry of the subnet, the scan returns that device: the exit code is
    not looked at. *)
Lemma abnormal_exit_is_not_inspected :
  arp (pass (world_pinging (Exited 1 (js "192.168.1.2 aa-bb-cc-dd-ee-ff"))) 0)
  = Exited 1 (js "192.168.1.2 aa-bb-cc-dd-ee-ff")
  /\ snd (snd (scan (world_pinging (Exited 1 (js "192.168.1.2 aa-bb-cc-dd-ee-ff"))) no_options None))
     = Return [ {| ip := js "192.168.1.2";
                   mac := js "AA:BB:CC:DD:EE:FF";
                   interface := js "eth0";
                   vendor := js "Acme Corp";
                   name := js "Unknown" |} ].
Proof. split; vm_compute; reflexivity. Qed.

Lemma interface_devices_empty W options db n iface :
  skipped_by_filter options iface = true
  \/ if_family iface = IPv6
  \/ arp (pass W n) = SpawnError
  \/ arp_entries (pass W n) = [] ->
  interface_devices W options db n iface = [].
Proof.
  unfold interface_devices. intros [H|[H|[H|H]]].
  - rewrite H. reflexivity.
  - unfold is_IPv4. rewrite H. rewrite orb_true_r. reflexivity.
  - unfold arp_entries. rewrite H. unfold filterSubnetDevices. simpl.
    destruct (_ || _); reflexivity.
  - rewrite H. unfold filterSubnetDevices. simpl. destruct (_ || _); reflexivity.
Qed.

Lemma devices_from_empty W options db n ifs :
  (forall k iface, nth_error ifs k = Some iface ->
                   interface_devices W options db (n + k) iface = []) ->
  devices_from W options db n ifs = [].
Proof.
  revert n. induction ifs as [|iface ifs IH]; intros n H; simpl; [reflexivity|].
  rewrite (IH (S n)).
  - specialize (H 0 iface eq_refl). rewrite Nat.add_0_r in H. rewrite H. reflexivity.
  - intros k iface' Hk. specialize (H (S k) iface' Hk).
    rewrite Nat.add_succ_r in H. exact H.
Qed.

Lemma round_completes_skipped W options n iface :
  skipped_by_filter options iface = true \/ if_family iface = IPv6 ->
  round_completes W options n iface = true.
Proof.
  unfold round_completes, is_IPv4. intros [-> | ->]; [reflexivity|].
  cbn [negb]. rewrite orb_true_r. reflexivity.
Qed.

Lemma scan_completes_all W options n ifs :
  (forall k iface, nth_error ifs k = Some iface -> round_completes W options (n + k) iface = true) ->
  scan_completes W options n ifs = true.
Proof.
  revert n. induction ifs as [|iface ifs IH]; intros n H; [reflexivity|].
  cbn [scan_completes]. apply andb_true_iff. split.
  - specialize (H 0 iface eq_refl). rewrite Nat.add_0_r in H. exact H.
  - apply IH. intros k iface' Hk. specialize (H (S k) iface' Hk).
    rewrite Nat.add_succ_r in H. exact H.
Qed.

Lemma probes_start_false P ips target :
  In target ips -> ping P target = SpawnError -> probes_start P ips = false.
Proof.
  intros Hin Hp. destruct (probes_start P ips) eqn:E; [|reflexivity].
  unfold probes_start in E. rewrite forallb_forall in E. specialize (E target Hin).
  rewrite Hp in E. discriminate.
Qed.

Lemma scan_completes_false W options n ifs k iface target :
  nth_error ifs k = Some iface ->
  skipped_by_filter options iface = false -> if_family iface = IPv4 ->
  In target (calculateSubnet (if_address iface) (if_netmask iface)) ->
  ping (pass W (n + k)) target = SpawnError ->
  scan_completes W options n ifs = false.
Proof.
  revert n k. induction ifs as [|iface0 ifs IH]; intros n k Hk Hs Hf Hin Hp.
  - destruct k; discriminate.
  - cbn [scan_completes]. destruct k as [|k]; cbn [nth_error] in Hk.
    + injection Hk as ->. rewrite Nat.add_0_r in Hp.
      unfold round_completes, is_IPv4. rewrite Hs, Hf. cbn [negb orb].
      rewrite (probes_start_false _ _ _ Hin Hp). reflexivity.
    + rewrite Nat.add_succ_r in Hp. rewrite (IH (S n) k Hk Hs Hf Hin Hp).
      apply andb_false_r.
Qed.

(** C7 (the code departs from the claim).  In a world where no command
    can be started, neither [ping] nor [arp], the claim expects the empty
    array.  The scan throws at its first probe: the call of [output] for
    [ping] stands in no [try] and throws before [catch] is attached.  In
    general, with the interfaces enumerated, a scan returns exactly when,
    for every interface that it does not skip, [ping] can be started for
    every address of the subnet; it throws as soon as one cannot.  The
    other cases of the claim hold of the code: an interface that the
    filter skips or that is not IPv4 is not probed at all, so that a scan
    where no interface matches returns the empty array; and when the
    probes start, an interface whose neighbour-table utility cannot be
    launched or whose neighbour cache is empty contributes no device and
    the scan goes on.  An abnormal exit of the utility is a second
    departure: the exit code is not looked at, the output is parsed like
    any other, and a neighbour printed before the exit is returned where
    the claim expects no device. *)
Theorem scan_empty_outcomes :
  snd (scan (world_with_arp SpawnError) no_options None)
  = ([ReadOuis; Ping (js "192.168.1.1")], Throw)
  /\ (forall W options ouiDatabase ifs,
        networkInterfaces W = Some ifs ->
        snd (snd (scan W options ouiDatabase))
        = if scan_completes W options 0 ifs
          then Return (devices_from W options (Some (table_of W ouiDatabase)) 0 ifs)
          else Throw)
  /\ (forall W options ifs n iface target,
        nth_error ifs n = Some iface ->
        skipped_by_filter options iface = false -> if_family iface = IPv4 ->
        In target (calculateSubnet (if_address iface) (if_netmask iface)) ->
        ping (pass W n) target = SpawnError ->
        scan_completes W options 0 ifs = false)
  /\ (forall W options ouiDatabase ifs,
        networkInterfaces W = Some ifs ->
        (forall n iface, nth_error ifs n = Some iface ->
           skipped_by_filter options iface = true \/ if_family iface = IPv6) ->
        exists t, snd (scan W options ouiDatabase) = (t, Return []))
  /\ (forall W options ouiDatabase ifs,
        networkInterfaces W = Some ifs ->
        scan_completes W options 0 ifs = true ->
        (forall n iface, nth_error ifs n = Some iface ->
           skipped_by_filter options iface = true
           \/ if_family iface = IPv6
           \/ arp (pass W n) = SpawnError
           \/ arp_entries (pass W n) = []) ->
        exists t, snd (scan W options ouiDatabase) = (t, Return []))
  /\ snd (snd (scan (world_pinging SpawnError) no_options None)) = Return []
  /\ snd (snd (scan (world_pinging (Exited 1 (js "192.168.1.2 aa-bb-cc-dd-ee-ff")))
                  no_options None))
     = Return [ {| ip := js "192.168.1.2";
                   mac := js "AA:BB:CC:DD:EE:FF";
                   interface := js "eth0";
                   vendor := js "Acme Corp";
                   name := js "Unknown" |} ].
Proof.
  split; [vm_compute; reflexivity|].
  split.
  { intros W options ouiDatabase ifs Hifs.
    destruct (scan_outcome W options ouiDatabase) as [_ H]. rewrite Hifs in H. exact H. }
  split.
  { intros W options ifs n iface target Hn Hs Hf Hin Hp.
    eapply (scan_completes_false W options 0 ifs n); eassumption. }
  assert (Hempty : forall W options ouiDatabase ifs,
             networkInterfaces W = Some ifs ->
             scan_completes W options 0 ifs = true ->
             (forall n iface, nth_error ifs n = Some iface ->
                skipped_by_filter options iface = true
                \/ if_family iface = IPv6
                \/ arp (pass W n) = SpawnError
                \/ arp_entries (pass W n) = []) ->
             exists t, snd (scan W options ouiDatabase) = (t, Return [])).
  { intros W options ouiDatabase ifs Hifs Hc Hall.
    destruct (scan_returns W options ouiDatabase ifs Hifs Hc) as [t E].
    exists t. rewrite E. do 2 f_equal.
    apply devices_from_empty. intros k iface Hk. simpl.
    apply interface_devices_empty. apply Hall. exact Hk. }
  split.
  { intros W options ouiDatabase ifs Hifs Hall. apply Hempty with ifs; [exact Hifs| |].
    - apply scan_completes_all. intros k iface Hk. simpl.
      apply round_completes_skipped. apply Hall with k. exact Hk.
    - intros n iface Hn. destruct (Hall n iface Hn); auto. }
  split; [exact Hempty|].
  split; vm_compute; reflexivity.
Qed.

(** C8.  The parser never fails: for every text its two loops end by
    themselves (more fuel than the text is long changes nothing) and it
    returns a map; a text that neither pattern matches gives the empty
    map; the keys of the map are distinct; and the value under a key is the
    value of the last write to it, the writes of the second pattern coming
    after those of the first, so that when both patterns match the same IP
    the result is a single entry. *)
Theorem parseArpOutput_total output :
  (forall fuel, length output < fuel -> parseArpOutput_fuel fuel output = parseArpOutput output)
  /\ (exec winRegex (start_of output) = None ->
      exec unixRegex (start_of output) = None ->
      parseArpOutput output = [])
  /\ List.NoDup (List.map fst (parseArpOutput output))
  /\ (forall ipa, map_get ipa (parseArpOutput output) = last_write ipa (arp_writes output))
  /\ parseArpOutput (js "no neighbours here") = []
  /\ parseArpOutput both_patterns_example = [(js "1.2.3.4", js "11:22:33:44:55:66")].
Proof.
  split; [intros fuel; apply parseArpOutput_fuel_enough|].
  split.
  { intros H1 H2. unfold parseArpOutput, parseArpOutput_fuel. cbn [arp_loop].
    rewrite H1, H2. reflexivity. }
  split.
  { rewrite parseArpOutput_fold. apply fold_put_nodup. constructor. }
  split.
  { intros ipa. rewrite parseArpOutput_fold, fold_put_get.
    destruct (last_write ipa (arp_writes output)); reflexivity. }
  split; vm_compute; reflexivity.
Qed.

Lemma windows_awaits bound log :
  forall k r, k <= bound -> windows bound k log = Some r ->
  forall n, In (AwaitAll n) log -> 0 < n <= bound.
Proof.
  induction log as [|e log IH]; intros k r Hk H n Hin; [destruct Hin|].
  destruct e as [|tg|m| | | | | |]; cbn [windows] in H; try discriminate.
  - destruct (Nat.leb_spec (S k) bound); [|discriminate].
    destruct Hin as [Heq|Hin]; [discriminate|]. eapply IH; eauto.
  - destruct ((m =? k) && (0 <? m) && ((m =? bound) || is_nil log)) eqn:E; [|discriminate].
    destruct Hin as [Heq|Hin]; [|eapply (IH 0); eauto; lia].
    assert (m = n) by congruence. subst m.
    apply andb_true_iff in E as [E E3]. apply andb_true_iff in E as [E1 E2].
    apply Nat.eqb_eq in E1. apply Nat.ltb_lt in E2. lia.
Qed.

(** C9 (the code departs from the claim).  A probe whose command cannot
    be started does propagate: the call of [output] throws at once,
    outside any [try] and before [then] and [catch] are attached, so
    [pingSubnet] rejects at that probe; in the world where [ping] cannot
    be started it rejects at the first one.  For every candidate sequence
    and every world, [pingSubnet] returns exactly when every probe
    starts, whatever the exit codes; it then has probed every candidate
    once and in order.  In both cases its log reads as windows: at most
    50 probes are outstanding at any time, each [await] covers all the
    outstanding probes and comes when 50 are outstanding or at the very
    end, no probe of the next window starts before it, and when
    [pingSubnet] returns none is outstanding. *)
Theorem pingSubnet_windows :
  pingSubnet (pass_with_arp SpawnError) (js "192.168.1.1") (js "255.255.255.252")
  = ([Ping (js "192.168.1.1")], Throw)
  /\ forall P ipa netmask,
       exists log k,
         pingSubnet P ipa netmask
         = (log, if probes_start P (calculateSubnet ipa netmask) then Return tt else Throw)
         /\ targets log = probed P (calculateSubnet ipa netmask)
         /\ windows 50 0 log = Some k
         /\ (forall n, In (AwaitAll n) log -> 0 < n <= 50)
         /\ (probes_start P (calculateSubnet ipa netmask) = true ->
             k = 0 /\ targets log = calculateSubnet ipa netmask)
         /\ (forall target, In target (calculateSubnet ipa netmask) ->
                            ping P target = SpawnError ->
                            probes_start P (calculateSubnet ipa netmask) = false).
Proof.
  split; [vm_compute; reflexivity|].
  intros P ipa netmask.
  destruct (pingSubnet_spec P ipa netmask) as (log & k & E & Ht & Hw & Hk).
  exists log, k. split; [exact E|]. split; [exact Ht|]. split; [exact Hw|]. split; [|split].
  - intros n Hin. apply (windows_awaits BATCH_SIZE log 0 k); [lia|exact Hw|exact Hin].
  - intros Hs. split; [auto|]. rewrite Ht. apply probed_all. exact Hs.
  - intros target Hin Hp. eapply probes_start_false; eassumption.
Qed.

(** C10 fails as stated: the empty string is a filter that filters
    nothing, so the devices of [eth0] are returned although their
    [interface] is not the filter. *)
Lemma empty_filter_scans_every_interface :
  interfaceFilter filter_empty = Some []
  /\ snd (scan (world_pinging (Exited 0 (js "192.168.1.2 aa-bb-cc-dd-ee-ff"))) filter_empty None)
     = ([ReadOuis; Ping (js "192.168.1.1"); Ping (js "192.168.1.2"); AwaitAll 2; ArpRead;
         ReadLeases (js "192.168.1.2"); Fetch (js "192.168.1.2")],
        Return [ {| ip := js "192.168.1.2";
                    mac := js "AA:BB:CC:DD:EE:FF";
                    interface := js "eth0";
                    vendor := js "Acme Corp";
                    name := js "Unknown" |} ]).
Proof. split; vm_compute; reflexivity. Qed.

Lemma skipped_by_filter_false options iface f :
  skipped_by_filter options iface = false ->
  interfaceFilter options = Some f -> f <> [] -> if_name iface = f.
Proof.
  unfold skipped_by_filter. intros H Hopt Hf. rewrite Hopt in H.
  destruct f; [contradiction|]. cbn [truthy andb] in H.
  apply negb_false_iff, bool_decide_eq_true_1 in H. exact H.
Qed.

(** C10, as amended.  A scan that returns, returns the contributions of
    the enumerated interfaces in the order of enumeration; every device
    contributed by an interface has that interface's name as its
    [interface], and the interface is an IPv4 one; and when the scan is
    called with a filter [f] that is not the empty string, every returned
    device has [interface] equal to [f]. *)
Theorem scan_interface_field W options ouiDatabase ifs t devices :
  networkInterfaces W = Some ifs ->
  snd (scan W options ouiDatabase) = (t, Return devices) ->
  devices = devices_from W options (Some (table_of W ouiDatabase)) 0 ifs
  /\ (forall db n iface d,
        In d (interface_devices W options db n iface) ->
        interface d = if_name iface /\ if_family iface = IPv4)
  /\ (forall f d,
        interfaceFilter options = Some f -> f <> [] ->
        In d devices -> interface d = f).
Proof.
  intros Hifs Hscan.
  destruct (scan_result W options ouiDatabase ifs t devices Hifs Hscan) as [_ ->].
  split; [reflexivity|]. split.
  - intros db n iface d Hin.
    apply interface_devices_in in Hin as (_ & Hfam & e & _ & _ & ->). auto.
  - intros f d Hf Hne Hin.
    apply devices_from_in in Hin as (k & iface & Hk & Hin).
    apply interface_devices_in in Hin as (Hskip & _ & e & _ & _ & ->).
    simpl. eapply skipped_by_filter_false; eassumption.
Qed.

(** A scan of [eth0] under the filter [eth0], in a world where every
    [ping] starts: it returns one device, whose [interface] is the
    filter. *)
Lemma scan_interface_field_witness :
  snd (scan (world_pinging (Exited 0 (js "192.168.1.2 aa-bb-cc-dd-ee-ff"))) filter_eth0 None)
  = ([ReadOuis; Ping (js "192.168.1.1"); Ping (js "192.168.1.2"); AwaitAll 2; ArpRead;
      ReadLeases (js "192.168.1.2"); Fetch (js "192.168.1.2")],
     Return [ {| ip := js "192.168.1.2";
                 mac := js "AA:BB:CC:DD:EE:FF";
                 interface := js "eth0";
                 vendor := js "Acme Corp";
                 name := js "Unknown" |} ])
  /\ interfaceFilter filter_eth0 = Some (js "eth0")
  /\ [ {| ip := js "192.168.1.2";
       mac := js "AA:BB:CC:DD:EE:FF";
       interface := js "eth0";
       vendor := js "Acme Corp";
       name := js "Unknown" |} ]
  = devices_from (world_pinging (Exited 0 (js "192.168.1.2 aa-bb-cc-dd-ee-ff"))) filter_eth0
      (Some (table_of (world_pinging (Exited 0 (js "192.168.1.2 aa-bb-cc-dd-ee-ff"))) None))
      0 [eth0]
  /\ (forall db n iface d,
        In d (interface_devices (world_pinging (Exited 0 (js "192.168.1.2 aa-bb-cc-dd-ee-ff")))
                filter_eth0 db n iface) ->
        interface d = if_name iface /\ if_family iface = IPv4)
  /\ (forall f d,
        interfaceFilter filter_eth0 = Some f -> f <> [] ->
        In d [ {| ip := js "192.168.1.2";
                  mac := js "AA:BB:CC:DD:EE:FF";
                  interface := js "eth0";
                  vendor := js "Acme Corp";
                  name := js "Unknown" |} ] ->
        interface d = f).
Proof.
  split; [vm_compute; reflexivity|]. split; [reflexivity|].
  apply (scan_interface_field
           (world_pinging (Exited 0 (js "192.168.1.2 aa-bb-cc-dd-ee-ff"))) filter_eth0 None
           [eth0]
           [ReadOuis; Ping (js "192.168.1.1"); Ping (js "192.168.1.2"); AwaitAll 2; ArpRead;
            ReadLeases (js "192.168.1.2"); Fetch (js "192.168.1.2")]).
  - reflexivity.
  - vm_compute. reflexivity.
Defined.

(** ** Addresses and numbers, prefixes *)

Section AddressNumbers.
Local Open Scope Z_scope.

Lemma ipToNumber_range s : - 2 ^ 31 <= ipToNumber s < 2 ^ 31.
Proof. rewrite <- ipToNumber_int32. apply ToInt32_range. Qed.

Lemma dotted_quad_mod x : dotted_quad x = quad (x mod 2 ^ 32).
Proof.
  apply dotted_quad_quad; [|reflexivity].
  apply Z.mod_pos_bound. lia.
Qed.

Lemma ipToNumber_dotted_quad n : ipToNumber (dotted_quad n) = ToInt32 n.
Proof.
  rewrite dotted_quad_mod, ipToNumber_quad by (apply Z.mod_pos_bound; lia).
  apply ToInt32_mod.
Qed.

Lemma quad_u32 a b c d :
  octet a -> octet b -> octet c -> octet d -> quad (u32 a b c d) = ipv4 a b c d.
Proof.
  intros Ha Hb Hc Hd. unfold quad, u32, octet in *.
  f_equal; Z.div_mod_to_equations; lia.
Qed.

Lemma dotted_quad_ipToNumber a b c d :
  octet a -> octet b -> octet c -> octet d ->
  dotted_quad (ipToNumber (ipv4 a b c d)) = ipv4 a b c d.
Proof.
  intros Ha Hb Hc Hd. rewrite ipToNumber_ipv4 by assumption.
  rewrite dotted_quad_mod.
  change (ToInt32 (u32 a b c d) mod 2 ^ 32) with (ToUint32 (ToInt32 (u32 a b c d))).
  rewrite ToUint32_ToInt32. unfold ToUint32.
  rewrite Z.mod_small by (apply u32_range; assumption).
  apply quad_u32; assumption.
Qed.

(** X1.  [ipToNumber] and the expression that [calculateSubnet] yields
    with are inverse on dotted quads: for octets [a], [b], [c], [d] (each
    from 0 to 255) [ipToNumber] of the text [a.b.c.d] is the 32-bit number
    [a * 2^24 + b * 2^16 + c * 2^8 + d] read as a signed integer, so it
    is negative from [a = 128] on, and printing that number as the
    generator does gives the text [a.b.c.d] back. *)
Theorem ipToNumber_round_trip a b c d :
  octet a -> octet b -> octet c -> octet d ->
  ipToNumber (ipv4 a b c d)
  = (if a <? 128 then u32 a b c d else u32 a b c d - 2 ^ 32)
  /\ dotted_quad (ipToNumber (ipv4 a b c d)) = ipv4 a b c d.
Proof.
  intros Ha Hb Hc Hd. split; [|apply dotted_quad_ipToNumber; assumption].
  rewrite ipToNumber_ipv4 by assumption.
  rewrite ToInt32_unsigned by (apply u32_range; assumption).
  unfold u32, octet in *.
  destruct (Z.ltb_spec a 128); destruct (Z.ltb_spec (a * 2 ^ 24 + b * 2 ^ 16 + c * 2 ^ 8 + d) (2 ^ 31)); lia.
Qed.

Lemma ipToNumber_round_trip_witness :
  ipToNumber (ipv4 192 168 1 1) = u32 192 168 1 1 - 2 ^ 32
  /\ dotted_quad (ipToNumber (ipv4 192 168 1 1)) = ipv4 192 168 1 1.
Proof.
  apply (ipToNumber_round_trip 192 168 1 1); unfold octet; lia.
Defined.

(** X2.  [ipToNumber] always returns a signed 32-bit integer, whatever
    the string (no exception, no NaN); on the text that the generator
    prints for a number [n] it returns [n] wrapped to 32 bits, which is [n]
    itself when [n] is a signed 32-bit integer. *)
Theorem ipToNumber_int32_value :
  (forall s, - 2 ^ 31 <= ipToNumber s < 2 ^ 31)
  /\ (forall n, ipToNumber (dotted_quad n) = ToInt32 n)
  /\ (forall n, - 2 ^ 31 <= n < 2 ^ 31 -> ipToNumber (dotted_quad n) = n).
Proof.
  split; [apply ipToNumber_range|]. split; [apply ipToNumber_dotted_quad|].
  intros n Hn. rewrite ipToNumber_dotted_quad. apply ToInt32_small. exact Hn.
Qed.

(** Prefix masks *)
Lemma prefix_mask_shiftl k :
  0 <= k <= 32 -> 2 ^ 32 - 2 ^ k = Z.shiftl (Z.ones (32 - k)) k.
Proof.
  intros Hk. rewrite Z.ones_equiv, Z.shiftl_mul_pow2 by lia.
  rewrite <- Z.sub_1_r, Z.mul_sub_distr_r, <- Z.pow_add_r by lia.
  replace (32 - k + k) with 32 by lia. lia.
Qed.

Lemma land_prefix_mask x k :
  0 <= x < 2 ^ 32 -> 0 <= k <= 32 -> Z.land x (2 ^ 32 - 2 ^ k) = x - x mod 2 ^ k.
Proof.
  intros Hx Hk.
  assert (x - x mod 2 ^ k = Z.shiftl (Z.shiftr x k) k) as ->.
  { rewrite Z.shiftl_mul_pow2, Z.shiftr_div_pow2 by lia.
    pose proof (Z.div_mod x (2 ^ k) ltac:(lia)). lia. }
  rewrite prefix_mask_shiftl by lia.
  apply Z.bits_inj'. intros i Hi. rewrite Z.land_spec.
  destruct (Z.lt_ge_cases i k).
  - rewrite !Z.shiftl_spec_low by lia. apply andb_false_r.
  - rewrite !Z.shiftl_spec by lia. rewrite Z.shiftr_spec by lia.
    replace (i - k + k) with i by lia.
    destruct (Z.lt_ge_cases i 32).
    + rewrite Z.ones_spec_low by lia. apply andb_true_r.
    + rewrite Z.ones_spec_high by lia. rewrite andb_false_r.
      symmetry. destruct (Z.eq_dec x 0) as [->|]; [apply Z.bits_0|].
      apply Z.bits_above_log2; [lia|].
      apply Z.lt_le_trans with 32; [|lia]. apply Z.log2_lt_pow2; lia.
Qed.

Lemma lor_low_ones y k : 0 <= k -> Z.lor (Z.shiftl y k) (Z.ones k) = Z.shiftl y k + Z.ones k.
Proof.
  intros Hk. rewrite <- Z.lxor_lor, <- Z.add_nocarry_lxor; try reflexivity.
  all: apply Z.bits_inj'; intros i Hi; rewrite Z.land_spec, Z.bits_0.
  all: destruct (Z.lt_ge_cases i k).
  all: try (rewrite Z.shiftl_spec_low by lia; reflexivity).
  all: rewrite Z.ones_spec_high by lia; apply andb_false_r.
Qed.

Lemma nodup_zseq start len : List.NoDup (zseq start len).
Proof.
  revert start. induction len as [|len IH]; intros start; simpl; constructor.
  - rewrite in_zseq. lia.
  - apply IH.
Qed.

Lemma nodup_map_quad l :
  (forall n, In n l -> 0 <= n < 2 ^ 32) -> List.NoDup l -> List.NoDup (List.map quad l).
Proof.
  intros Hr Hn. induction Hn as [|x l Hx Hn IH]; simpl; constructor.
  - rewrite in_map_iff. intros [y [Hy Hin]].
    apply quad_inj in Hy; [subst; contradiction| |]; apply Hr; simpl; auto.
  - apply IH. intros n Hin. apply Hr. simpl. auto.
Qed.

Section Prefix.
Variables a b c d p : Z.
Hypotheses (Ha : octet a) (Hb : octet b) (Hc : octet c) (Hd : octet d).
Hypothesis Hp : 1 <= p <= 32.

Let k := 32 - p.
Let x := u32 a b c d.
Let net := x - x mod 2 ^ k.

Lemma prefix_mask_range : 2 ^ 31 <= prefix_mask p < 2 ^ 32.
Proof.
  unfold prefix_mask. fold k.
  assert (0 < 2 ^ k) by (apply Z.pow_pos_nonneg; unfold k; lia).
  assert (2 ^ k <= 2 ^ 31) by (apply Z.pow_le_mono_r; unfold k; lia).
  lia.
Qed.

Lemma prefix_mask_quad :
  exists m1 m2 m3 m4,
    quad (prefix_mask p) = ipv4 m1 m2 m3 m4
    /\ octet m1 /\ octet m2 /\ octet m3 /\ octet m4 /\ 128 <= m1
    /\ u32 m1 m2 m3 m4 = prefix_mask p.
Proof.
  pose proof prefix_mask_range as Hr. set (M := prefix_mask p) in *.
  exists (M / 2 ^ 24), (M / 2 ^ 16 mod 256), (M / 2 ^ 8 mod 256), (M mod 256).
  split; [reflexivity|]. unfold octet, u32.
  repeat split; Z.div_mod_to_equations; lia.
Qed.

Lemma prefix_network : network_of x (prefix_mask p) = net.
Proof.
  unfold network_of, prefix_mask. fold k. apply land_prefix_mask.
  - apply u32_range; assumption.
  - unfold k. lia.
Qed.

Lemma prefix_net_range : 0 <= net /\ net + 2 ^ k <= 2 ^ 32 /\ net mod 2 ^ k = 0.
Proof.
  pose proof (u32_range a b c d Ha Hb Hc Hd) as Hx. fold x in Hx.
  assert (Hk : 0 <= k <= 31) by (unfold k; lia).
  assert (H2 : 0 < 2 ^ k) by (apply Z.pow_pos_nonneg; lia).
  assert (H32 : 2 ^ 32 = 2 ^ k * 2 ^ (32 - k))
    by (rewrite <- Z.pow_add_r by lia; f_equal; lia).
  assert (0 < 2 ^ (32 - k)) by (apply Z.pow_pos_nonneg; lia).
  pose proof (Z.div_mod x (2 ^ k) ltac:(lia)) as Hdm.
  pose proof (Z.mod_pos_bound x (2 ^ k) H2) as Hmb.
  assert (Hnet : net = 2 ^ k * (x / 2 ^ k)) by (unfold net; lia).
  assert (0 <= x / 2 ^ k) by (apply Z.div_pos; lia).
  split; [rewrite Hnet; nia|]. split.
  - assert (x / 2 ^ k < 2 ^ (32 - k)).
    { apply Z.div_lt_upper_bound; lia. }
    rewrite Hnet, H32. nia.
  - rewrite Hnet, Z.mul_comm. apply Z_mod_mult.
Qed.

Lemma prefix_broadcast : broadcast_of x (prefix_mask p) = net + 2 ^ k - 1.
Proof.
  unfold broadcast_of. rewrite prefix_network.
  assert (Hk : 0 <= k <= 31) by (unfold k; lia).
  assert (complement32 (prefix_mask p) = Z.ones k) as ->.
  { unfold complement32, prefix_mask. fold k. rewrite Z.ones_equiv. lia. }
  assert (net = Z.shiftl (x / 2 ^ k) k) as Hs.
  { rewrite Z.shiftl_mul_pow2 by lia.
    pose proof (Z.div_mod x (2 ^ k)) as Hdm.
    assert (0 < 2 ^ k) by (apply Z.pow_pos_nonneg; lia).
    unfold net. lia. }
  rewrite Hs at 1. rewrite lor_low_ones by lia. rewrite <- Hs.
  rewrite Z.ones_equiv. lia.
Qed.

Lemma calculateSubnet_prefix_eq :
  calculateSubnet (ipv4 a b c d) (quad (prefix_mask p))
  = List.map quad (zseq (net + 1) (Z.to_nat (2 ^ k - 2))).
Proof.
  destruct prefix_mask_quad as (m1 & m2 & m3 & m4 & Hq & H1 & H2 & H3 & H4 & Htop & Hu).
  rewrite Hq, calculateSubnet_unsigned by assumption.
  rewrite Hu. fold x. rewrite prefix_broadcast, prefix_network.
  do 2 f_equal. lia.
Qed.

Lemma prefix_host_kept n :
  net <= n < net + 2 ^ k ->
  in_subnet (ipToNumber (ipv4 a b c d)) (ipToNumber (quad (prefix_mask p))) (quad n) = true.
Proof.
  intros Hn. pose proof prefix_net_range as (Hn0 & Hn1 & Hn2).
  pose proof prefix_mask_range as Hm.
  unfold in_subnet. apply Z.eqb_eq.
  rewrite !ipToNumber_quad by lia.
  rewrite ipToNumber_ipv4 by assumption. fold x.
  unfold js_and. rewrite !ToInt32_idem.
  change (Z.land (ToInt32 ?u) (ToInt32 ?v)) with (js_and u v).
  rewrite !js_and_spec. f_equal.
  assert (Hk : 0 <= k <= 32) by (unfold k; lia).
  unfold prefix_mask. fold k.
  rewrite !land_prefix_mask by (try (apply u32_range; assumption); lia).
  fold x. fold net.
  assert (H2 : 0 < 2 ^ k) by (apply Z.pow_pos_nonneg; lia).
  assert (n mod 2 ^ k = n - net); [|lia].
  symmetry. apply Z.mod_unique_pos with (net / 2 ^ k); [lia|].
  pose proof (Z.div_mod net (2 ^ k) ltac:(lia)). lia.
Qed.
End Prefix.

(** X3.  For an address [a.b.c.d] and the netmask of a prefix of [p]
    bits, [1 <= p <= 32], [calculateSubnet] yields [2^(32-p) - 2]
    addresses (none for [p] of 31 or 32), all different; each of them,
    once it stands in the neighbour map, is kept by [filterSubnetDevices]
    for the same address and mask; and the interface's own address is
    among them unless it is the first or the last address of the
    subnet. *)
Theorem calculateSubnet_prefix a b c d p :
  octet a -> octet b -> octet c -> octet d -> 1 <= p <= 32 ->
  let netmask := quad (prefix_mask p) in
  let hosts := calculateSubnet (ipv4 a b c d) netmask in
  length hosts = Z.to_nat (2 ^ (32 - p) - 2)
  /\ List.NoDup hosts
  /\ (forall h m, In h hosts ->
        filterSubnetDevices [(h, m)] (ipv4 a b c d) netmask = [(h, m)])
  /\ (0 < u32 a b c d mod 2 ^ (32 - p) < 2 ^ (32 - p) - 1 -> In (ipv4 a b c d) hosts).
Proof.
  intros Ha Hb Hc Hd Hp netmask hosts. unfold hosts, netmask.
  rewrite calculateSubnet_prefix_eq by assumption.
  pose proof (prefix_net_range a b c d p Ha Hb Hc Hd Hp) as (Hn0 & Hn1 & _).
  split; [rewrite length_map; apply length_zseq|]. split; [|split].
  - apply nodup_map_quad; [|apply nodup_zseq].
    intros n Hn. apply in_zseq in Hn. lia.
  - intros h m Hin. apply in_map_iff in Hin. destruct Hin as [n [<- Hn]].
    apply in_zseq in Hn. unfold filterSubnetDevices. cbn [List.filter fst].
    rewrite prefix_host_kept by (try assumption; lia). reflexivity.
  - intros Hown. rewrite <- quad_u32 by assumption. apply in_map.
    apply in_zseq. lia.
Qed.

Lemma calculateSubnet_prefix_witness :
  let netmask := quad (prefix_mask 26) in
  let hosts := calculateSubnet (ipv4 10 0 0 77) netmask in
  length hosts = Z.to_nat (2 ^ (32 - 26) - 2)
  /\ List.NoDup hosts
  /\ (forall h m, In h hosts ->
        filterSubnetDevices [(h, m)] (ipv4 10 0 0 77) netmask = [(h, m)])
  /\ (0 < u32 10 0 0 77 mod 2 ^ (32 - 26) < 2 ^ (32 - 26) - 1 -> In (ipv4 10 0 0 77) hosts).
Proof.
  apply (calculateSubnet_prefix 10 0 0 77 26); unfold octet; lia.
Defined.
End AddressNumbers.

(** ** The shape of a match *)

Lemma m_items_sound re st s st' s' :
  In (st', s') (m_items re st s) ->
  exists chunks,
    Forall2 takes re chunks /\ s = concat chunks ++ s' /\ st' = replay re chunks st.
Proof.
  revert st s. induction re as [|i re IH]; intros st s Hin; simpl in Hin.
  - destruct Hin as [Heq|[]]. injection Heq as <- <-. exists []. repeat split. constructor.
  - apply in_flat_map in Hin as ([st1 s1] & Hin1 & Hin). simpl in Hin.
    apply IH in Hin as (chunks & Hall & -> & ->).
    assert (exists chunk, takes i chunk /\ s = chunk ++ concat chunks ++ s'
                          /\ st1 = act i chunk st) as (chunk & Ht & -> & ->).
    { destruct i; simpl in Hin1.
      - destruct (at_bol st); [|destruct Hin1]. destruct Hin1 as [Heq|[]].
        injection Heq as <- <-. exists []. repeat split.
      - apply m_rep_in in Hin1 as (pre & -> & Hp & Hlo & Hhi & ->).
        exists pre. repeat split; assumption.
      - destruct Hin1 as [Heq|[]]. injection Heq as <- <-. exists []. repeat split.
      - destruct Hin1 as [Heq|[]]. injection Heq as <- <-. exists []. repeat split. }
    exists (chunk :: chunks). repeat split.
    + constructor; assumption.
    + simpl. rewrite <- app_assoc. reflexivity.
Qed.

Lemma exec_sound re pos caps pos' :
  exec re pos = Some (caps, pos') ->
  exists prev chunks,
    Forall2 takes re chunks /\ caps = ms_caps (replay re chunks (ms_init prev)).
Proof.
  unfold exec. intros H. apply search_some in H as (prev0 & s0 & st & Hin & -> & _).
  apply m_items_sound in Hin as (chunks & Hall & _ & ->). eauto.
Qed.

Lemma feeds_caps pre st : ms_caps (feeds pre st) = ms_caps st.
Proof.
  revert st. induction pre as [|c pre IH]; intros st; simpl; [reflexivity|].
  unfold feeds in IH. rewrite IH. reflexivity.
Qed.

Lemma takes_chr c chunk : takes (chr c) chunk -> chunk = [c].
Proof.
  intros (Hp & Hlo & Hhi). specialize (Hhi 1 eq_refl).
  destruct chunk as [|x [|y chunk]]; simpl in *; try lia.
  rewrite andb_true_r in Hp. apply N.eqb_eq in Hp. congruence.
Qed.

Lemma takes_plus p chunk : takes (plus p) chunk -> forallb p chunk = true /\ truthy chunk = true.
Proof.
  intros (Hp & Hlo & _). split; [assumption|]. destruct chunk; simpl in *; [lia|reflexivity].
Qed.

Lemma digits_no_dot s : forallb is_digit s = true -> forallb (fun c => negb (c =? 46)%N) s = true.
Proof.
  intros H. rewrite forallb_forall in *. intros c Hc. specialize (H c Hc).
  unfold is_digit, cu_in in H. apply andb_true_iff in H as [H1 H2].
  apply N.leb_le in H1. apply negb_true_iff, N.eqb_neq. lia.
Qed.

Lemma dotted_decimal d1 d2 d3 d4 :
  forallb is_digit d1 = true -> truthy d1 = true ->
  forallb is_digit d2 = true -> truthy d2 = true ->
  forallb is_digit d3 = true -> truthy d3 = true ->
  forallb is_digit d4 = true -> truthy d4 = true ->
  is_dotted_decimal (d1 ++ [46%N] ++ d2 ++ [46%N] ++ d3 ++ [46%N] ++ d4) = true.
Proof.
  intros H1 T1 H2 T2 H3 T3 H4 T4. unfold is_dotted_decimal, split. cbn [app].
  rewrite !split_acc_sep by (apply digits_no_dot; assumption).
  rewrite split_acc_nosep by (apply digits_no_dot; assumption).
  cbn [rev app forallb]. rewrite H1, H2, H3, H4, T1, T2, T3, T4. reflexivity.
Qed.

Ltac caps_step :=
  first [ rewrite feeds_caps | rewrite feeds_open
        | progress cbn [replay act open_group close_group ms_open ms_caps ms_prev
                        List.map fst snd group Nat.eqb app rev] ].

Ltac invert_takes :=
  repeat match goal with
         | H : Forall2 _ (_ :: _) _ |- _ => inversion H; subst; clear H
         | H : Forall2 _ [] _ |- _ => inversion H; subst; clear H
         end;
  repeat match goal with
         | H : takes (chr _) _ |- _ => apply takes_chr in H; subst
         | H : takes (plus is_digit) _ |- _ => apply takes_plus in H; destruct H
         | H : takes Bol _ |- _ => cbn in H; subst
         | H : takes (Open _) _ |- _ => cbn in H; subst
         | H : takes (Close _) _ |- _ => cbn in H; subst
         end.

Ltac list_normal :=
  repeat first [ rewrite rev_app_distr | rewrite rev_involutive | rewrite app_nil_r
               | rewrite <- app_assoc | progress cbn [rev app] ].

Lemma win_group1 pos caps pos' :
  exec winRegex pos = Some (caps, pos') -> is_dotted_decimal (group 1 caps) = true.
Proof.
  intros H. apply exec_sound in H as (prev & chunks & Hall & ->).
  unfold winRegex, re_ipv4 in *. cbn [app] in *.
  invert_takes. cbn [replay act]. unfold close_group.
  repeat caps_step. list_normal.
  apply dotted_decimal; assumption.
Qed.

Lemma unix_group1 pos caps pos' :
  exec unixRegex pos = Some (caps, pos') -> is_dotted_decimal (group 1 caps) = true.
Proof.
  intros H. apply exec_sound in H as (prev & chunks & Hall & ->).
  unfold unixRegex, re_ipv4 in *.
  change (lit "ether") with [chr 101; chr 116; chr 104; chr 101; chr 114] in *.
  cbn [app] in *.
  invert_takes. cbn [replay act]. unfold close_group.
  repeat caps_step. list_normal.
  apply dotted_decimal; assumption.
Qed.

Lemma arp_writes_key output k v :
  In (k, v) (arp_writes output) -> is_dotted_decimal k = true.
Proof.
  unfold arp_writes, entries_of. intros Hin.
  apply in_app_or in Hin as [Hin|Hin];
    apply filter_In in Hin as [Hin _];
    apply in_map_iff in Hin as (caps & Heq & Hin);
    apply exec_all_in in Hin as (pos1 & pos2 & Hex);
    injection Heq as <- _.
  - eapply win_group1; eassumption.
  - eapply unix_group1; eassumption.
Qed.

(** X4.  Every entry of the map that [parseArpOutput] returns has as its
    key four non-empty runs of decimal digits with a dot between them
    (the runs are not bounded: a key need not be a valid address), and as
    its value 17 code units out of [0-9A-F:] that the normalization of the
    parser leaves as they are: no lower-case letter and no hyphen is
    left. *)
Theorem parseArpOutput_shape output ipa hw :
  In (ipa, hw) (parseArpOutput output) ->
  is_dotted_decimal ipa = true
  /\ length hw = 17
  /\ forallb is_mac_upper hw = true
  /\ toUpperCase hw = hw
  /\ forallb (fun c => negb (c =? 45)%N) hw = true.
Proof.
  intros Hin. apply parseArpOutput_in in Hin.
  pose proof (arp_writes_key _ _ _ Hin) as Hk.
  apply arp_writes_in in Hin as [[Hl Hm] _].
  repeat split; try assumption.
  - unfold toUpperCase. rewrite <- (map_id hw) at 2. apply map_ext_in.
    intros c Hc. rewrite forallb_forall in Hm. specialize (Hm c Hc).
    revert Hm. unfold is_mac_upper, is_digit, upper_cu, cu_in.
    rewrite !orb_true_iff, !andb_true_iff, !N.leb_le, N.eqb_eq. intros Hm.
    destruct (N.leb_spec 97 c); [|reflexivity]. lia.
  - rewrite forallb_forall in *. intros c Hc. specialize (Hm c Hc).
    revert Hm. unfold is_mac_upper, is_digit, cu_in.
    rewrite !orb_true_iff, !andb_true_iff, !N.leb_le, N.eqb_eq, negb_true_iff, N.eqb_neq. lia.
Qed.

Lemma parseArpOutput_shape_witness :
  is_dotted_decimal (js "192.168.1.10") = true
  /\ length (js "AA:BB:CC:DD:EE:FF") = 17
  /\ forallb is_mac_upper (js "AA:BB:CC:DD:EE:FF") = true
  /\ toUpperCase (js "AA:BB:CC:DD:EE:FF") = js "AA:BB:CC:DD:EE:FF"
  /\ forallb (fun c => negb (c =? 45)%N) (js "AA:BB:CC:DD:EE:FF") = true.
Proof.
  apply (parseArpOutput_shape (js "192.168.1.10   aa-bb-cc-dd-ee-ff")).
  vm_compute. left. reflexivity.
Defined.

(** ** Lines of the neighbour table *)

(** *** Texts cut in two ways *)

(** A run [u] of a class at the head of a text that holds [x] at some
    place: the run ends before [x], or [x] is in the run. *)
Lemma peel (p : N -> bool) u R A0 x B :
  forallb p u = true -> u ++ R = A0 ++ x :: B ->
  (exists A1, A0 = u ++ A1 /\ R = A1 ++ x :: B)
  \/ (p x = true /\ exists u1 u2, u = u1 ++ x :: u2 /\ A0 = u1 /\ B = u2 ++ R).
Proof.
  revert A0. induction u as [|c u IH]; intros A0 Hp H.
  - left. exists A0. auto.
  - cbn [forallb] in Hp. apply andb_true_iff in Hp as [Hc Hp].
    destruct A0 as [|a A0]; cbn [app] in H; injection H as -> H.
    + right. split; [exact Hc|]. exists [], u. auto.
    + destruct (IH A0 Hp H) as [(A1 & -> & HR)|(Hx & u1 & u2 & -> & -> & HB)].
      * left. exists A1. auto.
      * right. split; [exact Hx|]. exists (a :: u1), u2. auto.
Qed.

(** Two runs of a class, each followed by a code unit outside the class,
    at the head of the same text. *)
Lemma span_eq (p : N -> bool) u v x y R R' :
  forallb p u = true -> forallb p v = true -> p x = false -> p y = false ->
  u ++ x :: R = v ++ y :: R' -> u = v /\ x = y /\ R = R'.
Proof.
  revert v. induction u as [|c u IH]; intros v Hu Hv Hx Hy H.
  - destruct v as [|d v]; cbn [app] in H; injection H as -> H; [auto|].
    cbn [forallb] in Hv. rewrite Hx in Hv. discriminate.
  - cbn [forallb] in Hu. apply andb_true_iff in Hu as [Hc Hu].
    destruct v as [|d v]; cbn [app] in H; injection H as -> H.
    + rewrite Hy in Hc. discriminate.
    + cbn [forallb] in Hv. apply andb_true_iff in Hv as [_ Hv].
      destruct (IH v Hu Hv Hx Hy H) as (-> & -> & ->). auto.
Qed.

Lemma app_same_length {A} (u v R R' : list A) :
  length u = length v -> u ++ R = v ++ R' -> u = v /\ R = R'.
Proof.
  revert v. induction u as [|c u IH]; intros [|d v] Hl H; try discriminate; [auto|].
  cbn [app] in H. injection H as -> H. injection Hl as Hl.
  destruct (IH v Hl H) as [-> ->]. auto.
Qed.

Lemma line_terminator_cases c :
  is_line_terminator c = true -> c = 10%N \/ c = 13%N \/ c = 8232%N \/ c = 8233%N.
Proof.
  unfold is_line_terminator. rewrite !orb_true_iff, !N.eqb_eq. tauto.
Qed.

(** A line terminator is white space, and no code unit of an address. *)
Lemma line_terminator_class c :
  is_line_terminator c = true ->
  is_space c = true /\ is_digit c = false /\ (c =? 46)%N = false
  /\ is_mac_win c = false /\ is_mac_unix c = false
  /\ forallb (fun x => negb (c =? x)%N) (js "ether") = true.
Proof.
  intros H. apply line_terminator_cases in H as [->|[->|[->| ->]]];
    vm_compute; repeat split; reflexivity.
Qed.

(** *** Where a line starts *)

Lemma feeds_prev q st :
  ms_prev (feeds q st) = match rev q with c :: _ => Some c | [] => ms_prev st end.
Proof.
  revert st. induction q as [|c q IH] using rev_ind; intros st; [reflexivity|].
  unfold feeds. rewrite fold_left_app, rev_app_distr. reflexivity.
Qed.

Lemma line_start_nil prev : line_start prev [] = at_bol (ms_init prev).
Proof. reflexivity. Qed.

Lemma line_start_cons prev c q : line_start prev (c :: q) = line_start (Some c) q.
Proof. reflexivity. Qed.

Lemma line_start_snoc prev q c : line_start prev (q ++ [c]) = is_line_terminator c.
Proof.
  unfold line_start, at_bol. rewrite feeds_prev, rev_app_distr. reflexivity.
Qed.

Lemma line_start_last prev c q :
  line_start prev (c :: q) = true ->
  exists A0 x, c :: q = A0 ++ [x] /\ is_line_terminator x = true.
Proof.
  intros H. destruct (exists_last (l := c :: q)) as (A0 & x & E); [discriminate|].
  exists A0, x. split; [exact E|]. rewrite E, line_start_snoc in H. exact H.
Qed.

Lemma search_eq re prev s :
  search re prev s
  = match m_items re (ms_init prev) s with
    | (st, rest) :: _ => Some (ms_caps st, (ms_prev st, rest))
    | [] => match s with [] => None | c :: s' => search re (Some c) s' end
    end.
Proof. destruct s; reflexivity. Qed.

(** *** A pattern that finds a line *)

Section LineSearch.
Variables (re : regex) (line key value : jsstring).

(** At the start of the line the pattern matches, and its preferred match
    ends with the line and holds [key] and [value]. *)
Hypothesis at_line : forall prev post,
  at_bol (ms_init prev) = true ->
  exists st l,
    m_items re (ms_init prev) (line ++ post) = (st, post) :: l
    /\ group 1 (ms_caps st) = key /\ group 2 (ms_caps st) = value.

(** A match that starts before the line ends before it, or is a match of
    the line. *)
Hypothesis before_line : forall prev A0 x post st rest,
  is_line_terminator x = true ->
  In (st, rest) (m_items re (ms_init prev) (A0 ++ x :: line ++ post)) ->
  (group 1 (ms_caps st) = key /\ group 2 (ms_caps st) = value /\ rest = post)
  \/ (exists A', rest = A' ++ x :: line ++ post /\ length A' < length A0).

Hypothesis no_empty_match : forall prev, m_items re (ms_init prev) [] = [].

Lemma search_line q : forall prev post,
  line_start prev q = true ->
  exists caps prev' rest,
    search re prev (q ++ line ++ post) = Some (caps, (prev', rest))
    /\ ((group 1 caps = key /\ group 2 caps = value /\ rest = post)
        \/ (exists q', rest = q' ++ line ++ post /\ length q' < length q
                       /\ line_start prev' q' = true)).
Proof.
  induction q as [|c q IH]; intros prev post Hs.
  - rewrite line_start_nil in Hs.
    destruct (at_line prev post Hs) as (st & l & E & Hk & Hv).
    cbn [app]. rewrite search_eq, E. eauto 10.
  - cbn [app]. rewrite search_eq.
    destruct (m_items re (ms_init prev) (c :: q ++ line ++ post)) as [|[st rest] l] eqn:E.
    + rewrite line_start_cons in Hs.
      destruct (IH (Some c) post Hs) as (caps & prev' & rest & Hsearch & [H|H]).
      * eauto 10.
      * destruct H as (q' & -> & Hl & Hs'). exists caps, prev', (q' ++ line ++ post).
        split; [exact Hsearch|]. right. exists q'. cbn [length]. auto with arith.
    + destruct (line_start_last prev c q Hs) as (A0 & x & Eq & Hx).
      assert (Hin : In (st, rest) (m_items re (ms_init prev) (A0 ++ x :: line ++ post))).
      { replace (A0 ++ x :: line ++ post) with (c :: q ++ line ++ post).
        - rewrite E. left. reflexivity.
        - change (c :: q ++ line ++ post) with ((c :: q) ++ line ++ post).
          rewrite Eq, <- app_assoc. reflexivity. }
      exists (ms_caps st), (ms_prev st), rest. split; [reflexivity|].
      destruct (before_line prev A0 x post st rest Hx Hin) as [H|(A' & -> & Hl)]; [auto|].
      right. exists (A' ++ [x]). split; [rewrite <- app_assoc; reflexivity|].
      split.
      * rewrite Eq, !length_app. cbn [length]. lia.
      * rewrite line_start_snoc. exact Hx.
Qed.

Lemma exec_all_end fuel prev : exec_all fuel re (prev, []) = [].
Proof.
  destruct fuel; [reflexivity|]. cbn [exec_all]. unfold exec. cbn [fst snd search].
  rewrite no_empty_match. reflexivity.
Qed.

Lemma exec_all_line n : forall q prev post fuel,
  length q <= n -> n < fuel -> line_start prev q = true ->
  exists l1 caps l2,
    exec_all fuel re (prev, q ++ line ++ post) = l1 ++ caps :: l2
    /\ group 1 caps = key /\ group 2 caps = value
    /\ (post = [] -> l2 = []).
Proof.
  induction n as [|n IH]; intros q prev post fuel Hq Hf Hs.
  - destruct fuel as [|fuel]; [lia|]. cbn [exec_all]. unfold exec. cbn [fst snd].
    destruct (search_line q prev post Hs) as (caps & prev' & rest & E & [H|H]).
    + rewrite E. destruct H as (Hk & Hv & ->). exists [], caps, (exec_all fuel re (prev', post)).
      repeat split; auto. intros ->. apply exec_all_end.
    + destruct H as (q' & _ & Hl & _). lia.
  - destruct fuel as [|fuel]; [lia|]. cbn [exec_all]. unfold exec. cbn [fst snd].
    destruct (search_line q prev post Hs) as (caps & prev' & rest & E & [H|H]).
    + rewrite E. destruct H as (Hk & Hv & ->). exists [], caps, (exec_all fuel re (prev', post)).
      repeat split; auto. intros ->. apply exec_all_end.
    + rewrite E. destruct H as (q' & -> & Hl & Hs').
      destruct (IH q' prev' post fuel ltac:(lia) ltac:(lia) Hs')
        as (l1 & caps' & l2 & E' & Hk & Hv & Hp).
      rewrite E'. exists (caps :: l1), caps', l2. auto.
Qed.

Lemma entries_of_line norm pre post :
  norm value <> zero_mac -> line_start None pre = true ->
  exists l1 l2,
    entries_of re norm (pre ++ line ++ post) = l1 ++ (key, norm value) :: l2
    /\ (post = [] -> l2 = []).
Proof.
  intros Hnz Hs. unfold entries_of, start_of.
  destruct (exec_all_line (length pre) pre None post
              (S (length (pre ++ line ++ post))) (le_n _)
              ltac:(rewrite length_app; lia) Hs)
    as (l1 & caps & l2 & E & Hk & Hv & Hp).
  rewrite E, map_app, List.filter_app. cbn [List.map List.filter].
  change (write_entry norm caps) with (group 1 caps, norm (group 2 caps)).
  rewrite Hk, Hv. cbn [snd].
  destruct (bool_decide (norm value = zero_mac)) eqn:Eb;
    [apply bool_decide_eq_true_1 in Eb; contradiction|].
  cbn [negb]. eexists _, _. split; [reflexivity|].
  intros Hpost. rewrite (Hp Hpost). reflexivity.
Qed.

End LineSearch.

(** *** The two patterns of the parser on the two lines *)

Lemma peel_cons (c : N) R A0 x B :
  c :: R = A0 ++ x :: B -> (c =? x)%N = false ->
  exists A1, A0 = c :: A1 /\ R = A1 ++ x :: B.
Proof.
  intros H Hc. destruct A0 as [|a A0]; cbn [app] in H; injection H as -> H.
  - rewrite N.eqb_refl in Hc. discriminate.
  - exists A0. auto.
Qed.

Lemma forallb_app_r {A} (p : A -> bool) u v : forallb p (u ++ v) = true -> forallb p v = true.
Proof. rewrite forallb_app. intros H. apply andb_true_iff in H. tauto. Qed.

Lemma win_at_line prev post :
  at_bol (ms_init prev) = true ->
  exists st l,
    m_items winRegex (ms_init prev) (win_line ++ post) = (st, post) :: l
    /\ group 1 (ms_caps st) = js "192.168.1.10"
    /\ group 2 (ms_caps st) = js "aa-bb-cc-dd-ee-ff".
Proof.
  intros H.
  let l := eval vm_compute in win_line in change win_line with l.
  unfold winRegex, re_ipv4. cbn [app m_items m_item]. rewrite H.
  cbn. rewrite m_rep_zero. cbn.
  eexists _, _. split; [reflexivity|]. split; reflexivity.
Qed.

Lemma win_no_empty_match prev : m_items winRegex (ms_init prev) [] = [].
Proof.
  unfold winRegex, re_ipv4. cbn [app m_items m_item].
  destruct (at_bol (ms_init prev)); reflexivity.
Qed.

Ltac takes_rep H :=
  let Hp := fresh "Hp" in let Hlo := fresh "Hlo" in let Hhi := fresh "Hhi" in
  destruct H as (Hp & Hlo & Hhi).

Lemma win_before_line prev A0 x post st rest :
  is_line_terminator x = true ->
  In (st, rest) (m_items winRegex (ms_init prev) (A0 ++ x :: win_line ++ post)) ->
  (group 1 (ms_caps st) = js "192.168.1.10"
   /\ group 2 (ms_caps st) = js "aa-bb-cc-dd-ee-ff" /\ rest = post)
  \/ (exists A', rest = A' ++ x :: win_line ++ post /\ length A' < length A0).
Proof.
  intros Hx Hin.
  destruct (line_terminator_class x Hx) as (Xs & Xd & Xdot & Xw & _ & _).
  apply m_items_sound in Hin as (chunks & Hall & E & ->).
  unfold winRegex, re_ipv4 in *. cbn [app] in *.
  invert_takes.
  repeat match goal with
         | H : takes (star _) _ |- _ => takes_rep H
         | H : takes (plus _) _ |- _ => takes_rep H
         | H : takes (Rep _ _ _) _ |- _ => takes_rep H
         end.
  cbn [concat app] in E. rewrite ?app_nil_r in E.
  repeat (rewrite <- app_assoc in E || rewrite <- app_comm_cons in E).
  symmetry in E.
  match goal with
  | |- (group 1 (ms_caps ?s) = _ /\ _) \/ _ =>
      assert (G1 : group 1 (ms_caps s) = y2 ++ 46%N :: y4 ++ 46%N :: y6 ++ 46%N :: y8)
        by (cbn [replay act]; unfold close_group; repeat caps_step; list_normal; reflexivity);
      assert (G2 : group 2 (ms_caps s) = y12)
        by (cbn [replay act]; unfold close_group; repeat caps_step; list_normal; reflexivity);
      rewrite G1, G2; clear G1 G2
  end.
  assert (Hline : forall u R, forallb is_space u = true -> win_line ++ post = u ++ R ->
                              win_line ++ post = R).
  { intros u R Hu HR. destruct u as [|c u]; [exact HR|].
    cbn [forallb] in Hu. apply andb_true_iff in Hu as [Hc _].
    injection HR as <- _. discriminate Hc. }
  (* the white space before the address *)
  apply peel with (p := is_space) in E as [(A1 & -> & E)|(_ & u1 & u2 & -> & -> & E)];
    [| |assumption].
  2: { left. apply forallb_app_r in Hp. cbn [forallb] in Hp.
       apply andb_true_iff in Hp as [_ Hp]. apply Hline in E; [|exact Hp].
       clear Hline.
       let l := eval vm_compute in win_line in change win_line with l in E.
       cbn [app] in E. symmetry in E.
       apply (span_eq is_digit y2 [49; 57; 50]%N) in E as (-> & _ & E);
         [|assumption|reflexivity|reflexivity|reflexivity].
       apply (span_eq is_digit y4 [49; 54; 56]%N) in E as (-> & _ & E);
         [|assumption|reflexivity|reflexivity|reflexivity].
       apply (span_eq is_digit y6 [49]%N) in E as (-> & _ & E);
         [|assumption|reflexivity|reflexivity|reflexivity].
       destruct y10 as [|s0 y10]; [cbn in Hlo0; lia|].
       cbn [forallb] in Hp0. apply andb_true_iff in Hp0 as [Hs0 Hp0].
       assert (Ds0 : is_digit s0 = false).
       { destruct (is_digit s0) eqn:D; [|reflexivity].
         assert (Hc : implb (is_digit s0) (negb (is_space s0)) = true).
         { apply (ascii_cases (fun c => implb (is_digit c) (negb (is_space c))));
             [vm_compute; reflexivity|].
           unfold is_digit, cu_in in D. apply andb_true_iff in D as [_ D].
           apply N.leb_le in D. lia. }
         rewrite D, Hs0 in Hc. discriminate. }
       cbn [app] in E.
       apply (span_eq is_digit y8 [49; 48]%N) in E as (-> & -> & E);
         [|assumption|reflexivity|exact Ds0|reflexivity].
       destruct y12 as [|m0 y12]; [cbn in Hlo1; lia|].
       cbn [forallb] in Hp1. apply andb_true_iff in Hp1 as [Hm0 Hp1].
       assert (Sm0 : is_space m0 = false).
       { destruct (is_space m0) eqn:D; [|reflexivity].
         pose proof (is_mac_win_ascii m0 Hm0) as Hm.
         assert (Hc : implb (is_mac_win m0) (negb (is_space m0)) = true).
         { apply (ascii_cases (fun c => implb (is_mac_win c) (negb (is_space c))));
             [vm_compute; reflexivity|exact Hm]. }
         rewrite Hm0, D in Hc. discriminate. }
       cbn [app] in E.
       apply (span_eq is_space y10 [32; 32]%N) in E as (-> & -> & E);
         [|assumption|reflexivity|exact Sm0|reflexivity].
       specialize (Hhi1 17 eq_refl). cbn [length] in Hlo1, Hhi1.
       apply (app_same_length y12 (js "a-bb-cc-dd-ee-ff")) in E as [-> ->];
         [|change (length (js "a-bb-cc-dd-ee-ff")) with 16; lia].
       repeat split; reflexivity. }
  right. rewrite N.eqb_sym in Xdot.
  apply peel with (p := is_digit) in E as [(A2 & -> & E)|(Hc & _)];
    [|rewrite Xd in Hc; discriminate|assumption].
  apply peel_cons in E as (A3 & -> & E); [|exact Xdot].
  apply peel with (p := is_digit) in E as [(A4 & -> & E)|(Hc & _)];
    [|rewrite Xd in Hc; discriminate|assumption].
  apply peel_cons in E as (A5 & -> & E); [|exact Xdot].
  apply peel with (p := is_digit) in E as [(A6 & -> & E)|(Hc & _)];
    [|rewrite Xd in Hc; discriminate|assumption].
  apply peel_cons in E as (A7 & -> & E); [|exact Xdot].
  apply peel with (p := is_digit) in E as [(A8 & -> & E)|(Hc & _)];
    [|rewrite Xd in Hc; discriminate|assumption].
  apply peel with (p := is_space) in E as [(A9 & -> & E)|(_ & u1 & u2 & -> & -> & E)];
    [| |assumption].
  2: { exfalso. apply forallb_app_r in Hp0. cbn [forallb] in Hp0.
       apply andb_true_iff in Hp0 as [_ Hp0]. apply Hline in E; [|exact Hp0].
       do 4 (destruct y12 as [|? y12]; [cbn in Hlo1; lia|]).
       injection E as <- <- <- <- _. discriminate Hp1. }
  apply peel with (p := is_mac_win) in E as [(A' & -> & E)|(Hc & _)];
    [|rewrite Xw in Hc; discriminate|assumption].
  exists A'. split; [exact E|].
  repeat (rewrite length_app || cbn [length]). lia.
Qed.

Lemma win_line_entry pre post :
  line_start None pre = true ->
  exists l1 l2,
    entries_of winRegex norm_win (pre ++ win_line ++ post)
    = l1 ++ (js "192.168.1.10", js "AA:BB:CC:DD:EE:FF") :: l2
    /\ (post = [] -> l2 = []).
Proof.
  intros Hs.
  apply (entries_of_line winRegex win_line (js "192.168.1.10") (js "aa-bb-cc-dd-ee-ff")
           win_at_line win_before_line win_no_empty_match norm_win pre post);
    [|exact Hs].
  vm_compute. discriminate.
Qed.

Lemma unix_at_line prev post :
  at_bol (ms_init prev) = true ->
  exists st l,
    m_items unixRegex (ms_init prev) (unix_line ++ post) = (st, post) :: l
    /\ group 1 (ms_caps st) = js "192.168.1.20"
    /\ group 2 (ms_caps st) = js "a1:b2:c3:d4:e5:f6".
Proof.
  intros H.
  let l := eval vm_compute in unix_line in change unix_line with l.
  unfold unixRegex, re_ipv4.
  change (lit "ether") with [chr 101; chr 116; chr 104; chr 101; chr 114].
  cbn [app m_items m_item]. rewrite H.
  cbn. rewrite m_rep_zero. cbn.
  eexists _, _. split; [reflexivity|]. split; reflexivity.
Qed.

Lemma unix_no_empty_match prev : m_items unixRegex (ms_init prev) [] = [].
Proof.
  unfold unixRegex, re_ipv4. cbn [app m_items m_item].
  destruct (at_bol (ms_init prev)); reflexivity.
Qed.

Lemma unix_before_line prev A0 x post st rest :
  is_line_terminator x = true ->
  In (st, rest) (m_items unixRegex (ms_init prev) (A0 ++ x :: unix_line ++ post)) ->
  (group 1 (ms_caps st) = js "192.168.1.20"
   /\ group 2 (ms_caps st) = js "a1:b2:c3:d4:e5:f6" /\ rest = post)
  \/ (exists A', rest = A' ++ x :: unix_line ++ post /\ length A' < length A0).
Proof.
  intros Hx Hin.
  destruct (line_terminator_class x Hx) as (Xs & Xd & Xdot & _ & Xu & Xe).
  cbn [forallb js List.map list_ascii_of_string] in Xe.
  repeat (apply andb_true_iff in Xe as [? Xe]).
  repeat match goal with
         | H : negb (x =? _)%N = true |- _ =>
             apply negb_true_iff in H; rewrite N.eqb_sym in H
         end.
  apply m_items_sound in Hin as (chunks & Hall & E & ->).
  unfold unixRegex, re_ipv4 in *.
  change (lit "ether") with [chr 101; chr 116; chr 104; chr 101; chr 114] in *.
  cbn [app] in *.
  invert_takes.
  repeat match goal with
         | H : takes (plus _) _ |- _ => takes_rep H
         | H : takes (Rep _ _ _) _ |- _ => takes_rep H
         end.
  cbn [concat app] in E. rewrite ?app_nil_r in E.
  repeat (rewrite <- app_assoc in E || rewrite <- app_comm_cons in E).
  symmetry in E. right. rewrite N.eqb_sym in Xdot.
  assert (Hline : forall u R, forallb is_space u = true -> unix_line ++ post = u ++ R ->
                              unix_line ++ post = R).
  { intros u R Hu HR. destruct u as [|c u]; [exact HR|].
    cbn [forallb] in Hu. apply andb_true_iff in Hu as [Hc _].
    injection HR as <- _. discriminate Hc. }
  apply peel with (p := is_digit) in E as [(A2 & -> & E)|(Hc & _)];
    [|rewrite Xd in Hc; discriminate|assumption].
  apply peel_cons in E as (A3 & -> & E); [|exact Xdot].
  apply peel with (p := is_digit) in E as [(A4 & -> & E)|(Hc & _)];
    [|rewrite Xd in Hc; discriminate|assumption].
  apply peel_cons in E as (A5 & -> & E); [|exact Xdot].
  apply peel with (p := is_digit) in E as [(A6 & -> & E)|(Hc & _)];
    [|rewrite Xd in Hc; discriminate|assumption].
  apply peel_cons in E as (A7 & -> & E); [|exact Xdot].
  apply peel with (p := is_digit) in E as [(A8 & -> & E)|(Hc & _)];
    [|rewrite Xd in Hc; discriminate|assumption].
  apply peel with (p := is_space) in E as [(A9 & -> & E)|(_ & u1 & u2 & Eu & -> & E)];
    [| |assumption].
  2: { exfalso. subst.
       match goal with
       | H : forallb is_space (_ ++ _ :: _) = true |- _ =>
           apply forallb_app_r in H; cbn [forallb] in H;
           apply andb_true_iff in H as [_ H]; apply Hline in E; [|exact H]
       end.
       injection E as E _. discriminate E. }
  do 5 (apply peel_cons in E as (? & -> & E); [|assumption]).
  apply peel with (p := is_space) in E as [(A10 & -> & E)|(_ & u1 & u2 & Eu & -> & E)];
    [| |assumption].
  2: { exfalso. subst.
       match goal with
       | H : forallb is_space (_ ++ _ :: _) = true |- _ =>
           apply forallb_app_r in H; cbn [forallb] in H;
           apply andb_true_iff in H as [_ H]; apply Hline in E; [|exact H]
       end.
       match goal with H : 17 <= length ?m |- _ =>
         do 4 (destruct m as [|? m]; [cbn in H; lia|]) end.
       injection E as <- <- <- <- _.
       match goal with H : forallb is_mac_unix _ = true |- _ => discriminate H end. }
  apply peel with (p := is_mac_unix) in E as [(A' & -> & E)|(Hc & _)];
    [|rewrite Xu in Hc; discriminate|assumption].
  exists A'. split; [exact E|].
  repeat (rewrite length_app || cbn [length]). lia.
Qed.

Lemma unix_line_entry pre post :
  line_start None pre = true ->
  exists l1 l2,
    entries_of unixRegex norm_unix (pre ++ unix_line ++ post)
    = l1 ++ (js "192.168.1.20", js "A1:B2:C3:D4:E5:F6") :: l2
    /\ (post = [] -> l2 = []).
Proof.
  intros Hs.
  apply (entries_of_line unixRegex unix_line (js "192.168.1.20") (js "a1:b2:c3:d4:e5:f6")
           unix_at_line unix_before_line unix_no_empty_match norm_unix pre post);
    [|exact Hs].
  vm_compute. discriminate.
Qed.

(** *** A text that holds the line *)

Lemma line_start_app prev u v :
  line_start prev (u ++ v) = line_start (ms_prev (feeds u (ms_init prev))) v.
Proof.
  unfold line_start, at_bol, feeds. rewrite fold_left_app.
  fold (feeds u (ms_init prev)). fold (feeds v (feeds u (ms_init prev))).
  fold (feeds v (ms_init (ms_prev (feeds u (ms_init prev))))).
  rewrite !feeds_prev. reflexivity.
Qed.

Lemma line_start_after_terminator x q :
  is_line_terminator x = true -> line_start None q = true -> line_start (Some x) q = true.
Proof.
  intros Hx. unfold line_start, at_bol. rewrite !feeds_prev.
  destruct (rev q); [intros _; exact Hx|auto].
Qed.

(** A text that holds [line] as one of its lines, cut at that line. *)
Lemma lines_cut before line after :
  exists pre post,
    lines (before ++ line :: after) = pre ++ line ++ post
    /\ line_start None pre = true
    /\ (after = [] -> post = []).
Proof.
  induction before as [|b before IH].
  - exists [], (match after with [] => [] | _ => [10%N] ++ lines after end).
    split; [|split; [reflexivity|intros ->; reflexivity]].
    unfold lines. cbn [app join]. destruct after; [rewrite app_nil_r|]; reflexivity.
  - destruct IH as (pre & post & E & Hs & Hp).
    exists ((b ++ [10%N]) ++ pre), post. split; [|split; [|exact Hp]].
    + unfold lines in *. cbn [app join].
      destruct (before ++ line :: after) eqn:El; [destruct before; discriminate|].
      rewrite E, <- !app_assoc. reflexivity.
    + rewrite line_start_app, feeds_prev, rev_app_distr. cbn [rev app].
      apply line_start_after_terminator; [reflexivity|exact Hs].
Qed.

Lemma last_write_app k l l' :
  last_write k (l ++ l')
  = match last_write k l' with Some v => Some v | None => last_write k l end.
Proof.
  induction l as [|[k' v] l IH]; cbn [app last_write].
  - destruct (last_write k l'); reflexivity.
  - rewrite IH. destruct (last_write k l'); [reflexivity|].
    destruct (last_write k l); reflexivity.
Qed.

Lemma last_write_in k v l : In (k, v) l -> exists v', last_write k l = Some v'.
Proof.
  induction l as [|[k' w] l IH]; [intros []|]. cbn [last_write].
  intros [H|H].
  - injection H as -> ->. destruct (last_write k l); [eauto|].
    destruct (decide (k = k)); [eauto|contradiction].
  - destruct (IH H) as [v' ->]. eauto.
Qed.

Lemma map_get_in k v (m : list (list N * list N)) : map_get k m = Some v -> In (k, v) m.
Proof.
  induction m as [|[k' w] m IH]; [discriminate|]. cbn [map_get].
  destruct (decide (k = k')) as [->|_].
  - intros H. injection H as ->. left. reflexivity.
  - intros H. right. apply IH. exact H.
Qed.

Lemma parseArpOutput_get output k :
  map_get k (parseArpOutput output) = last_write k (arp_writes output).
Proof.
  rewrite parseArpOutput_fold, fold_put_get.
  destruct (last_write k (arp_writes output)); reflexivity.
Qed.

Lemma entries_of_none re norm output :
  exec re (start_of output) = None -> entries_of re norm output = [].
Proof. intros H. unfold entries_of. cbn [exec_all]. rewrite H. reflexivity. Qed.

(** C4 fails as stated: a text that holds the line
    [192.168.1.10   aa-bb-cc-dd-ee-ff] and after it another line for the
    same address gives the entry of the later line, not
    [(192.168.1.10, AA:BB:CC:DD:EE:FF)]. *)
Lemma later_line_overwrites :
  parseArpOutput (lines [win_line; js "192.168.1.10   11-22-33-44-55-66"])
  = [(js "192.168.1.10", js "11:22:33:44:55:66")].
Proof. vm_compute. reflexivity. Qed.

(** C4, as amended.  For every text that holds the line
    [192.168.1.10   aa-bb-cc-dd-ee-ff] (whatever the lines before and
    after it), the parser writes the entry
    [(192.168.1.10, AA:BB:CC:DD:EE:FF)] into its map, and the map it
    returns has an entry for [192.168.1.10], with the hardware address of
    the last write for that address; this is the entry of the line when
    the line is the last of the text and the text has no match of the
    second pattern.  Likewise for the line
    [192.168.1.20 ether a1:b2:c3:d4:e5:f6] and the entry
    [(192.168.1.20, A1:B2:C3:D4:E5:F6)], which is in the map whenever
    the line is the last of the text.  The same holds of a text where
    the line stands at the start or after any line terminator (a line
    feed, a carriage return, U+2028 or U+2029) and is followed by
    anything at all: the entry is written, and the address has an entry,
    with the hardware address of its last write.  Each of the two lines
    alone gives its entry alone.  And for every text, no entry of the result has the
    hardware address [00:00:00:00:00:00]. *)
Theorem parseArpOutput_entries :
  (forall before after,
      let text := lines (before ++ win_line :: after) in
      In (js "192.168.1.10", js "AA:BB:CC:DD:EE:FF") (arp_writes text)
      /\ (exists hw, In (js "192.168.1.10", hw) (parseArpOutput text)
                     /\ last_write (js "192.168.1.10") (arp_writes text) = Some hw)
      /\ (after = [] -> exec unixRegex (start_of text) = None ->
          In (js "192.168.1.10", js "AA:BB:CC:DD:EE:FF") (parseArpOutput text)))
  /\ (forall before after,
        let text := lines (before ++ unix_line :: after) in
        In (js "192.168.1.20", js "A1:B2:C3:D4:E5:F6") (arp_writes text)
        /\ (exists hw, In (js "192.168.1.20", hw) (parseArpOutput text)
                       /\ last_write (js "192.168.1.20") (arp_writes text) = Some hw)
        /\ (after = [] ->
            In (js "192.168.1.20", js "A1:B2:C3:D4:E5:F6") (parseArpOutput text)))
  /\ (forall pre post,
        pre = [] \/ (exists p x, pre = p ++ [x] /\ is_line_terminator x = true) ->
        let text := pre ++ win_line ++ post in
        In (js "192.168.1.10", js "AA:BB:CC:DD:EE:FF") (arp_writes text)
        /\ (exists hw, In (js "192.168.1.10", hw) (parseArpOutput text)
                       /\ last_write (js "192.168.1.10") (arp_writes text) = Some hw))
  /\ (forall pre post,
        pre = [] \/ (exists p x, pre = p ++ [x] /\ is_line_terminator x = true) ->
        let text := pre ++ unix_line ++ post in
        In (js "192.168.1.20", js "A1:B2:C3:D4:E5:F6") (arp_writes text)
        /\ (exists hw, In (js "192.168.1.20", hw) (parseArpOutput text)
                       /\ last_write (js "192.168.1.20") (arp_writes text) = Some hw))
  /\ parseArpOutput win_line = [(js "192.168.1.10", js "AA:BB:CC:DD:EE:FF")]
  /\ parseArpOutput unix_line = [(js "192.168.1.20", js "A1:B2:C3:D4:E5:F6")]
  /\ parseArpOutput arp_table_example
     = [(js "192.168.1.10", js "AA:BB:CC:DD:EE:FF");
        (js "224.0.0.22", js "01:00:5E:00:00:16");
        (js "192.168.1.20", js "A1:B2:C3:D4:E5:F6")]
  /\ parseArpOutput (js "192.168.1.11   00-00-00-00-00-00") = []
  /\ forall output ipa hw, In (ipa, hw) (parseArpOutput output) -> hw <> zero_mac.
Proof.
  assert (Hkey : forall text k v,
             In (k, v) (arp_writes text) ->
             exists hw, In (k, hw) (parseArpOutput text)
                        /\ last_write k (arp_writes text) = Some hw).
  { intros text k v Hin. destruct (last_write_in k v _ Hin) as [hw Hw].
    exists hw. split; [|exact Hw]. apply map_get_in. rewrite parseArpOutput_get. exact Hw. }
  assert (Hstart : forall pre,
             pre = [] \/ (exists p x, pre = p ++ [x] /\ is_line_terminator x = true) ->
             line_start None pre = true).
  { intros pre [->|(p & x & -> & Hx)]; [reflexivity|].
    rewrite line_start_snoc. exact Hx. }
  split; [|split; [|split; [|split]]].
  - intros before after text.
    destruct (lines_cut before win_line after) as (pre & post & E & Hs & Hp).
    destruct (win_line_entry pre post Hs) as (l1 & l2 & Ew & Hl).
    fold text in E.
    assert (Hin : In (js "192.168.1.10", js "AA:BB:CC:DD:EE:FF") (arp_writes text)).
    { unfold arp_writes. rewrite E, Ew. apply in_or_app. left.
      apply in_or_app. right. left. reflexivity. }
    split; [exact Hin|]. split; [eapply Hkey; exact Hin|].
    intros Ha Hu. apply map_get_in. rewrite parseArpOutput_get.
    unfold arp_writes. rewrite (entries_of_none unixRegex norm_unix text Hu), app_nil_r.
    rewrite E, Ew, (Hl (Hp Ha)), last_write_app. cbn [last_write].
    destruct (decide (js "192.168.1.10" = js "192.168.1.10")); [reflexivity|contradiction].
  - intros before after text.
    destruct (lines_cut before unix_line after) as (pre & post & E & Hs & Hp).
    destruct (unix_line_entry pre post Hs) as (l1 & l2 & Eu & Hl).
    fold text in E.
    assert (Hin : In (js "192.168.1.20", js "A1:B2:C3:D4:E5:F6") (arp_writes text)).
    { unfold arp_writes. rewrite E, Eu. apply in_or_app. right.
      apply in_or_app. right. left. reflexivity. }
    split; [exact Hin|]. split; [eapply Hkey; exact Hin|].
    intros Ha. apply map_get_in. rewrite parseArpOutput_get.
    unfold arp_writes. rewrite E, Eu, (Hl (Hp Ha)), !last_write_app. cbn [last_write].
    destruct (decide (js "192.168.1.20" = js "192.168.1.20")); [reflexivity|contradiction].
  - intros pre post Hpre text.
    destruct (win_line_entry pre post (Hstart pre Hpre)) as (l1 & l2 & Ew & _).
    assert (Hin : In (js "192.168.1.10", js "AA:BB:CC:DD:EE:FF") (arp_writes text)).
    { unfold arp_writes, text. rewrite Ew. apply in_or_app. left.
      apply in_or_app. right. left. reflexivity. }
    split; [exact Hin|]. eapply Hkey; exact Hin.
  - intros pre post Hpre text.
    destruct (unix_line_entry pre post (Hstart pre Hpre)) as (l1 & l2 & Eu & _).
    assert (Hin : In (js "192.168.1.20", js "A1:B2:C3:D4:E5:F6") (arp_writes text)).
    { unfold arp_writes, text. rewrite Eu. apply in_or_app. right.
      apply in_or_app. right. left. reflexivity. }
    split; [exact Hin|]. eapply Hkey; exact Hin.
  - split; [vm_compute; reflexivity|].
    split; [vm_compute; reflexivity|].
    split; [vm_compute; reflexivity|].
    split; [vm_compute; reflexivity|].
    intros output ipa hw H. apply parseArpOutput_in, arp_writes_in in H. tauto.
Qed.

Lemma nodup_keys_filter (f : list N * list N -> bool) (l : list (list N * list N)) :
  List.NoDup (List.map fst l) -> List.NoDup (List.map fst (List.filter f l)).
Proof.
  induction l as [|e l IH]; simpl; intros H; [constructor|].
  inversion H as [|x xs Hx Hn]; subst.
  destruct (f e); simpl; [constructor|]; auto.
  intros Hin. apply Hx. apply in_map_iff in Hin as (e' & He & Hin).
  apply filter_In in Hin as [Hin _]. apply in_map_iff. eauto.
Qed.

Lemma arp_entries_nodup P : List.NoDup (List.map fst (arp_entries P)).
Proof.
  unfold arp_entries. destruct (arp P); [constructor|].
  rewrite parseArpOutput_fold. apply fold_put_nodup. constructor.
Qed.

Lemma interface_devices_ips W options db n iface :
  List.map ip (interface_devices W options db n iface)
  = List.map fst (if skipped_by_filter options iface || negb (is_IPv4 iface) then []
                  else filterSubnetDevices (arp_entries (pass W n))
                         (if_address iface) (if_netmask iface)).
Proof.
  unfold interface_devices.
  destruct (skipped_by_filter options iface || negb (is_IPv4 iface)); [reflexivity|].
  rewrite map_map. reflexivity.
Qed.

(** X5.  A round of the loop of [scan] that returns has started every
    probe of its subnet, unless the interface was skipped; the devices it
    pushes are what the neighbour map read in that round contributes, and
    they have pairwise different [ip] fields; each of these is a key of
    that map, hence four non-empty runs of digits with dots between
    them. *)
Theorem scan_interface_distinct W options db n iface t devices :
  scan_interface W options db n iface = (t, Return devices) ->
  round_completes W options n iface = true
  /\ devices = interface_devices W options db n iface
  /\ List.NoDup (List.map ip devices)
  /\ forall d, In d devices ->
       exists hw, In (ip d, hw) (arp_entries (pass W n))
                  /\ is_dotted_decimal (ip d) = true.
Proof.
  intros Ht. pose proof (scan_interface_outcome W options db n iface) as Ho.
  rewrite Ht in Ho. cbn [snd] in Ho.
  destruct (round_completes W options n iface); [|discriminate].
  injection Ho as ->. split; [reflexivity|]. split; [reflexivity|]. split.
  - rewrite interface_devices_ips.
    destruct (skipped_by_filter options iface || negb (is_IPv4 iface)); [constructor|].
    rewrite filterSubnetDevices_eq. apply nodup_keys_filter, arp_entries_nodup.
  - intros d Hd. apply interface_devices_in in Hd as (_ & _ & [k v] & Hin & _ & ->).
    exists v. cbn [device_of ip fst]. split; [exact Hin|].
    unfold arp_entries in Hin. destruct (arp (pass W n)); [destruct Hin|].
    apply parseArpOutput_in in Hin. eapply arp_writes_key. exact Hin.
Qed.

(** The round for [eth0] in a world where every [ping] starts and the
    neighbour table has one entry. *)
Lemma scan_interface_distinct_witness :
  round_completes (world_pinging (Exited 0 (js "192.168.1.2 aa-bb-cc-dd-ee-ff"))) no_options 0 eth0
  = true
  /\ [ {| ip := js "192.168.1.2";
          mac := js "AA:BB:CC:DD:EE:FF";
          interface := js "eth0";
          vendor := js "Unknown";
          name := js "Unknown" |} ]
     = interface_devices (world_pinging (Exited 0 (js "192.168.1.2 aa-bb-cc-dd-ee-ff")))
         no_options None 0 eth0
  /\ List.NoDup (List.map ip [ {| ip := js "192.168.1.2";
                                  mac := js "AA:BB:CC:DD:EE:FF";
                                  interface := js "eth0";
                                  vendor := js "Unknown";
                                  name := js "Unknown" |} ])
  /\ forall d, In d [ {| ip := js "192.168.1.2";
                         mac := js "AA:BB:CC:DD:EE:FF";
                         interface := js "eth0";
                         vendor := js "Unknown";
                         name := js "Unknown" |} ] ->
       exists hw, In (ip d, hw)
                    (arp_entries
                       (pass (world_pinging (Exited 0 (js "192.168.1.2 aa-bb-cc-dd-ee-ff"))) 0))
                  /\ is_dotted_decimal (ip d) = true.
Proof.
  apply (scan_interface_distinct
           (world_pinging (Exited 0 (js "192.168.1.2 aa-bb-cc-dd-ee-ff"))) no_options None 0 eth0
           [Ping (js "192.168.1.1"); Ping (js "192.168.1.2"); AwaitAll 2; ArpRead;
            ReadLeases (js "192.168.1.2"); Fetch (js "192.168.1.2")]).
  vm_compute. reflexivity.
Defined.

(** ** The resolvers, enrichment and names *)

Lemma str_or_Unknown a : truthy (str_or a Unknown) = true.
Proof. unfold str_or. destruct (truthy a) eqn:E; [exact E|reflexivity]. Qed.

Ltac run := cbn [bind try_catch await_output emit ret throw fst snd app].


(** ** Enrichment *)

Lemma vendor_of_truthy db oui : truthy (vendor_of db oui) = true.
Proof.
  unfold vendor_of. destruct db as [db|]; [|reflexivity].
  destruct (db !! oui); [apply str_or_Unknown|reflexivity].
Qed.

(** X7.  [enrichDevices] never throws; it returns one device per entry,
    in the order of the entries, with the entry's address as [ip], the
    formatted hardware address as [mac], the interface name it was given
    and a [vendor] that is never empty.  All it asks of the world is the
    lease file and the UPnP description of these addresses: no mDNS,
    NetBIOS or DNS query is ever made. *)
Theorem enrichDevices_devices db P devices ifn :
  exists t result,
    enrichDevices db P devices ifn = (t, Return result)
    /\ List.map ip result = List.map fst devices
    /\ List.map mac result
       = List.map (fun d => formatMac (toUpperCase (remove_cu 58 (snd d)))) devices
    /\ (forall d, In d result -> interface d = ifn /\ truthy (vendor d) = true)
    /\ (forall e, In e t ->
          exists a, In a (List.map fst devices) /\ (e = ReadLeases a \/ e = Fetch a)).
Proof.
  rewrite enrichDevices_eq. eexists _, _. split; [reflexivity|].
  split; [rewrite map_map; reflexivity|].
  split; [rewrite map_map; reflexivity|]. split.
  - intros d Hd. apply in_map_iff in Hd as (e & <- & _). cbn [device_of interface vendor].
    split; [reflexivity|apply vendor_of_truthy].
  - intros e He. apply in_flat_map in He as (d & Hd & He).
    exists (fst d). split; [apply in_map; exact Hd|].
    destruct (getDeviceName_truthy P (fst d)) as (t & n & E & _ & Hincl).
    rewrite E in He. apply Hincl in He. simpl in He. destruct He as [<-|[<-|[]]]; auto.
Qed.

(** ** Normal form of names *)

Lemma drop_while_snoc p l c :
  drop_while p (l ++ [c])
  = match drop_while p l with
    | [] => if p c then [] else [c]
    | r => r ++ [c]
    end.
Proof.
  induction l as [|x l IH]; simpl; [reflexivity|].
  destruct (p x); [exact IH|reflexivity].
Qed.

Lemma drop_end_rev p s : rev (drop_while p (rev s)) = drop_end p s.
Proof.
  induction s as [|c s IH]; [reflexivity|].
  cbn [rev drop_end]. rewrite drop_while_snoc, <- IH.
  destruct (drop_while p (rev s)) as [|x r]; cbn [rev].
  - destruct (p c); reflexivity.
  - rewrite rev_app_distr. cbn [rev app]. 
    destruct (rev r ++ [x]) eqn:E; [|reflexivity].
    destruct (rev r); discriminate.
Qed.

Lemma drop_while_collapse b s :
  drop_while is_space (collapse_ws b s) = collapse_ws true s.
Proof.
  revert b. induction s as [|c s IH]; intros b; [reflexivity|].
  cbn [collapse_ws]. destruct (is_space c) eqn:E.
  - destruct b; [apply IH|]. cbn [drop_while].
    change (is_space 32) with true. cbn iota. apply IH.
  - cbn [drop_while]. rewrite E. reflexivity.
Qed.

Lemma trim_collapse s : trim (collapse_ws false s) = drop_end is_space (collapse_ws true s).
Proof. unfold trim. rewrite drop_end_rev, drop_while_collapse. reflexivity. Qed.

Lemma words_space l : words false (32%N :: l) = words true l.
Proof. reflexivity. Qed.

Lemma words_other b c l : is_space c = false -> words b (c :: l) = words false l.
Proof. intros E. cbn [words]. rewrite E. reflexivity. Qed.

Lemma words_drop_end b s :
  drop_end is_space (collapse_ws b s) = []
  \/ words b (drop_end is_space (collapse_ws b s)) = true.
Proof.
  revert b. induction s as [|c s IH]; intros b; [left; reflexivity|].
  cbn [collapse_ws]. destruct (is_space c) eqn:E.
  - destruct b; [apply IH|]. cbn [drop_end].
    destruct (IH true) as [H|H].
    + rewrite H. left. reflexivity.
    + destruct (drop_end is_space (collapse_ws true s)) as [|x r]; [discriminate H|].
      right. rewrite words_space. exact H.
  - cbn [drop_end]. right.
    destruct (IH false) as [H|H].
    + rewrite H, E. rewrite words_other by exact E. reflexivity.
    + destruct (drop_end is_space (collapse_ws false s)) as [|x r].
      * rewrite E. rewrite words_other by exact E. reflexivity.
      * rewrite words_other by exact E. exact H.
Qed.

Lemma words_weaken s : words true s = true -> words false s = true.
Proof.
  destruct s as [|c s]; [discriminate|]. cbn [words].
  destruct (is_space c); [|auto]. rewrite andb_false_r. discriminate.
Qed.

Lemma words_collapse b s : words b s = true -> collapse_ws b s = s.
Proof.
  revert b. induction s as [|c s IH]; intros b H; [reflexivity|].
  cbn [words collapse_ws] in *. destruct (is_space c).
  - apply andb_true_iff in H as [H Hs]. apply andb_true_iff in H as [Hc Hb].
    apply N.eqb_eq in Hc. subst c. apply negb_true_iff in Hb. subst b.
    f_equal. apply IH. exact Hs.
  - f_equal. apply IH. exact H.
Qed.

Lemma words_drop_end_id b s : words b s = true -> drop_end is_space s = s.
Proof.
  revert b. induction s as [|c s IH]; intros b H; [reflexivity|].
  cbn [words drop_end] in *. destruct (is_space c) eqn:E.
  - apply andb_true_iff in H as [_ Hs]. rewrite (IH _ Hs).
    destruct s; [discriminate Hs|reflexivity].
  - rewrite (IH _ H). destruct s; reflexivity.
Qed.

Lemma words_head s : words true s = true -> drop_while is_space s = s.
Proof.
  destruct s as [|c s]; [reflexivity|]. cbn [words drop_while].
  destruct (is_space c); [|reflexivity]. rewrite andb_false_r. discriminate.
Qed.

Lemma normal_fixed s : name_normal s = true -> trim (collapse_ws false s) = s.
Proof.
  unfold name_normal. destruct s as [|c s]; [reflexivity|]. cbn [is_nil orb]. intros H.
  rewrite (words_collapse false) by (apply words_weaken; exact H).
  unfold trim. rewrite drop_end_rev, words_head by exact H.
  eapply words_drop_end_id. exact H.
Qed.

Lemma normal_trim_collapse s : name_normal (trim (collapse_ws false s)) = true.
Proof.
  rewrite trim_collapse. unfold name_normal.
  destruct (words_drop_end true s) as [-> | ->]; [reflexivity|apply orb_true_r].
Qed.

Lemma words_spaces b l c :
  words b l = true -> In c l -> is_space c = true -> c = 32%N.
Proof.
  revert b. induction l as [|x l IH]; intros b Hn Hc Hs; [destruct Hc|].
  cbn [words] in Hn. destruct Hc as [->|Hc].
  - rewrite Hs in Hn. apply andb_true_iff in Hn as [Hn _].
    apply andb_true_iff in Hn as [Hn _]. apply N.eqb_eq in Hn. exact Hn.
  - destruct (is_space x).
    + apply andb_true_iff in Hn as [_ Hn]. eapply IH; eassumption.
    + eapply IH; eassumption.
Qed.

(** X8.  The [name] of an enriched device is in normal form: it is
    empty, or it is made of words with exactly one space (U+0020) between
    them, with no other white space and none at either end.  Normalizing
    it again, as [enrichDevices] does with [replace] and [trim], changes
    nothing. *)
Theorem enrichDevice_name_normal db P ifn d :
  exists t r,
    enrichDevice db P ifn d = (t, Return r)
    /\ name_normal (name r) = true
    /\ trim (collapse_ws false (name r)) = name r
    /\ forall c, In c (name r) -> is_space c = true -> c = 32%N.
Proof.
  rewrite enrichDevice_eq. eexists _, _. split; [reflexivity|].
  cbn [device_of name].
  pose proof (normal_trim_collapse (device_name P (fst d))) as Hn.
  split; [exact Hn|]. split; [apply normal_fixed; exact Hn|].
  revert Hn. generalize (trim (collapse_ws false (device_name P (fst d)))) as s.
  intros s Hn c Hc Hs. unfold name_normal in Hn.
  destruct s as [|x s]; [destruct Hc|]. cbn [is_nil orb] in Hn.
  eapply words_spaces; eassumption.
Qed.

(** ** The vendor table and the log of a scan *)

Lemma fold_insert_lookup (entries : list OuiEntry) (m : gmap (list N) (list N)) (k : list N) :
  fold_left (fun acc entry => <[toUpperCase (prefix entry) := organization_name entry]> acc)
            entries m !! k
  = match last_organization k entries with Some v => Some v | None => m !! k end.
Proof.
  revert m. induction entries as [|e entries IH]; intros m; [reflexivity|].
  cbn [fold_left last_organization]. rewrite IH.
  destruct (last_organization k entries); [reflexivity|].
  destruct (decide (toUpperCase (prefix e) = k)) as [->|Hne].
  - apply lookup_insert_eq.
  - apply lookup_insert_ne. exact Hne.
Qed.

Lemma upper_cu_idem c : upper_cu (upper_cu c) = upper_cu c.
Proof.
  unfold upper_cu, cu_in.
  destruct (N.leb_spec 97 c); destruct (N.leb_spec c 122); cbn [andb]; try reflexivity.
  - destruct (N.leb_spec 97 (c - 32)); destruct (N.leb_spec (c - 32) 122);
      cbn [andb]; try reflexivity; lia.
  - destruct (N.leb_spec 97 c); [|lia]. destruct (N.leb_spec c 122); [lia|]. reflexivity.
  - destruct (N.leb_spec 97 c); [lia|]. reflexivity.
  - destruct (N.leb_spec 97 c); [lia|]. reflexivity.
Qed.

Lemma toUpperCase_idem s : toUpperCase (toUpperCase s) = toUpperCase s.
Proof.
  unfold toUpperCase. rewrite map_map. apply map_ext. intros c. apply upper_cu_idem.
Qed.

Lemma last_organization_key k entries v :
  last_organization k entries = Some v -> toUpperCase k = k.
Proof.
  induction entries as [|e entries IH]; [discriminate|]. cbn [last_organization].
  destruct (last_organization k entries); [auto|].
  destruct (decide (toUpperCase (prefix e) = k)) as [<-|]; [|discriminate].
  intros _. apply toUpperCase_idem.
Qed.

(** X9.  [loadOuiDatabase] reads the vendor file once and never throws.
    When the file cannot be read or parsed the table is empty, and every
    hardware address then gets the vendor [Unknown].  Otherwise a lookup
    of [k] gives the organization of the last entry whose prefix in upper
    case is [k]; so only keys that are their own upper case are
    present. *)
Theorem loadOuiDatabase_table W :
  exists db,
    loadOuiDatabase W = ([ReadOuis], Return db)
    /\ (ouis_json W = None -> db = ∅)
    /\ (forall entries, ouis_json W = Some entries ->
          forall k, db !! k = last_organization k entries)
    /\ (forall k v, db !! k = Some v -> toUpperCase k = k)
    /\ (forall hw, ouis_json W = None ->
          vendor_of (Some db) (slice0 6 (toUpperCase (remove_cu 58 hw))) = Unknown).
Proof.
  unfold loadOuiDatabase. destruct (ouis_json W) as [entries|]; run.
  - eexists. split; [reflexivity|]. split; [discriminate|].
    assert (Hk : forall k,
               fold_left (fun acc entry =>
                            <[toUpperCase (prefix entry) := organization_name entry]> acc)
                         entries (∅ : gmap (list N) (list N)) !! k
               = last_organization k entries).
    { intros k. rewrite fold_insert_lookup, lookup_empty.
      destruct (last_organization k entries); reflexivity. }
    split; [|split].
    + intros entries' H k. injection H as <-. apply Hk.
    + intros k v H. rewrite Hk in H. eapply last_organization_key. exact H.
    + discriminate.
  - exists ∅. split; [reflexivity|]. split; [reflexivity|]. split; [discriminate|].
    split.
    + intros k v H. rewrite lookup_empty in H. discriminate.
    + intros hw _. unfold vendor_of. rewrite lookup_empty. reflexivity.
Qed.

(** ** What a scan asks *)

Lemma windows_asks bound k log r :
  windows bound k log = Some r -> forallb asks_of_pass log = true.
Proof.
  revert k. induction log as [|e log IH]; intros k H; [reflexivity|].
  destruct e; cbn [windows] in H; try discriminate; cbn [forallb asks_of_pass andb].
  - destruct (S k <=? bound); [eapply IH; exact H|discriminate].
  - destruct ((n =? k) && (0 <? n) && ((n =? bound) || is_nil log)); [eapply IH; exact H|discriminate].
Qed.

Lemma names_asks P devices :
  forallb asks_of_pass (flat_map (fun d : list N * list N => fst (getDeviceName P (fst d))) devices)
  = true.
Proof.
  apply forallb_forall. intros e He. apply in_flat_map in He as (d & _ & He).
  destruct (getDeviceName_truthy P (fst d)) as (t & n & E & _ & Hincl).
  rewrite E in He. apply Hincl in He. simpl in He.
  destruct He as [<-|[<-|[]]]; reflexivity.
Qed.

Lemma pingSubnet_asks P ip netmask :
  forallb asks_of_pass (fst (pingSubnet P ip netmask)) = true.
Proof.
  destruct (pingSubnet_spec P ip netmask) as (log & k & E & _ & Hw & _).
  rewrite E. eapply windows_asks. exact Hw.
Qed.

Lemma scan_interface_asks W options db n iface :
  forallb asks_of_pass (fst (scan_interface W options db n iface)) = true.
Proof.
  rewrite scan_interface_log.
  destruct (skipped_by_filter options iface || negb (is_IPv4 iface)); [reflexivity|].
  cbv zeta.
  destruct (probes_start (pass W n) (calculateSubnet (if_address iface) (if_netmask iface)));
    cbn [fst]; [|apply pingSubnet_asks].
  rewrite forallb_app. apply andb_true_iff. split; [apply pingSubnet_asks|].
  cbn [forallb asks_of_pass andb]. apply names_asks.
Qed.

Lemma scan_loop_asks W options db n ifs results :
  forallb asks_of_pass (fst (scan_loop W options db n ifs results)) = true.
Proof.
  revert n results. induction ifs as [|iface ifs IH]; intros n results; [reflexivity|].
  cbn [scan_loop].
  pose proof (scan_interface_asks W options db n iface) as H1.
  destruct (scan_interface W options db n iface) as [t [enriched|]]; cbn [fst] in H1; run.
  - rewrite forallb_app, H1, IH. reflexivity.
  - exact H1.
Qed.

(** X10.  The vendor table is loaded once.  A scan that finds the static
    table unset reads the vendor file first, leaves the table it read in
    the static, and then behaves exactly as a scan that finds this table
    set.  A scan that finds a table set keeps it and never reads the
    vendor file; it asks for nothing but pings, awaits, the neighbour
    table, the lease file and UPnP descriptions. *)
Theorem scan_loads_table_once W options :
  let table := table_of W None in
  fst (scan W options None) = Some table
  /\ snd (scan W options None)
     = (ReadOuis :: fst (snd (scan W options (Some table))),
        snd (snd (scan W options (Some table))))
  /\ (forall db, fst (scan W options (Some db)) = Some db
                 /\ forallb asks_of_pass (fst (snd (scan W options (Some db)))) = true).
Proof.
  cbv zeta. unfold scan. cbn [fst snd]. rewrite loadOuiDatabase_eq.
  cbn [fst snd ret bind app].
  split; [reflexivity|]. split; [reflexivity|].
  intros db'. split; [reflexivity|].
  destruct (networkInterfaces W) as [ifs|]; run; [|reflexivity].
  apply scan_loop_asks.
Qed.

Lemma probes_start_unstarted P ips :
  probes_start P ips = false ->
  exists target, In target ips /\ ping P target = SpawnError.
Proof.
  induction ips as [|t ips IH]; [discriminate|]. cbn [probes_start forallb].
  destruct (ping P t) eqn:E; cbn [started andb].
  - intros _. exists t. split; [left; reflexivity|exact E].
  - intros H. destruct (IH H) as (target & Hin & Hp). exists target. split; [right|]; assumption.
Qed.

Lemma scan_completes_unstarted W options n ifs :
  scan_completes W options n ifs = false ->
  exists k iface target,
    nth_error ifs k = Some iface
    /\ skipped_by_filter options iface = false /\ if_family iface = IPv4
    /\ In target (calculateSubnet (if_address iface) (if_netmask iface))
    /\ ping (pass W (n + k)) target = SpawnError.
Proof.
  revert n. induction ifs as [|iface ifs IH]; intros n; [discriminate|].
  cbn [scan_completes]. destruct (round_completes W options n iface) eqn:Hr; cbn [andb].
  - intros H. destruct (IH (S n) H) as (k & iface' & target & Hk & Hs & Hf & Hin & Hp).
    exists (S k), iface', target. rewrite Nat.add_succ_r. auto 10.
  - intros _. unfold round_completes, is_IPv4 in Hr.
    destruct (skipped_by_filter options iface) eqn:Hs; [discriminate|].
    destruct (if_family iface) eqn:Hf; cbn [negb orb] in Hr; [|discriminate].
    destruct (probes_start_unstarted _ _ Hr) as (target & Hin & Hp).
    exists 0, iface, target. rewrite Nat.add_0_r. auto 10.
Qed.

(** X11.  A scan throws if and only if the network interfaces cannot be
    enumerated or, for an interface that it does not skip, the [ping] of
    an address of the subnet cannot be started: no failure of [arp], of a
    resolver or of the vendor file, and no exit code of a [ping], makes it
    throw.  When the enumeration fails the scan has touched no
    interface: it has at most read the vendor file.  In every case the
    vendor table it worked with stays in the static. *)
Theorem scan_throws_iff W options ouiDatabase :
  (snd (snd (scan W options ouiDatabase)) = Throw
   <-> networkInterfaces W = None
       \/ exists ifs n iface target,
            networkInterfaces W = Some ifs
            /\ nth_error ifs n = Some iface
            /\ skipped_by_filter options iface = false /\ if_family iface = IPv4
            /\ In target (calculateSubnet (if_address iface) (if_netmask iface))
            /\ ping (pass W n) target = SpawnError)
  /\ (networkInterfaces W = None ->
      fst (snd (scan W options ouiDatabase))
      = match ouiDatabase with Some _ => [] | None => [ReadOuis] end)
  /\ fst (scan W options ouiDatabase) = Some (table_of W ouiDatabase).
Proof.
  destruct (scan_outcome W options ouiDatabase) as [Ht Ho].
  split; [|split; [|exact Ht]].
  - rewrite Ho. destruct (networkInterfaces W) as [ifs|]; [|tauto].
    destruct (scan_completes W options 0 ifs) eqn:Hc.
    + split; [discriminate|]. intros [H|(ifs' & n & iface & target & E & Hn & Hs & Hf & Hin & Hp)];
        [discriminate|]. injection E as <-.
      rewrite (scan_completes_false W options 0 ifs n iface target Hn Hs Hf Hin Hp) in Hc.
      discriminate.
    + split; [|reflexivity]. intros _. right.
      destruct (scan_completes_unstarted W options 0 ifs Hc)
        as (n & iface & target & Hn & Hs & Hf & Hin & Hp).
      exists ifs, n, iface, target. auto 10.
  - intros E. unfold scan. cbn [fst snd]. rewrite E.
    destruct ouiDatabase as [db|]; [reflexivity|].
    rewrite loadOuiDatabase_eq. reflexivity.
Qed.

Lemma windows_probes bound k log r :
  windows bound k log = Some r ->
  forallb (fun e => match e with Ping _ | AwaitAll _ => true | _ => false end) log = true.
Proof.
  revert k. induction log as [|e log IH]; intros k H; [reflexivity|].
  destruct e; cbn [windows] in H; try discriminate; cbn [forallb andb].
  - destruct (S k <=? bound); [eapply IH; exact H|discriminate].
  - destruct ((n =? k) && (0 <? n) && ((n =? bound) || is_nil log)); [eapply IH; exact H|discriminate].
Qed.

(** X12.  A round of the loop of [scan] for an interface that the filter
    skips or that is not IPv4 asks nothing of the world and pushes
    nothing.  For any other interface the round first runs [pingSubnet]
    on the interface's address and mask, whose log holds only pings and
    awaits.  When every probe starts, it then reads the neighbour table
    exactly once, and then asks only for the lease file and UPnP
    descriptions of the devices it returns, the lease file at least once
    for each of them.  When a probe cannot be started the round throws
    with the log of [pingSubnet]: the neighbour table is not read. *)
Theorem scan_interface_order W options db n iface :
  (skipped_by_filter options iface = true \/ if_family iface = IPv6 ->
   scan_interface W options db n iface = ([], Return []))
  /\ (skipped_by_filter options iface = false -> if_family iface = IPv4 ->
      probes_start (pass W n) (calculateSubnet (if_address iface) (if_netmask iface)) = true ->
      exists probes names devices,
        scan_interface W options db n iface = (probes ++ ArpRead :: names, Return devices)
        /\ pingSubnet (pass W n) (if_address iface) (if_netmask iface) = (probes, Return tt)
        /\ targets probes = calculateSubnet (if_address iface) (if_netmask iface)
        /\ forallb (fun e => match e with Ping _ | AwaitAll _ => true | _ => false end) probes
           = true
        /\ (forall e, In e names ->
              exists d, In d devices /\ (e = ReadLeases (ip d) \/ e = Fetch (ip d)))
        /\ (forall d, In d devices -> In (ReadLeases (ip d)) names))
  /\ (skipped_by_filter options iface = false -> if_family iface = IPv4 ->
      probes_start (pass W n) (calculateSubnet (if_address iface) (if_netmask iface)) = false ->
      exists probes,
        scan_interface W options db n iface = (probes, Throw)
        /\ pingSubnet (pass W n) (if_address iface) (if_netmask iface) = (probes, Throw)
        /\ targets probes
           = probed (pass W n) (calculateSubnet (if_address iface) (if_netmask iface))
        /\ forallb (fun e => match e with Ping _ | AwaitAll _ => true | _ => false end) probes
           = true).
Proof.
  rewrite scan_interface_log. unfold is_IPv4.
  destruct (pingSubnet_spec (pass W n) (if_address iface) (if_netmask iface))
    as (log & k & E & Ht & Hw & _).
  split; [|split].
  - intros [-> | ->]; [reflexivity|]. rewrite orb_true_r. reflexivity.
  - intros -> -> Hs. cbn [negb orb]. cbv zeta.
    rewrite E, Hs. cbn [fst]. eexists _, _, _. split; [reflexivity|].
    split; [reflexivity|]. split; [rewrite Ht; apply probed_all; exact Hs|]. split; [|split].
    + eapply windows_probes. exact Hw.
    + intros e He. apply in_flat_map in He as (d & Hd & He).
      exists (device_of db (pass W n) (if_name iface) d). split; [apply in_map; exact Hd|].
      cbn [device_of ip].
      destruct (getDeviceName_truthy (pass W n) (fst d)) as (t & nm & E' & _ & Hincl).
      rewrite E' in He. apply Hincl in He. simpl in He. destruct He as [<-|[<-|[]]]; auto.
    + intros d Hd. apply in_map_iff in Hd as (e & <- & He). cbn [device_of ip].
      apply in_flat_map. exists e. split; [exact He|].
      unfold getDeviceName.
      destruct (dhclient_leases (pass W n)); run.
      * destruct (first_group (leaseRegex (fst e)) l); run; [left; reflexivity|].
        destruct (fetch_description (pass W n) (fst e)) as [|[] [text|]]; run;
          left; reflexivity.
      * destruct (fetch_description (pass W n) (fst e)) as [|[] [text|]]; run;
          left; reflexivity.
  - intros -> -> Hs. cbn [negb orb]. cbv zeta.
    rewrite E, Hs. cbn [fst]. exists log. split; [reflexivity|]. split; [reflexivity|].
    split; [exact Ht|]. eapply windows_probes. exact Hw.
Qed.
(** ** Hardware addresses in pairs *)

Lemma pairs_ind (P : list N -> Prop) :
  P [] -> (forall a, P [a]) -> (forall a b t, P t -> P (a :: b :: t)) -> forall s, P s.
Proof.
  intros H0 H1 H2.
  assert (H : forall s, P s /\ forall a, P (a :: s)).
  { induction s as [|b s [IH1 IH2]]; split; auto. }
  intros s. apply H.
Qed.

Lemma exec_single prev a :
  is_line_terminator a = false ->
  exec pairsRegex (prev, [a]) = Some ([(0, [a])], (Some a, [])).
Proof.
  intros Ha. unfold exec, pairsRegex. cbn [fst snd search m_items m_item flat_map].
  cbn [m_rep]. rewrite Ha. reflexivity.
Qed.

Lemma exec_all_pairs fuel prev s :
  no_line_terminator s = true -> length (pairs s) <= fuel ->
  exec_all fuel pairsRegex (prev, s) = List.map (fun p => [(0, p)]) (pairs s).
Proof.
  revert prev s. induction fuel as [|fuel IH]; intros prev s Hs Hf.
  - destruct s as [|a [|b t]]; simpl in Hf; try lia. reflexivity.
  - destruct s as [|a [|b t]]; cbn [exec_all pairs List.map].
    + rewrite exec_pairs_end. reflexivity.
    + unfold no_line_terminator in Hs. cbn [forallb] in Hs.
      apply andb_true_iff in Hs as [Ha _]. apply negb_true_iff in Ha.
      rewrite exec_single by exact Ha. f_equal.
      apply (IH (Some a) []); [reflexivity|simpl; lia].
    + unfold no_line_terminator in Hs. cbn [forallb] in Hs.
      apply andb_true_iff in Hs as [Ha Hs]. apply andb_true_iff in Hs as [Hb Hs].
      apply negb_true_iff in Ha, Hb.
      rewrite exec_pair by assumption. f_equal.
      apply IH; [exact Hs|]. cbn [pairs length] in Hf. lia.
Qed.

Lemma length_pairs s : length (pairs s) <= length s.
Proof. induction s as [| |a b t IH] using pairs_ind; simpl in *; lia. Qed.

Lemma formatMac_join s :
  no_line_terminator s = true -> formatMac s = join (js ":") (pairs s).
Proof.
  intros Hs. unfold formatMac, match_all, start_of.
  rewrite exec_all_pairs by (try assumption; apply length_pairs).
  rewrite map_map. cbn [group Nat.eqb]. rewrite map_id.
  destruct s as [|a [|b t]]; [reflexivity|reflexivity|].
  cbn [pairs]. unfold str_or.
  destruct (pairs t); reflexivity.
Qed.

Lemma remove_cu_join s :
  forallb (fun c => negb (c =? 58)%N) s = true ->
  remove_cu 58 (join (js ":") (pairs s)) = s.
Proof.
  induction s as [| |a b t IH] using pairs_ind; intros H.
  - reflexivity.
  - cbn in H |- *. rewrite andb_true_r in H. rewrite H. reflexivity.
  - cbn [forallb] in H. apply andb_true_iff in H as [Ha H].
    apply andb_true_iff in H as [Hb H]. specialize (IH H).
    cbn [pairs].
    assert (E : remove_cu 58 (join (js ":") ([a; b] :: pairs t)) = a :: b :: remove_cu 58 (join (js ":") (pairs t))).
    { destruct (pairs t) as [|p ps] eqn:Ep.
      - cbn [join remove_cu List.filter]. rewrite Ha, Hb. reflexivity.
      - cbn [join]. change (js ":") with [58%N]. cbn [app].
        cbn [remove_cu List.filter]. rewrite Ha, Hb. reflexivity. }
    rewrite E, IH. reflexivity.
Qed.

Lemma upper_cu_line_terminator c : is_line_terminator (upper_cu c) = is_line_terminator c.
Proof.
  unfold upper_cu, cu_in. destruct (N.leb_spec 97 c); [|reflexivity].
  destruct (N.leb_spec c 122); [|reflexivity]. cbn [andb]. unfold is_line_terminator.
  repeat match goal with |- context [(?x =? ?y)%N] => destruct (N.eqb_spec x y); try lia end;
    try reflexivity.
Qed.

Lemma upper_cu_colon c : (upper_cu c =? 58)%N = (c =? 58)%N.
Proof.
  unfold upper_cu, cu_in. destruct (N.leb_spec 97 c); [|reflexivity].
  destruct (N.leb_spec c 122); [|reflexivity]. cbn [andb].
  destruct (N.eqb_spec (c - 32) 58); destruct (N.eqb_spec c 58); try reflexivity; lia.
Qed.

Lemma clean_no_colon hw :
  forallb (fun c => negb (c =? 58)%N) (toUpperCase (remove_cu 58 hw)) = true.
Proof.
  unfold toUpperCase, remove_cu. rewrite forallb_forall. intros c Hc.
  apply in_map_iff in Hc as (x & <- & Hx). apply filter_In in Hx as [_ Hx].
  rewrite upper_cu_colon. exact Hx.
Qed.

Lemma clean_no_line_terminator hw :
  no_line_terminator hw = true -> no_line_terminator (toUpperCase (remove_cu 58 hw)) = true.
Proof.
  unfold no_line_terminator, toUpperCase, remove_cu. rewrite !forallb_forall.
  intros H c Hc. apply in_map_iff in Hc as (x & <- & Hx). apply filter_In in Hx as [Hx _].
  rewrite upper_cu_line_terminator. apply H. exact Hx.
Qed.

(** X13.  On a string without line terminators [formatMac] cuts the
    string into pieces of two code units (the last of one if the length
    is odd) and joins them with colons.  Removing the colons gives back a
    string that had none; so what [enrichDevices] does to a hardware
    address (remove colons, upper case, [formatMac]) keeps its digits, and
    doing it twice is the same as doing it once. *)
Theorem formatMac_regroups s :
  no_line_terminator s = true ->
  formatMac s = join (js ":") (pairs s)
  /\ (forallb (fun c => negb (c =? 58)%N) s = true -> remove_cu 58 (formatMac s) = s)
  /\ (let again hw := formatMac (toUpperCase (remove_cu 58 hw)) in
      remove_cu 58 (again s) = toUpperCase (remove_cu 58 s)
      /\ again (again s) = again s).
Proof.
  intros Hs. split; [apply formatMac_join; exact Hs|]. split.
  - intros Hc. rewrite formatMac_join by exact Hs. apply remove_cu_join. exact Hc.
  - cbv beta zeta.
    pose proof (clean_no_colon s) as Hc.
    pose proof (clean_no_line_terminator s Hs) as Hl.
    set (u := toUpperCase (remove_cu 58 s)) in *.
    assert (E : remove_cu 58 (formatMac u) = u).
    { rewrite formatMac_join by exact Hl. apply remove_cu_join. exact Hc. }
    split; [exact E|]. rewrite E. unfold u.
    rewrite toUpperCase_idem. reflexivity.
Qed.

Lemma formatMac_regroups_witness :
  formatMac (js "AABBCCDDEEFF") = join (js ":") (pairs (js "AABBCCDDEEFF"))
  /\ (forallb (fun c => negb (c =? 58)%N) (js "AABBCCDDEEFF") = true ->
      remove_cu 58 (formatMac (js "AABBCCDDEEFF")) = js "AABBCCDDEEFF")
  /\ (let again hw := formatMac (toUpperCase (remove_cu 58 hw)) in
      remove_cu 58 (again (js "AABBCCDDEEFF")) = toUpperCase (remove_cu 58 (js "AABBCCDDEEFF"))
      /\ again (again (js "AABBCCDDEEFF")) = again (js "AABBCCDDEEFF")).
Proof.
  apply (formatMac_regroups (js "AABBCCDDEEFF")). vm_compute. reflexivity.
Defined.

(** ** The report of [main.ts] *)

Lemma length_padEnd n s : length (padEnd n s) = Nat.max n (length s).
Proof. unfold padEnd. rewrite length_app, repeat_length. lia. Qed.

Lemma length_device_line d :
  length (device_line d)
  = 12 + Nat.max 9 (length (interface d)) + Nat.max 15 (length (ip d))
    + Nat.max 17 (length (mac d)) + Nat.max 30 (length (str_or (vendor d) Unknown))
    + Nat.max 25 (length (str_or (name d) Unknown)).
Proof.
  unfold device_line. rewrite !length_app, !length_padEnd.
  change (length (js "[")) with 1. change (length (js "] ")) with 2.
  change (length (js " - ")) with 3. change (length (js " ")) with 1.
  change (length (js "(")) with 1. change (length (js ") ")) with 2.
  change (length (js "]")) with 1.
  repeat match goal with |- context [Nat.max ?a ?b] => generalize (Nat.max a b); intro end.
  lia.
Qed.

Lemma main_devices_interface W db n ifs d :
  In d (devices_from W main_options db n ifs) -> interface d = js "Ethernet".
Proof.
  intros Hd. apply devices_from_in in Hd as (k & iface & _ & Hd).
  apply interface_devices_in in Hd as (Hs & _ & e & _ & _ & ->).
  cbn [device_of interface].
  eapply skipped_by_filter_false; [exact Hs|reflexivity|discriminate].
Qed.

Lemma length_str_or_Unknown a n : 7 <= n -> length a <= n -> length (str_or a Unknown) <= n.
Proof. intros Hn Ha. unfold str_or. destruct (truthy a); [exact Ha|exact Hn]. Qed.

Example ex_main_report :
  main world_ethernet
  = ([ js "Starting ARP-based network scan...";
       js "Found 1 devices:";
       js "[Ethernet ] 192.168.1.10    - AA:BB:CC:DD:EE:FF (Unknown                       ) [printer                  ]" ],
     Return tt)
  /\ main world_slash24
     = ([ js "Starting ARP-based network scan...";
          js "No devices found. Try running as administrator and ensure your firewall allows ICMP/ARP." ],
        Return tt).
Proof. split; vm_compute; reflexivity. Qed.

(** X14.  What [main.ts] prints.  If the scan throws, because the
    interfaces cannot be enumerated or because a [ping] cannot be started
    on the interface named [Ethernet], it prints the starting line and
    ends with the exception.  Otherwise it prints the starting line and
    then either one line that says that no device was found, or a header
    and one line per device.  Each device line starts with the interface
    column, which is always [Ethernet] padded to 9; the vendor shown is
    the device's vendor (the fallback is never used); the line is at
    least 108 code units long, and exactly 108 when address, hardware
    address, vendor and name fit their columns of 15, 17, 30 and 25:
    [padEnd] never cuts a field. *)
Theorem main_report W :
  (networkInterfaces W = None
   \/ (exists ifs, networkInterfaces W = Some ifs
                   /\ scan_completes W main_options 0 ifs = false) ->
   main W = ([js "Starting ARP-based network scan..."], Throw))
  /\ (forall ifs n iface target,
        networkInterfaces W = Some ifs ->
        nth_error ifs n = Some iface ->
        if_name iface = js "Ethernet" -> if_family iface = IPv4 ->
        In target (calculateSubnet (if_address iface) (if_netmask iface)) ->
        ping (pass W n) target = SpawnError ->
        main W = ([js "Starting ARP-based network scan..."], Throw))
  /\ (forall ifs,
        networkInterfaces W = Some ifs ->
        scan_completes W main_options 0 ifs = true ->
        let devices := devices_from W main_options (Some (table_of W None)) 0 ifs in
        main W = (js "Starting ARP-based network scan..." :: report devices, Return tt)
        /\ length (report devices) = (if is_nil devices then 1 else S (length devices))
        /\ forall d, In d devices ->
             In (device_line d) (report devices)
             /\ firstn 12 (device_line d) = js "[Ethernet ] "
             /\ str_or (vendor d) Unknown = vendor d
             /\ 108 <= length (device_line d)
             /\ (length (ip d) <= 15 -> length (mac d) <= 17 ->
                 length (vendor d) <= 30 -> length (name d) <= 25 ->
                 length (device_line d) = 108)).
Proof.
  assert (Hthrow : forall ifs, networkInterfaces W = Some ifs ->
                               scan_completes W main_options 0 ifs = false ->
                               main W = ([js "Starting ARP-based network scan..."], Throw)).
  { intros ifs E Hc. unfold main.
    destruct (scan_outcome W main_options None) as [_ Ho]. rewrite E, Hc in Ho.
    rewrite Ho. reflexivity. }
  split; [|split].
  - intros [E|(ifs & E & Hc)]; [|eapply Hthrow; eassumption].
    unfold main. rewrite (scan_throws W main_options None E). reflexivity.
  - intros ifs n iface target E Hn Hname Hf Hin Hp. apply (Hthrow ifs E).
    eapply (scan_completes_false W main_options 0 ifs n); [exact Hn| |exact Hf|exact Hin|exact Hp].
    unfold skipped_by_filter. cbn [main_options interfaceFilter]. rewrite Hname.
    rewrite bool_decide_eq_true_2 by reflexivity. reflexivity.
  - intros ifs E Hc devices.
    destruct (scan_returns W main_options None ifs E Hc) as [t Ht].
    fold devices in Ht. split; [unfold main; rewrite Ht; reflexivity|]. split.
    + unfold report. destruct devices; [reflexivity|]. cbn [length Nat.eqb is_nil].
      rewrite length_map. reflexivity.
    + intros d Hd.
      pose proof (main_devices_interface _ _ _ _ _ Hd) as Hi.
      assert (Hv : truthy (vendor d) = true).
      { unfold devices in Hd. apply devices_from_in in Hd as (k & iface & _ & Hd).
        apply interface_devices_in in Hd as (_ & _ & e & _ & _ & ->).
        apply vendor_of_truthy. }
      split; [|split; [|split; [|split]]].
      * unfold report. destruct devices as [|d0 ds] eqn:Ed; [destruct Hd|].
        cbn [length Nat.eqb]. right. apply in_map. exact Hd.
      * unfold device_line. rewrite Hi. reflexivity.
      * unfold str_or. rewrite Hv. reflexivity.
      * rewrite length_device_line. lia.
      * intros H1 H2 H3 H4. rewrite length_device_line, Hi.
        pose proof (length_str_or_Unknown (vendor d) 30 ltac:(lia) H3).
        pose proof (length_str_or_Unknown (name d) 25 ltac:(lia) H4).
        change (length (js "Ethernet")) with 8. lia.
Qed.
(** ** Batches *)

Lemma awaits_app l1 l2 : awaits (l1 ++ l2) = awaits l1 ++ awaits l2.
Proof. unfold awaits. apply flat_map_app. Qed.

Lemma probed_not_all P ips : probes_start P ips = false -> 1 <= length (probed P ips).
Proof. destruct ips; [discriminate|]. intros _. cbn [probed length]. lia. Qed.

(** The batches that the loop of the prober awaits: the full ones among
    the probes it starts. *)
Lemma ping_loop_awaits P ips batch :
  forallb is_fulfilled batch = true -> length batch < BATCH_SIZE ->
  if probes_start P ips
  then exists log rest,
         ping_loop P ips batch = (log, Return rest)
         /\ forallb is_fulfilled rest = true
         /\ length rest = (length batch + length ips) mod BATCH_SIZE
         /\ awaits log = repeat BATCH_SIZE ((length batch + length ips) / BATCH_SIZE)
  else exists log,
         ping_loop P ips batch = (log, Throw)
         /\ awaits log
            = repeat BATCH_SIZE ((length batch + (length (probed P ips) - 1)) / BATCH_SIZE).
Proof.
  revert batch. induction ips as [|target ips IH]; intros batch Hb Hl.
  - cbn [probes_start forallb]. exists [], batch. cbn [ping_loop length]. rewrite Nat.add_0_r.
    rewrite Nat.mod_small, Nat.div_small by exact Hl. repeat split. exact Hb.
  - cbn [ping_loop probes_start forallb probed]. unfold command_output.
    destruct (ping P target) as [|code stdout]; cbn [started andb].
    + exists [Ping target]. split; [reflexivity|]. cbn [length Nat.sub].
      rewrite Nat.add_0_r, Nat.div_small by exact Hl. reflexivity.
    + cbn [bind emit ret fst snd app]. unfold then_ignore, catch_ignore.
      fold (probes_start P ips).
      set (batch' := batch ++ [Fulfilled]).
      assert (Hb' : forallb is_fulfilled batch' = true)
        by (unfold batch'; rewrite forallb_app, Hb; reflexivity).
      assert (Hl' : length batch' = S (length batch))
        by (unfold batch'; rewrite length_app; simpl; lia).
      destruct (Nat.leb_spec BATCH_SIZE (length batch')) as [Hfull|Hroom].
      * assert (Hk : length batch' = BATCH_SIZE) by lia.
        rewrite await_all_fulfilled by exact Hb'. cbn [bind fst snd app].
        specialize (IH [] eq_refl ltac:(unfold BATCH_SIZE; simpl; lia)).
        cbn [length Nat.add] in IH.
        destruct (probes_start P ips) eqn:Hs.
        -- destruct IH as (log & rest & E & Hr & Hn & Ha).
           rewrite E. exists (Ping target :: AwaitAll (length batch') :: log), rest.
           split; [reflexivity|]. split; [exact Hr|].
           cbn [length].
           replace (length batch + S (length ips)) with (length ips + 1 * BATCH_SIZE) by lia.
           rewrite Nat.Div0.mod_add, Nat.div_add by (unfold BATCH_SIZE; lia).
           split; [exact Hn|].
           change (awaits (Ping target :: AwaitAll (length batch') :: log))
             with (length batch' :: awaits log).
           rewrite Ha, Hk, Nat.add_1_r. reflexivity.
        -- destruct IH as (log & E & Ha).
           rewrite E. exists (Ping target :: AwaitAll (length batch') :: log).
           split; [reflexivity|].
           pose proof (probed_not_all P ips Hs) as Hp. cbn [length].
           replace (length batch + (S (length (probed P ips)) - 1))
             with (length (probed P ips) - 1 + 1 * BATCH_SIZE) by lia.
           rewrite Nat.div_add by (unfold BATCH_SIZE; lia).
           change (awaits (Ping target :: AwaitAll (length batch') :: log))
             with (length batch' :: awaits log).
           rewrite Ha, Hk, Nat.add_1_r. reflexivity.
      * specialize (IH batch' Hb' Hroom). rewrite Hl' in IH.
        destruct (probes_start P ips) eqn:Hs.
        -- destruct IH as (log & rest & E & Hr & Hn & Ha).
           rewrite E. exists (Ping target :: log), rest.
           split; [reflexivity|]. split; [exact Hr|].
           cbn [length].
           replace (length batch + S (length ips)) with (S (length batch) + length ips) by lia.
           split; [exact Hn|exact Ha].
        -- destruct IH as (log & E & Ha).
           rewrite E. exists (Ping target :: log). split; [reflexivity|].
           pose proof (probed_not_all P ips Hs) as Hp. cbn [length].
           replace (length batch + (S (length (probed P ips)) - 1))
             with (S (length batch) + (length (probed P ips) - 1)) by lia.
           exact Ha.
Qed.

Lemma list_sum_repeat a q : list_sum (repeat a q) = a * q.
Proof.
  induction q as [|q IH]; [simpl; lia|].
  change (list_sum (repeat a (S q))) with (a + list_sum (repeat a q)).
  rewrite IH. nia.
Qed.

(** X15.  When every [ping] starts, [pingSubnet] on a subnet of [n]
    addresses awaits [n / 50] batches of 50 pings and then, if [n] is no
    multiple of 50, one last batch of [n mod 50]: every ping is awaited
    exactly once, and there are as many pings as addresses.  When the
    [ping] of an address cannot be started, [pingSubnet] throws at that
    address: of the [m] pings it has started before, it has awaited the
    full batches of 50 and no other. *)
Theorem pingSubnet_batches P ipa netmask :
  let ips := calculateSubnet ipa netmask in
  (probes_start P ips = true ->
   let n := length ips in
   exists log,
     pingSubnet P ipa netmask = (log, Return tt)
     /\ awaits log = repeat 50 (n / 50) ++ (if n mod 50 =? 0 then [] else [n mod 50])
     /\ length (targets log) = n
     /\ list_sum (awaits log) = n)
  /\ (probes_start P ips = false ->
      let m := length (probed P ips) - 1 in
      exists log,
        pingSubnet P ipa netmask = (log, Throw)
        /\ awaits log = repeat 50 (m / 50)
        /\ length (targets log) = S m
        /\ list_sum (awaits log) = 50 * (m / 50)).
Proof.
  cbv zeta.
  pose proof (ping_loop_awaits P (calculateSubnet ipa netmask) [] eq_refl
                ltac:(unfold BATCH_SIZE; simpl; lia)) as Ha.
  destruct (pingSubnet_spec P ipa netmask) as (log0 & k & E0 & Ht & _).
  unfold pingSubnet in *. cbn [length Nat.add] in Ha. change BATCH_SIZE with 50 in *.
  split; intros Hs; rewrite Hs in Ha, E0.
  - destruct Ha as (log & rest & E & Hr & Hn & Ha).
    rewrite (probed_all _ _ Hs) in Ht.
    set (n := length (calculateSubnet ipa netmask)) in *.
    pose proof (list_sum_repeat 50 (n / 50)) as Hsum.
    pose proof (Nat.div_mod_eq n 50) as Hdm.
    rewrite E in *. cbn [bind] in *.
    destruct (Nat.ltb_spec 0 (length rest)) as [Hpos|Hzero].
    + rewrite await_all_fulfilled in * by exact Hr. cbn [fst snd] in *.
      injection E0 as <-.
      exists (log ++ [AwaitAll (length rest)]). split; [reflexivity|].
      rewrite awaits_app, Ha. cbn [awaits flat_map app].
      destruct (Nat.eqb_spec (n mod 50) 0) as [Hz|Hnz]; [lia|].
      rewrite Hn in Ht |- *. split; [reflexivity|]. split.
      * rewrite Ht. reflexivity.
      * rewrite list_sum_app, Hsum.
        change (list_sum [n mod 50]) with (n mod 50 + 0). lia.
    + cbn [ret fst snd] in *. rewrite app_nil_r in *. injection E0 as <-.
      exists log. split; [reflexivity|].
      destruct (Nat.eqb_spec (n mod 50) 0) as [Hz|Hnz]; [|lia].
      rewrite Ha, app_nil_r. split; [reflexivity|]. split.
      * rewrite Ht. reflexivity.
      * rewrite Hsum. lia.
  - destruct Ha as (log & E & Ha). rewrite E in *. cbn [bind] in *.
    injection E0 as <-. exists log. split; [reflexivity|]. split; [exact Ha|].
    pose proof (probed_not_all _ _ Hs) as Hp. split.
    + rewrite Ht. lia.
    + rewrite Ha. apply list_sum_repeat.
Qed.
